(** * carbonapi: expression parser and zipper error reconciliation

    A shallow embedding of [pkg/parser/parser.go] (the expression parser, the
    canonical text of a tree and the metric-request extractor) and of the
    error handling of [app/carbonzipper/http_handlers.go] ([errorsFanIn] and
    the response paths of the find and render handlers), together with the
    properties of the specification that are stated about them.

    Go strings are byte sequences and are modelled by [string]; Go's [int]
    and [int32] are modelled by [Z] with the wrap-around written out. *)

From Stdlib Require Import ZArith Lia String Ascii List Bool.
From stdpp Require Import base tactics option list sorting strings gmap pretty.

Set Warnings "-register-all".

Local Open Scope string_scope.
Local Open Scope list_scope.
Local Open Scope Z_scope.

(** ** The parts of the Go runtime the code calls *)

Module Go.

(** [s[i]]: a byte of a string, as a number. *)
Definition byte (c : ascii) : Z := Z.of_N (N_of_ascii c).
Global Arguments byte c%_char_scope.

Definition byte_at (s : string) (i : nat) : Z :=
  match String.get i s with Some c => byte c | None => 0 end.

(** [s[n:]] and [s[:n]] for [n] within the string. *)
Fixpoint drop (n : nat) (s : string) : string :=
  match n, s with
  | S k, String _ t => drop k t
  | _, _ => s
  end.

Fixpoint take (n : nat) (s : string) : string :=
  match n, s with
  | S k, String c t => String c (take k t)
  | _, _ => ""
  end.

(** *** unicode/utf8 *)

Definition RuneError : Z := 0xFFFD.

(** The table [first] of package utf8 for a leading byte above ASCII: the
    length of the sequence and the range accepted for its second byte;
    [None] for a byte that starts no sequence. *)
Definition first (s0 : Z) : option (nat * Z * Z) :=
  if (0xC2 <=? s0) && (s0 <=? 0xDF) then Some (2%nat, 0x80, 0xBF)
  else if s0 =? 0xE0 then Some (3%nat, 0xA0, 0xBF)
  else if (0xE1 <=? s0) && (s0 <=? 0xEC) then Some (3%nat, 0x80, 0xBF)
  else if s0 =? 0xED then Some (3%nat, 0x80, 0x9F)
  else if (0xEE <=? s0) && (s0 <=? 0xEF) then Some (3%nat, 0x80, 0xBF)
  else if s0 =? 0xF0 then Some (4%nat, 0x90, 0xBF)
  else if (0xF1 <=? s0) && (s0 <=? 0xF3) then Some (4%nat, 0x80, 0xBF)
  else if s0 =? 0xF4 then Some (4%nat, 0x80, 0x8F)
  else None.

Definition outside (lo hi b : Z) : bool := (b <? lo) || (hi <? b).

(** [utf8.DecodeRuneInString]: the first rune of [s] and its width. *)
Definition DecodeRuneInString (s : string) : Z * nat :=
  let n := String.length s in
  if (n <? 1)%nat then (RuneError, 0%nat)
  else
    let s0 := byte_at s 0 in
    if s0 <? 0x80 then (s0, 1%nat)
    else
      match first s0 with
      | None => (RuneError, 1%nat)
      | Some (sz, lo, hi) =>
        if (n <? sz)%nat then (RuneError, 1%nat)
        else
          let s1 := byte_at s 1 in
          if outside lo hi s1 then (RuneError, 1%nat)
          else if (sz <=? 2)%nat then
            (Z.lor (Z.shiftl (Z.land s0 0x1F) 6) (Z.land s1 0x3F), 2%nat)
          else
            let s2 := byte_at s 2 in
            if outside 0x80 0xBF s2 then (RuneError, 1%nat)
            else if (sz <=? 3)%nat then
              (Z.lor (Z.lor (Z.shiftl (Z.land s0 0x0F) 12)
                            (Z.shiftl (Z.land s1 0x3F) 6))
                     (Z.land s2 0x3F), 3%nat)
            else
              let s3 := byte_at s 3 in
              if outside 0x80 0xBF s3 then (RuneError, 1%nat)
              else
                (Z.lor (Z.lor (Z.lor (Z.shiftl (Z.land s0 0x07) 18)
                                     (Z.shiftl (Z.land s1 0x3F) 12))
                              (Z.shiftl (Z.land s2 0x3F) 6))
                       (Z.land s3 0x3F), 4%nat)
      end.

(** *** unicode *)

Definition MaxLatin1 : Z := 0xFF.

(** A [*unicode.RangeTable] denotes a set of code points; it is modelled by
    its membership test [unicode.Is]. *)
Definition RangeTable : Type := Z -> bool.

(** [unicode.In(r, ranges...)]. *)
Definition In (r : Z) (ranges : list RangeTable) : bool :=
  existsb (fun inside => inside r) ranges.

(** [unicode.White_Space] above Latin-1. *)
Definition White_Space : RangeTable := fun r =>
  (r =? 0x1680) || ((0x2000 <=? r) && (r <=? 0x200A)) ||
  (r =? 0x2028) || (r =? 0x2029) || (r =? 0x202F) || (r =? 0x205F) ||
  (r =? 0x3000).

(** [unicode.IsSpace]. *)
Definition IsSpace (r : Z) : bool :=
  if (0 <=? r) && (r <=? MaxLatin1) then
    (r =? 9) || (r =? 10) || (r =? 11) || (r =? 12) || (r =? 13) ||
    (r =? 32) || (r =? 0x85) || (r =? 0xA0)
  else White_Space r.

(** The letters of Latin-1 (the [pLu] and [pLl] entries of [properties]). *)
Definition latin1_letter (r : Z) : bool :=
  ((65 <=? r) && (r <=? 90)) || ((97 <=? r) && (r <=? 122)) ||
  (r =? 0xAA) || (r =? 0xB5) || (r =? 0xBA) ||
  ((0xC0 <=? r) && (r <=? 0xD6)) || ((0xD8 <=? r) && (r <=? 0xF6)) ||
  ((0xF8 <=? r) && (r <=? 0xFF)).

(** [unicode.IsLetter], over the table [Letter] of the Go release for the
    code points above Latin-1. U+FFFD, which [DecodeRuneInString] returns
    for an empty or ill-formed string, is a symbol and no letter. *)
Definition IsLetter (Letter : RangeTable) (r : Z) : bool :=
  if (0 <=? r) && (r <=? MaxLatin1) then latin1_letter r
  else if r =? RuneError then false
  else Letter r.

(** *** strings *)

(** [strings.TrimLeftFunc(s, unicode.IsSpace)]: the runes of [s] are
    decoded one after the other; [skip] counts the bytes of the current
    rune still to be dropped. *)
Fixpoint TrimLeft_go (skip : nat) (s : string) : string :=
  match skip with
  | S k => match s with String _ t => TrimLeft_go k t | "" => "" end
  | O =>
    if IsSpace (DecodeRuneInString s).1 then
      match s with
      | String _ t => TrimLeft_go (Nat.pred (DecodeRuneInString s).2) t
      | "" => ""
      end
    else s
  end.

Definition TrimLeftSpace (s : string) : string := TrimLeft_go 0 s.

(** [strings.ToLower] on the bytes of ASCII. The parser only compares the
    result with the words false and true, and no rune outside ASCII has
    one of their letters as lower case, so that the comparison is decided
    by the ASCII letters alone. *)
Definition lower (c : ascii) : ascii :=
  let b := byte c in
  if (65 <=? b) && (b <=? 90) then ascii_of_N (Z.to_N (b + 32)) else c.

Fixpoint ToLower (s : string) : string :=
  match s with
  | "" => ""
  | String c t => String (lower c) (ToLower t)
  end.

(** [strings.Replace(s, old, new, -1)] for a one-byte [old]. *)
Fixpoint ReplaceByte (old : ascii) (new : string) (s : string) : string :=
  match s with
  | "" => ""
  | String c t =>
    if Ascii.eqb c old then new +:+ ReplaceByte old new t
    else String c (ReplaceByte old new t)
  end.

(** *** strconv *)

(** A [float64]: signed zeros, finite numbers [(-1)^neg * m * 2^e] in
    canonical form ([2^52 <= m < 2^53], or [e = -1074] for a subnormal),
    infinities and NaN. *)
Inductive float64 : Type :=
| F_zero (neg : bool)
| F_finite (neg : bool) (m : positive) (e : Z)
| F_inf (neg : bool)
| F_nan.

Inductive NumError : Type := ErrSyntax | ErrRange.

Global Instance float64_eq_dec : EqDecision float64.
Proof. solve_decision. Defined.

Global Instance NumError_eq_dec : EqDecision NumError.
Proof. solve_decision. Defined.

Definition isDigit (b : Z) : bool := (48 <=? b) && (b <=? 57).

(** [num / den / 2^e] as a ratio of integers. *)
Definition scale2 (num den e : Z) : Z * Z :=
  if 0 <=? e then (num, den * 2 ^ e) else (num * 2 ^ (- e), den).

(** The nearest [float64] of the positive ratio [num / den], ties to even;
    [None] when it lies beyond the largest finite number. *)
Definition round_ratio (neg : bool) (num den : Z) : option float64 :=
  let e1 := Z.log2 num - Z.log2 den - 53 in
  let '(n1, d1) := scale2 num den e1 in
  let e2 := if 2 ^ 53 * d1 <=? n1 then e1 + 1 else e1 in
  let e := Z.max e2 (-1074) in
  let '(n, d) := scale2 num den e in
  let q := n / d in
  let r := n mod d in
  let q' := if (d <? 2 * r) || ((d =? 2 * r) && Z.odd q) then q + 1 else q in
  let '(m, e') := if q' =? 2 ^ 53 then (2 ^ 52, e + 1) else (q', e) in
  if m =? 0 then Some (F_zero neg)
  else if 972 <=? e' then None
  else Some (F_finite neg (Z.to_pos m) e').

(** The digits and the point of the mantissa, as [readFloat] scans them:
    whether a digit was seen, the digits as a number, how many of them
    follow the point, and the rest of the string. *)
Fixpoint readMantissa (s : string) (sawdot sawdigits : bool) (mant frac : Z)
  : bool * Z * Z * string :=
  match s with
  | String c t =>
    let b := byte c in
    if b =? 46 then
      if sawdot then (sawdigits, mant, frac, s)
      else readMantissa t true sawdigits mant frac
    else if isDigit b then
      readMantissa t sawdot true (mant * 10 + (b - 48))
                   (if sawdot then frac + 1 else frac)
    else (sawdigits, mant, frac, s)
  | "" => (sawdigits, mant, frac, s)
  end.

(** The digits of the exponent; [readFloat] stops adding them up once the
    exponent has reached 10000. *)
Fixpoint readExponent (s : string) (e : Z) : Z * string :=
  match s with
  | String c t =>
    let b := byte c in
    if isDigit b then
      readExponent t (if e <? 10000 then e * 10 + (b - 48) else e)
    else (e, s)
  | "" => (e, s)
  end.

Definition isE (b : Z) : bool := (b =? 101) || (b =? 69).

(** [strconv.ParseFloat(s, 64)] on the strings [parseConst] passes to it,
    whose bytes are digits, the point, the signs and the letters e and E
    (no infinity, NaN, hexadecimal mantissa or underscore can occur). The
    result is the correctly rounded value of the decimal number. *)
Definition ParseFloat (s : string) : float64 + NumError :=
  let '(neg, s1) :=
    match s with
    | String c t =>
      if byte c =? 43 then (false, t)
      else if byte c =? 45 then (true, t) else (false, s)
    | "" => (false, s)
    end in
  let '(sawdigits, mant, frac, s2) := readMantissa s1 false false 0 0 in
  if negb sawdigits then inr ErrSyntax
  else
    let scanned : option (Z * string) :=
      match s2 with
      | String c t =>
        if isE (byte c) then
          let '(esign, s3) :=
            match t with
            | String c' t' =>
              if byte c' =? 43 then (1, t')
              else if byte c' =? 45 then (-1, t') else (1, t)
            | "" => (1, t)
            end in
          match s3 with
          | String c' _ =>
            if isDigit (byte c') then
              let '(e, s4) := readExponent s3 0 in Some (e * esign, s4)
            else None
          | "" => None
          end
        else Some (0, s2)
      | "" => Some (0, s2)
      end in
    match scanned with
    | None => inr ErrSyntax
    | Some (_, String _ _) => inr ErrSyntax
    | Some (e, "") =>
      if mant =? 0 then inl (F_zero neg)
      else
        let e10 := e - frac in
        match (if 0 <=? e10 then round_ratio neg (mant * 10 ^ e10) 1
               else round_ratio neg mant (10 ^ (- e10))) with
        | Some f => inl f
        | None => inr ErrRange
        end
    end.

(** [strconv.ParseUint(s, 10, 64)] on a string that is not empty: the
    loop over the digits, with its two tests of overflow. *)
Fixpoint ParseUint_loop (s : string) (n : Z) : Z + NumError :=
  match s with
  | "" => inl n
  | String c t =>
    if isDigit (byte c) then
      if ((2 ^ 64 - 1) / 10 + 1 <=? n) then inr ErrRange
      else
        let n1 := n * 10 + (byte c - 48) in
        if 2 ^ 64 - 1 <? n1 then inr ErrRange
        else ParseUint_loop t n1
    else inr ErrSyntax
  end.

(** [strconv.ParseInt(s, 10, 64)] *)
Definition ParseInt (s : string) : Z + NumError :=
  match s with
  | "" => inr ErrSyntax
  | String c t =>
    let '(neg, digits) :=
      if Ascii.eqb c "+" then (false, t)
      else if Ascii.eqb c "-" then (true, t)
      else (false, s) in
    match digits with
    | "" => inr ErrSyntax
    | _ =>
      match ParseUint_loop digits 0 with
      | inr ErrSyntax => inr ErrSyntax
      | inr ErrRange => inr ErrRange
      | inl un =>
        if negb neg && (2 ^ 63 <=? un) then inr ErrRange
        else if neg && (2 ^ 63 <? un) then inr ErrRange
        else inl (if neg then - un else un)
      end
    end
  end.

End Go.

(** ** Outcomes of a call: a result, a run-time panic, or recursion cut off *)

Inductive outcome (A : Type) : Type :=
| Ret (a : A)
| Panic
| OutOfFuel.
Arguments Ret {A} a.
Arguments Panic {A}.
Arguments OutOfFuel {A}.

Global Instance outcome_ret : MRet outcome := @Ret.
Global Instance outcome_bind : MBind outcome := fun A B k m =>
  match m with
  | Ret a => k a
  | Panic => Panic
  | OutOfFuel => OutOfFuel
  end.

(** ** pkg/parser/parser.go *)

Module Parser.
Import Go.

(** Modelled from the spec: the constants of [ExprType] are declared outside
    parser.go. The tags are those of the expression node of the data model;
    [EtName] is the zero value, as [&expr{target: name}] builds a name. *)
Inductive ExprType : Type := EtName | EtFunc | EtConst | EtString.

Global Instance ExprType_eq_dec : EqDecision ExprType.
Proof. solve_decision. Defined.

Inductive expr : Type := Expr {
  target : string;
  etype : ExprType;
  val : float64;
  valStr : string;
  args : list expr;
  namedArgs : gmap string expr;
  argString : string
}.

(** The errors of the parser; the [Err...] values are declared outside
    parser.go. [ErrParseFloat] is the [*strconv.NumError] of [ParseFloat]
    and [ErrPipeToNotAFunction] the error [insertFirstArg] formats. *)
Inductive ParseError : Type :=
| ErrMissingExpr
| ErrMissingArgument
| ErrMissingComma
| ErrMissingQuote
| ErrUnexpectedCharacter
| ErrBadType
| ErrBraceInBrackets
| ErrMissingBrace
| ErrNestedBrackets
| ErrMissingBracket
| ErrCommaInBrackets
| ErrSpacesInBraces
| ErrSpacesInBrackets
| ErrParseFloat (num : string) (e : NumError)
| ErrPipeToNotAFunction.

(** What [parseExprWithoutPipe], [pipe] and [ParseExpr] return, and what
    [parseArgList] returns; [None] is [nil]. *)
Definition PResult : Type := option expr * string * option ParseError.
Definition AResult : Type :=
  string * list expr * gmap string expr * string * option ParseError.

Definition IsNameChar (r : Z) : bool :=
  false ||
  (byte "a" <=? r) && (r <=? byte "z") ||
  (byte "A" <=? r) && (r <=? byte "Z") ||
  (byte "0" <=? r) && (r <=? byte "9") ||
  (r =? byte ".") || (r =? byte "_") ||
  (r =? byte "-") || (r =? byte "*") ||
  (r =? byte "?") || (r =? byte ":") ||
  (r =? byte "^") || (r =? byte "$") ||
  (r =? byte "<") || (r =? byte ">") ||
  (r =? byte "&") || (r =? byte "#").

Definition isDigit (r : Z) : bool := (byte "0" <=? r) && (r <=? byte "9").

(** The characters of [case ' ', '\t', '\n']. *)
Definition is_blank (b : Z) : bool := (b =? byte " ") || (b =? 9) || (b =? 10).

(** The loop of [parseConst]: the index after the characters of a constant. *)
Fixpoint constRun (s : string) (i : nat) : nat :=
  match s with
  | String c t =>
    let b := byte c in
    if isDigit b || (b =? byte ".") || (b =? byte "+") || (b =? byte "-")
       || (b =? byte "e") || (b =? byte "E")
    then constRun t (S i) else i
  | "" => i
  end.

Definition parseConst (s : string) : float64 * string * option ParseError :=
  let i := constRun s 0 in
  match ParseFloat (take i s) with
  | inr err => (F_zero false, "", Some (ErrParseFloat (take i s) err))
  | inl v => (v, drop i s, None)
  end.

(** The loop of [parseString]: the index of the closing quote, or the
    length of the string. *)
Fixpoint quoteIndex (m : ascii) (s : string) (i : nat) : nat :=
  match s with
  | String c t => if Ascii.eqb c m then i else quoteIndex m t (S i)
  | "" => i
  end.

Definition isQuote (b : Z) : bool := (b =? 39) || (b =? 34).

Definition parseString (s : string)
  : outcome (string * string * option ParseError) :=
  match s with
  | "" => Panic
  | String m t =>
    if negb (isQuote (byte m)) then Panic
    else
      let i := quoteIndex m t 0 in
      if (i =? String.length t)%nat then Ret ("", "", Some ErrMissingQuote)
      else Ret (take i t, drop (S i) t, None)
  end.

(** [e != "" && e[0] == b] *)
Definition starts_with (b : Z) (e : string) : bool :=
  match e with
  | String e0 _ => byte e0 =? b
  | "" => false
  end.

(** The unset fields of a struct literal hold their zero values. *)
Definition zero_val : float64 := F_zero false.

Section WithRuntime.

(** [unicode.Letter] above Latin-1, and [fmt.Sprint] of a [float64]. *)
Variable Letter : RangeTable.
Variable FormatFloat : float64 -> string.
(** The package variable [RangeTables]. *)
Variable RangeTables : list RangeTable.

Definition ToString (e : expr) : string :=
  match etype e with
  | EtFunc => target e +:+ "(" +:+ argString e +:+ ")"
  | EtConst => FormatFloat (val e)
  | EtString =>
    let s := valStr e in
    let s := ReplaceByte "\" "\\" s in
    let s := ReplaceByte "'" "\'" s in
    "'" +:+ s +:+ "'"
  | _ => target e
  end.

Definition insertFirstArg (e exp : expr) : expr + ParseError :=
  if negb (bool_decide (etype e = EtFunc)) then inr ErrPipeToNotAFunction
  else
    let newArgs := [exp] in
    inl {| target := target e; etype := etype e; val := val e;
           valStr := valStr e;
           args := newArgs ++ args e;
           namedArgs := namedArgs e;
           argString :=
             if String.eqb (argString e) "" then ToString exp
             else ToString exp +:+ "," +:+ argString e |}.

(** One turn of the loop of [parseName] at [rest = s[i:]]: an error,
    the end of the name ([break FOR]), or the width [w] of the character
    passed over and the counters after it. *)
Inductive NameStep : Type :=
| NameErr (err : ParseError)
| NameStop
| NameNext (w : nat) (braces brackets : Z).

Definition parseName_step (rest : string) (braces brackets : Z) : NameStep :=
  match rest with
  | "" => NameStop
  | String c _ =>
    let b := byte c in
    if IsNameChar b then NameNext 1 braces brackets
    else if b =? byte "{" then
      if brackets >? 0 then NameErr ErrBraceInBrackets
      else NameNext 1 (braces + 1) brackets
    else if b =? byte "}" then
      if brackets >? 0 then NameErr ErrBraceInBrackets
      else if braces =? 0 then NameErr ErrMissingBrace
      else NameNext 1 (braces - 1) brackets
    else if b =? byte "[" then
      if brackets >? 0 then NameErr ErrNestedBrackets
      else NameNext 1 braces (brackets + 1)
    else if b =? byte "]" then
      if brackets =? 0 then NameErr ErrMissingBracket
      else NameNext 1 braces (brackets - 1)
    else if b =? byte "," then
      if brackets >? 0 then NameErr ErrCommaInBrackets
      else if braces =? 0 then NameStop
      else NameNext 1 braces brackets
    else if is_blank b then
      if braces >? 0 then NameErr ErrSpacesInBraces
      else if brackets >? 0 then NameErr ErrSpacesInBrackets
      else NameStop
    else
      let '(r, w) := DecodeRuneInString rest in
      if In r RangeTables then NameNext w braces brackets
      else NameStop
  end.

(** How the loop of [parseName] ends: at index [i] with the counters
    [braces] and [brackets], or with an error. *)
Definition NameScan : Type := (nat * Z * Z) + ParseError.

(** The loop of [parseName] from index [i] on, [rest] being [s[i:]];
    [skip] counts the bytes of a character of several bytes still to be
    passed over ([i += w]). *)
Fixpoint parseName_loop (rest : string) (i skip : nat) (braces brackets : Z)
  : NameScan :=
  match rest with
  | "" => inl (i, braces, brackets)
  | String _ t =>
    match skip with
    | S k => parseName_loop t (S i) k braces brackets
    | O =>
      match parseName_step rest braces brackets with
      | NameErr err => inr err
      | NameStop => inl (i, braces, brackets)
      | NameNext w braces brackets =>
        parseName_loop t (S i) (Nat.pred w) braces brackets
      end
    end
  end.

Definition parseName (s : string) : string * string * option ParseError :=
  match parseName_loop s 0 0 0 0 with
  | inr err => (s, "", Some err)
  | inl (i, braces, brackets) =>
    if braces >? 0 then (s, "", Some ErrMissingBrace)
    else if brackets >? 0 then (s, "", Some ErrMissingBracket)
    else if (i =? String.length s)%nat then (s, "", None)
    else (take i s, drop i s, None)
  end.

(** [scanned s i braces brackets]: the loop of [parseName] on [s] comes
    to index [i] with these counters. *)
Inductive scanned (s : string) : nat -> Z -> Z -> Prop :=
| scanned_start : scanned s 0 0 0
| scanned_next i braces brackets w braces' brackets' :
    scanned s i braces brackets ->
    (i < String.length s)%nat ->
    parseName_step (drop i s) braces brackets
    = NameNext w braces' brackets' ->
    scanned s (i + w) braces' brackets'.

(** The characters after which the callers of [parseName] go on: the end of
    the input, or a character at which the loop stops. *)
Definition ends_name (rest : string) : Prop :=
  rest = "" \/ parseName_step rest 0 0 = NameStop.

(** [for len(e) > 1 && unicode.IsSpace(rune(e[0])) { e = e[1:] }] *)
Fixpoint skipSpace (e : string) : string :=
  match e with
  | String c (String _ _ as t) => if IsSpace (byte c) then skipSpace t else e
  | _ => e
  end.

Definition isConstStart (b : Z) : bool :=
  (byte "0" <=? b) && (b <=? byte "9") || (b =? byte "-") || (b =? byte "+").

(** [parseExprWithoutPipe], over the [parseArgList] it calls. *)
Definition parseExprWithoutPipe_ (parseArgList : string -> outcome AResult)
           (e : string) : outcome PResult :=
  let e := skipSpace e in
  match e with
  | "" => Ret (None, "", Some ErrMissingExpr)
  | String e0 _ =>
    let const : option PResult :=
      if isConstStart (byte e0) then
        let '(v, tail, err) := parseConst e in
        let '(r, _) := DecodeRuneInString tail in
        if negb (IsLetter Letter r) then
          Some (Some {| target := ""; etype := EtConst; val := v;
                        valStr := ""; args := []; namedArgs := ∅;
                        argString := "" |}, tail, err)
        else None
      else None in
    match const with
    | Some r => Ret r
    | None =>
      if isQuote (byte e0) then
        '(v, tail, err) ← parseString e;
        Ret (Some {| target := ""; etype := EtString; val := zero_val;
                     valStr := v; args := []; namedArgs := ∅;
                     argString := "" |}, tail, err)
      else
        let '(name, e, err) := parseName e in
        match err with
        | Some _ => Ret (None, e, err)
        | None =>
          if String.eqb (ToLower name) "false"
             || String.eqb (ToLower name) "true"
          then Ret (Some {| target := name; etype := EtString;
                            val := zero_val; valStr := name; args := [];
                            namedArgs := ∅; argString := "" |}, e, None)
          else if String.eqb name "" then
            Ret (None, e, Some ErrMissingArgument)
          else
            let e := TrimLeftSpace e in
            if starts_with (byte "(") e then
              '(argString, args, namedArgs, e, err) ← parseArgList e;
              Ret (Some {| target := name; etype := EtFunc;
                           val := zero_val; valStr := "";
                           args := args; namedArgs := namedArgs;
                           argString := argString |}, e, err)
            else
              Ret (Some {| target := name; etype := EtName;
                           val := zero_val; valStr := ""; args := [];
                           namedArgs := ∅; argString := "" |}, e, None)
        end
    end
  end.

(** [pipe], over the [parseExprWithoutPipe] it calls; [fuel] bounds the
    depth of its own recursion. *)
Fixpoint pipe_ (parseExprWithoutPipe : string -> outcome PResult)
         (fuel : nat) (exp : expr) (e : string) : outcome PResult :=
  match fuel with
  | O => OutOfFuel
  | S fuel =>
    let e := skipSpace e in
    if negb (starts_with (byte "|") e) then Ret (Some exp, e, None)
    else
      '(wr, e, err) ← parseExprWithoutPipe (drop 1 e);
      match err with
      | Some _ => Ret (Some exp, e, err)
      | None =>
        match wr with
        | None => Ret (Some exp, e, None)
        | Some wr =>
          match insertFirstArg wr exp with
          | inr err => Ret (Some exp, e, Some err)
          | inl exp => pipe_ parseExprWithoutPipe fuel exp e
          end
        end
      end
  end.

(** [argString[:len(argString)-len(e)]] *)
Definition consumed (argString e : string) : outcome string :=
  if (String.length e <=? String.length argString)%nat
  then Ret (take (String.length argString - String.length e) argString)
  else Panic.

Definition writeArg (buf text : string) : string :=
  if (0 <? String.length buf)%nat then buf +:+ "," +:+ text else buf +:+ text.

Definition argError (e : string) (err : ParseError) : outcome AResult :=
  Ret ("", [], ∅, e, Some err).

(** The loop of [parseArgList], over the [ParseExpr] it calls; [fuel]
    bounds the number of its turns. *)
Fixpoint parseArgList_loop (ParseExpr : string -> outcome PResult)
         (fuel : nat) (argStringBuffer : string) (posArgs : list expr)
         (namedArgs : gmap string expr) (e : string) : outcome AResult :=
  match fuel with
  | O => OutOfFuel
  | S fuel =>
    let argString := e in
    '(arg, e, err) ← ParseExpr e;
    match err with
    | Some err => argError e err
    | None =>
      match arg with
      | None => Panic
      | Some arg =>
        match e with
        | "" => argError "" ErrMissingComma
        | String e0 e1 =>
          (* the entry: an error to return, or the buffer, the arguments
             and the rest of the input after it *)
          entry ←
            (if bool_decide (etype arg = EtName) && (byte e0 =? byte "=")
             then
               '(argCont, eCont, errCont) ← ParseExpr e1;
               match errCont with
               | Some errCont => Ret (inr (eCont, errCont))
               | None =>
                 match argCont with
                 | None => Panic
                 | Some argCont =>
                   if String.eqb eCont ""
                   then Ret (inr ("", ErrMissingComma))
                   else if negb (bool_decide (etype argCont = EtConst))
                           && negb (bool_decide (etype argCont = EtName))
                           && negb (bool_decide (etype argCont = EtString))
                   then Ret (inr (eCont, ErrBadType))
                   else
                     let exp := {| target := target argCont;
                                   etype := etype argCont;
                                   val := val argCont;
                                   valStr := valStr argCont;
                                   args := []; namedArgs := ∅;
                                   argString := "" |} in
                     text ← consumed argString eCont;
                     Ret (inl (writeArg argStringBuffer text, posArgs,
                               <[target arg := exp]> namedArgs, eCont))
                 end
               end
             else
               let exp := arg in
               text ← (if bool_decide (etype exp = EtFunc)
                        then Ret (ToString exp)
                        else consumed argString e);
               Ret (inl (writeArg argStringBuffer text, posArgs ++ [exp],
                         namedArgs, e)));
          match entry with
          | inr (e, err) => argError e err
          | inl (argStringBuffer, posArgs, namedArgs, e) =>
            let e := TrimLeftSpace e in
            match e with
            | "" => argError "" ErrUnexpectedCharacter
            | String e0 e1 =>
              if byte e0 =? byte ")" then
                Ret (argStringBuffer, posArgs, namedArgs, e1, None)
              else if negb (byte e0 =? byte ",")
                      && negb (byte e0 =? byte " ")
              then argError "" ErrUnexpectedCharacter
              else parseArgList_loop ParseExpr fuel argStringBuffer
                                     posArgs namedArgs e1
            end
          end
        end
      end
    end
  end.

(** [parseArgList], over the [ParseExpr] it calls. *)
Definition parseArgList_ (ParseExpr : string -> outcome PResult)
           (fuel : nat) (e : string) : outcome AResult :=
  if negb (starts_with (byte "(") e) then Panic
  else
    let e := drop 1 e in
    let t := TrimLeftSpace e in
    if starts_with (byte ")") t then Ret ("", [], ∅, drop 1 t, None)
    else parseArgList_loop ParseExpr fuel "" [] ∅ e.

(** [ParseExpr]; each call of [ParseExpr] inside an argument list uses
    one unit of [fuel]. *)
Fixpoint ParseExpr_fuel (fuel : nat) (e : string) : outcome PResult :=
  match fuel with
  | O => OutOfFuel
  | S fuel =>
    let parseExprWithoutPipe :=
      parseExprWithoutPipe_ (parseArgList_ (ParseExpr_fuel fuel) fuel) in
    '(exp, e, err) ← parseExprWithoutPipe e;
    match err with
    | Some _ => Ret (exp, e, err)
    | None =>
      match exp with
      | None => Panic
      | Some exp => pipe_ parseExprWithoutPipe fuel exp e
      end
    end
  end.

(** The functions of the package: every recursive call is on a shorter
    string, so that the length of the input is fuel enough
    ([ParseExpr_fuel_enough] below). *)
Definition ParseExpr (e : string) : outcome PResult :=
  ParseExpr_fuel (S (String.length e)) e.

Definition parseArgList (e : string) : outcome AResult :=
  parseArgList_ ParseExpr (String.length e) e.

Definition parseExprWithoutPipe (e : string) : outcome PResult :=
  parseExprWithoutPipe_ parseArgList e.

Definition pipe (exp : expr) (e : string) : outcome PResult :=
  pipe_ parseExprWithoutPipe (S (String.length e)) exp e.

(** The loop of [parseArgList] with the buffer and the arguments so far. *)
Definition parseArgList_args (argStringBuffer : string) (posArgs : list expr)
           (namedArgs : gmap string expr) (e : string) : outcome AResult :=
  parseArgList_loop ParseExpr (S (String.length e)) argStringBuffer posArgs
                    namedArgs e.

End WithRuntime.

(** The nodes the parser builds: [&expr{val: v, etype: EtConst}],
    [&expr{target: name}] and [&expr{target: name, etype: EtFunc}] with its
    arguments. *)
Definition Const (v : float64) : expr :=
  {| target := ""; etype := EtConst; val := v; valStr := ""; args := [];
     namedArgs := ∅; argString := "" |}.

Definition Name (name : string) : expr :=
  {| target := name; etype := EtName; val := zero_val; valStr := "";
     args := []; namedArgs := ∅; argString := "" |}.

Definition Func (name : string) (args : list expr)
           (namedArgs : gmap string expr) (argString : string) : expr :=
  {| target := name; etype := EtFunc; val := zero_val; valStr := "";
     args := args; namedArgs := namedArgs; argString := argString |}.

Definition Str (s : string) : expr :=
  {| target := ""; etype := EtString; val := zero_val; valStr := s;
     args := []; namedArgs := ∅; argString := "" |}.

Fixpoint all_bytes (p : Z -> bool) (s : string) : bool :=
  match s with
  | "" => true
  | String c t => p (byte c) && all_bytes p t
  end.

(** A name of plain name characters that starts no constant and is neither
    of the words true and false. *)
Definition is_identifier (x : string) : bool :=
  match x with
  | "" => false
  | String c _ =>
    all_bytes IsNameChar x && negb (isConstStart (byte c))
    && negb (String.eqb (ToLower x) "false" || String.eqb (ToLower x) "true")
  end.

(** *** What the proofs say about a call *)

(** A call on [e] returns, the rest of the input is no longer than [e], and
    on success there is a node and the rest is shorter than [e]. *)
Definition progress (e : string) (r : outcome PResult) : Prop :=
  exists x rest err, r = Ret (x, rest, err) /\
    (String.length rest <= String.length e)%nat /\
    (err = None -> is_Some x /\ (String.length rest < String.length e)%nat).

Definition progressA (e : string) (r : outcome AResult) : Prop :=
  exists s p nm rest err,
    r = Ret (s, p, nm, rest, err) /\
    (String.length rest <= String.length e)%nat.

Definition bounded (e : string) (r : outcome PResult) : Prop :=
  exists x rest err,
    r = Ret (Some x, rest, err) /\
    (String.length rest <= String.length e)%nat.

(** Every byte of [s] is a space for [unicode.IsSpace(rune(s[i]))]. *)
Definition all_space (s : string) : Prop :=
  forall i c, String.get i s = Some c -> IsSpace (byte c) = true.

(** The configured range tables hold no ASCII character and not U+FFFD:
    they name letters of other scripts. *)
Definition tables_above_ascii (tables : list RangeTable) : Prop :=
  forall r, r < 128 \/ r = RuneError -> In r tables = false.



(** *** Expressions in canonical text *)

(** An expression in canonical text: names, numbers, strings in single
    quotes and calls with positional arguments, written without blanks. *)
Inductive term : Type :=
| TName (x : string)
| TNum (s : string)
| TStr (s : string)
| TCall (f : string) (ts : list term).

(** [strings.Join(l, ",")] *)
Fixpoint commas (l : list string) : string :=
  match l with
  | [] => ""
  | [s] => s
  | s :: l => s +:+ "," +:+ commas l
  end.

Fixpoint text (t : term) : string :=
  match t with
  | TName x => x
  | TNum s => s
  | TStr s => "'" +:+ s +:+ "'"
  | TCall f ts => f +:+ "(" +:+ commas (map text ts) +:+ ")"
  end.

(** The tree that the text of a term stands for. *)
Fixpoint tree (t : term) : expr :=
  match t with
  | TName x => Name x
  | TNum s => Const (match ParseFloat s with inl v => v | inr _ => zero_val end)
  | TStr s => Str s
  | TCall f ts => Func f (map tree ts) ∅ (commas (map text ts))
  end.

(** The bytes that the loop of [parseConst] passes over. *)
Definition isConstByte (b : Z) : bool :=
  isDigit b || (b =? byte ".") || (b =? byte "+") || (b =? byte "-")
  || (b =? byte "e") || (b =? byte "E").

(** A text of constant bytes that [ParseFloat] accepts. *)
Definition is_number (s : string) : bool :=
  match s with
  | "" => false
  | String c _ =>
    isConstStart (byte c) && all_bytes isConstByte s
    && match ParseFloat s with inl _ => true | inr _ => false end
  end.

Definition free_of (c : ascii) (s : string) : bool :=
  all_bytes (fun b => negb (b =? byte c)) s.

Fixpoint well_formed (t : term) : bool :=
  match t with
  | TName x => is_identifier x
  | TNum s => is_number s
  | TStr s => free_of "'" s
  | TCall f ts => is_identifier f && forallb well_formed ts
  end.

(** The terms whose tree prints as their text: a name, a call, and a
    string without a backslash. *)
Definition prints_back (t : term) : bool :=
  match t with
  | TName _ | TCall _ _ => true
  | TNum _ => false
  | TStr s => free_of "\" s
  end.

(** What may follow an argument: nothing, a comma or the closing
    parenthesis. *)
Definition follows (r : string) : bool :=
  match r with
  | "" => true
  | String c _ => (byte c =? byte ",") || (byte c =? byte ")")
  end.

(** The text of [t], before anything that may follow an argument, parses to
    the tree of [t] and leaves what follows. *)
Definition parses (Letter : RangeTable) (FormatFloat : float64 -> string)
           (RangeTables : list RangeTable) (t : term) : Prop :=
  well_formed t = true -> forall r, follows r = true ->
  ParseExpr Letter FormatFloat RangeTables (text t +:+ r)
  = Ret (Some (tree t), r, None).

(** What may follow a constant: nothing, or a byte that the loop of
    [parseConst] does not pass over. *)
Definition ends_const (r : string) : bool :=
  match r with
  | "" => true
  | String c _ => negb (isConstByte (byte c))
  end.

(** The node of the words true and false. *)
Definition BoolAtom (name : string) : expr :=
  {| target := name; etype := EtString; val := zero_val; valStr := name;
     args := []; namedArgs := ∅; argString := "" |}.

(** An entry of an argument list in canonical text: a positional argument,
    or a key with its value. *)
Inductive entry : Type :=
| Pos (t : term)
| Named (k : string) (v : term).

Definition entry_text (a : entry) : string :=
  match a with
  | Pos t => text t
  | Named k v => k +:+ "=" +:+ text v
  end.

Definition is_leaf (t : term) : bool :=
  match t with TCall _ _ => false | _ => true end.

Definition entry_ok (a : entry) : bool :=
  match a with
  | Pos t => well_formed t
  | Named k v => is_identifier k && well_formed v && is_leaf v
  end.

(** The positional arguments of the entries, in order, and the named
    arguments, a later entry of a key replacing an earlier one. *)
Fixpoint positional (l : list entry) : list expr :=
  match l with
  | [] => []
  | Pos t :: l => tree t :: positional l
  | Named _ _ :: l => positional l
  end.

Fixpoint named (nm : gmap string expr) (l : list entry) : gmap string expr :=
  match l with
  | [] => nm
  | Pos _ :: l => named nm l
  | Named k v :: l => named (<[k := tree v]> nm) l
  end.

(** A chain of pipes: the calls [| f(ts)] after an expression, and the
    nested call they stand for. *)
Fixpoint pipe_text (cs : list (string * list term)) : string :=
  match cs with
  | [] => ""
  | (f, ts) :: cs => " | " +:+ text (TCall f ts) +:+ pipe_text cs
  end.

Fixpoint piped (t : term) (cs : list (string * list term)) : term :=
  match cs with
  | [] => t
  | (f, ts) :: cs => piped (TCall f (t :: ts)) cs
  end.

(** *** Trees that read back from their canonical text *)

(** The range tables and the letters the proofs about canonical text are
    about: the configured range tables hold no ASCII character, no space and
    not U+FFFD (they name letters of other scripts), and no space is a
    letter. *)
Definition tables_of_names (tables : list RangeTable) : Prop :=
  forall r, r < 128 \/ r = RuneError \/ IsSpace r = true ->
            In r tables = false.

Definition letters_no_space (Letter : RangeTable) : Prop :=
  forall r, IsSpace r = true -> IsLetter Letter r = false.

(** A name that its own text does not turn into a number: it has a byte
    that the loop of [parseConst] does not pass over, or starts no
    constant. *)
Definition name_ok (t : string) : bool :=
  match t with
  | "" => false
  | String c _ => negb (isConstStart (byte c) && all_bytes isConstByte t)
  end.

(** The characters that end a token: a comma, a parenthesis, the equals
    sign and the bar. *)
Definition hard (b : Z) : bool :=
  (b =? byte ",") || (b =? byte ")") || (b =? byte "(")
  || (b =? byte "=") || (b =? byte "|").

(** What may stand after a token: nothing, one of these characters, or a
    space, be it a byte or a rune. *)
Definition ender (y : string) : bool :=
  match y with
  | "" => true
  | String c _ =>
    hard (byte c) || IsSpace (byte c) || IsSpace (DecodeRuneInString y).1
  end.

Section WithFormat.

Variable FormatFloat : float64 -> string.

(** The text of a number is read back as the number. *)
Definition reads_back (v : float64) : bool :=
  is_number (FormatFloat v)
  && bool_decide (ParseFloat (FormatFloat v) = inl v).

(** A node other than a call whose canonical text is read back as the
    node: a name that is no number, a number that is read back, and a
    string, not one of the words true and false, without a quote or a
    backslash. *)
Definition leaf_ok (e : expr) : bool :=
  match etype e with
  | EtName => name_ok (target e)
  | EtConst => reads_back (val e)
  | EtString =>
    String.eqb (target e) "" && free_of "'" (valStr e)
    && free_of "\" (valStr e)
  | EtFunc => true
  end.

(** A tree in which every node that was written as its canonical text is
    read back from it: the tree itself, when it is no call; in a call, the
    calls among the positional arguments, and the first positional
    argument when the text of the arguments starts with its canonical text
    (as after a pipe, which puts the canonical text of its left side
    there). *)
Fixpoint faithful (e : expr) : bool :=
  match e with
  | Expr _ EtFunc _ _ args _ argString =>
    forallb (fun a => match etype a with
                      | EtFunc => faithful a
                      | _ => true
                      end) args
    && match args with
       | a :: _ =>
         match etype a with
         | EtFunc => true
         | _ => negb (String.prefix (ToString FormatFloat a) argString)
                || leaf_ok a
         end
       | [] => true
       end
  | _ => leaf_ok e
  end.

End WithFormat.

(** *** What the proofs say about the text of the arguments *)

(** What may stand after an argument of a list, or after a key: a comma,
    the closing parenthesis, or the equals sign. *)
Definition stops (y : string) : bool :=
  match y with
  | "" => false
  | String c _ =>
    (byte c =? byte ",") || (byte c =? byte ")") || (byte c =? byte "=")
  end.

(** An entry of an argument list as the loop of [parseArgList] has taken
    it: its text in the text of the arguments, with the positional
    argument, or the key and the value. *)
Inductive item : Type :=
| Positional (text : string) (arg : expr)
| Keyed (text : string) (key : string) (value : expr).

Definition item_text (it : item) : string :=
  match it with
  | Positional text _ => text
  | Keyed text _ _ => text
  end.

Definition item_args (it : item) : list expr :=
  match it with
  | Positional _ arg => [arg]
  | Keyed _ _ _ => []
  end.

Definition item_named (nm : gmap string expr) (it : item) : gmap string expr :=
  match it with
  | Positional _ _ => nm
  | Keyed _ key value => <[key := value]> nm
  end.

(** The buffer, the positional and the named arguments after the items
    [l], from those before them. *)
Fixpoint items_text (buf : string) (l : list item) : string :=
  match l with
  | [] => buf
  | it :: l => items_text (writeArg buf (item_text it)) l
  end.

Fixpoint items_args (l : list item) : list expr :=
  match l with
  | [] => []
  | it :: l => item_args it ++ items_args l
  end.

Fixpoint items_named (nm : gmap string expr) (l : list item)
  : gmap string expr :=
  match l with
  | [] => nm
  | it :: l => items_named (item_named nm it) l
  end.

(** The calls among the positional arguments are faithful. *)
Definition calls_faithful (FormatFloat : float64 -> string) (l : list expr)
  : bool :=
  forallb (fun a => match etype a with
                    | EtFunc => faithful FormatFloat a
                    | _ => true
                    end) l.

Section WithReading.

Variable Letter : RangeTable.
Variable FormatFloat : float64 -> string.
Variable RangeTables : list RangeTable.

(** A text that is read as a name before anything that may stand after a
    token: [parseName] stops at its end and, when it starts like a
    constant, a letter follows the constant at its head. *)
Definition reads_as_name (name : string) : Prop :=
  exists c t, name = String c t /\ IsSpace (byte c) = false /\
    isQuote (byte c) = false /\
    forall y, ender y = true ->
      parseName RangeTables (name +:+ y) = (name, y, None) /\
      (isConstStart (byte c) = true ->
       (exists v, ParseFloat (take (constRun (name +:+ y) 0) (name +:+ y))
                  = inl v) /\
       IsLetter Letter
         (DecodeRuneInString
            (drop (constRun (name +:+ y) 0) (name +:+ y))).1 = true).

(** The text of an item is no blank text and, before a comma or a closing
    parenthesis, the loop of [parseArgList] takes the item from it
    again. *)
Definition replays (it : item) : Prop :=
  item_text it <> "" /\
  forall c X, c = ","%char \/ c = ")"%char ->
    starts_with (byte ")") (TrimLeftSpace (item_text it +:+ String c X))
    = false /\
    forall buf pos nm,
      parseArgList_args Letter FormatFloat RangeTables buf pos nm
                        (item_text it +:+ String c X) =
      if Ascii.eqb c ")" then
        Ret (writeArg buf (item_text it), pos ++ item_args it,
             item_named nm it, X, None)
      else
        parseArgList_args Letter FormatFloat RangeTables
          (writeArg buf (item_text it)) (pos ++ item_args it)
          (item_named nm it) X.

(** The arguments of a call are those of items that the loop takes again
    from the text of the arguments. *)
Definition assembled (n : expr) : Prop :=
  exists l, args n = items_args l /\ namedArgs n = items_named ∅ l /\
            argString n = items_text "" l /\ Forall replays l.

(** A name before an opening parenthesis is read as the name of a
    call. *)
Definition callable (f : string) : Prop :=
  forall Z,
    parseExprWithoutPipe Letter FormatFloat RangeTables (f +:+ "(" +:+ Z) =
    '(s, a, nm, e, err) ← parseArgList Letter FormatFloat RangeTables
                                       ("(" +:+ Z);
    Ret (Some (Func f a nm s), e, err).

(** A call as the parser builds it: its name is read as the name of a
    call and, when [ok] holds, its arguments are read again from their
    text. *)
Definition built (ok : Prop) (n : expr) : Prop :=
  n = Func (target n) (args n) (namedArgs n) (argString n) /\
  callable (target n) /\ (ok -> assembled n).

(** What a node that [ParseExpr] returns is like: a call as the parser
    builds it, or a name that is read as a name, a constant or a string. *)
Definition parsed (n : expr) : Prop :=
  match etype n with
  | EtFunc => built (faithful FormatFloat n = true) n
  | EtName => n = Name (target n) /\ (name_ok (target n) = true ->
                                      reads_as_name (target n))
  | EtConst => n = Const (val n)
  | EtString => n = Str (valStr n) \/ n = BoolAtom (valStr n)
  end.

End WithReading.

(** *** The metric requests of a tree *)

Record MetricRequest : Type := {
  Metric : string;
  From : Z;
  Until : Z
}.

(** The value of an [int32] computed without bound. *)
Definition wrap32 (z : Z) : Z := (z + 2 ^ 31) mod 2 ^ 32 - 2 ^ 31.

(** [for i := lo; i < hi; i++] *)
Definition int_range (lo hi : Z) : list Z :=
  map (fun k => lo + Z.of_nat k) (seq 0 (Z.to_nat (hi - lo))).

Definition is_in (x : string) (l : list string) : bool :=
  existsb (String.eqb x) l.

Section WithAccessors.

(** [IntervalString] and the method [doGetIntArg] are declared outside
    parser.go: the seconds of a duration text under a default sign, and
    the integer value of a node, or an error. *)
Variable IntervalString : string -> Z -> Z + ParseError.
Variable doGetIntArg : expr -> Z + ParseError.

Definition GetIntervalArg (e : expr) (n : nat) (defaultSign : Z)
  : Z + ParseError :=
  if (length (args e) <=? n)%nat then inr ErrMissingArgument
  else
    match args e !! n with
    | None => inr ErrMissingArgument
    | Some a =>
      if negb (bool_decide (etype a = EtString)) then inr ErrBadType
      else
        match IntervalString (valStr a) defaultSign with
        | inr _ => inr ErrBadType
        | inl seconds => inl seconds
        end
    end.

Definition GetIntArg (e : expr) (n : nat) : Z + ParseError :=
  if (length (args e) <=? n)%nat then inr ErrMissingArgument
  else
    match args e !! n with
    | None => inr ErrMissingArgument
    | Some a => doGetIntArg a
    end.

(** The requests of the arguments, in order, given those of one node. *)
Fixpoint collect (Metrics : expr -> outcome (list MetricRequest))
         (l : list expr) : outcome (list MetricRequest) :=
  match l with
  | [] => Ret []
  | a :: l =>
    ra ← Metrics a;
    rl ← collect Metrics l;
    Ret (ra ++ rl)
  end.

(** [From += d; Until += d] and [From += d] on a request. *)
Definition shift (d : Z) (r : MetricRequest) : MetricRequest :=
  {| Metric := Metric r;
     From := wrap32 (From r + d);
     Until := wrap32 (Until r + d) |}.

Definition shiftFrom (d : Z) (r : MetricRequest) : MetricRequest :=
  {| Metric := Metric r;
     From := wrap32 (From r + d);
     Until := Until r |}.

(** The adjustment of the collected requests [r] by the function of the
    node [e]; [e.args[1]] panics when there is no second argument. *)
Definition adjust (e : expr) (r : list MetricRequest)
  : outcome (list MetricRequest) :=
  let name := target e in
  if String.eqb name "timeShift" then
    match GetIntervalArg e 1 (-1) with
    | inr _ => Ret []
    | inl offs => Ret (map (shift offs) r)
    end
  else if String.eqb name "timeStack" then
    match GetIntervalArg e 1 (-1) with
    | inr _ => Ret []
    | inl offs =>
      match GetIntArg e 2 with
      | inr _ => Ret []
      | inl start =>
        match GetIntArg e 3 with
        | inr _ => Ret []
        | inl end_ =>
          Ret (flat_map
                 (fun v =>
                    map (fun i => shift (wrap32 (i * offs)) v)
                        (int_range (wrap32 start) (wrap32 end_)))
                 r)
        end
      end
    end
  else if is_in name ["holtWintersForecast"; "holtWintersConfidenceBands";
                      "holtWintersAberration"] then
    Ret (map (shiftFrom (- (7 * 86400))) r)
  else if is_in name ["movingAverage"; "movingMedian"; "movingMin";
                      "movingMax"; "movingSum"] then
    match args e !! 1%nat with
    | None => Panic
    | Some a1 =>
      if bool_decide (etype a1 = EtString) then
        match GetIntervalArg e 1 1 with
        | inr _ => Ret []
        | inl offs => Ret (map (shiftFrom (- offs)) r)
        end
      else Ret r
    end
  else Ret r.

Fixpoint Metrics (e : expr) : outcome (list MetricRequest) :=
  match e with
  | Expr target etype _ _ args _ _ =>
    match etype with
    | EtName => Ret [{| Metric := target; From := 0; Until := 0 |}]
    | EtConst | EtString => Ret []
    | EtFunc =>
      r ← (fix collect_args (l : list expr) :=
             match l with
             | [] => Ret []
             | a :: l =>
               ra ← Metrics a;
               rl ← collect_args l;
               Ret (ra ++ rl)
             end) args;
      adjust e r
    end
  end.

End WithAccessors.

(** The targets of the name nodes among the positional arguments of a
    tree, in order. *)
Fixpoint names (e : expr) : list string :=
  match e with
  | Expr target etype _ _ args _ _ =>
    match etype with
    | EtName => [target]
    | EtFunc => flat_map names args
    | EtConst | EtString => []
    end
  end.

Definition moving_names : list string :=
  ["movingAverage"; "movingMedian"; "movingMin"; "movingMax"; "movingSum"].

Definition holtWinters_names : list string :=
  ["holtWintersForecast"; "holtWintersConfidenceBands";
   "holtWintersAberration"].

(** A call of a moving function with fewer than two arguments, somewhere
    among the positional arguments of a tree. *)
Fixpoint short_moving (e : expr) : bool :=
  match e with
  | Expr target etype _ _ args _ _ =>
    match etype with
    | EtFunc =>
      existsb short_moving args
      || (is_in target moving_names && (length args <? 2)%nat)
    | _ => false
    end
  end.

(** The functions whose requests [Metrics] adjusts. *)
Definition adjusted_names : list string :=
  ["timeShift"; "timeStack"] ++ holtWinters_names ++ moving_names.

(** No call of such a function among the positional arguments of a tree. *)
Fixpoint plain (e : expr) : bool :=
  match e with
  | Expr target etype _ _ args _ _ =>
    match etype with
    | EtFunc => negb (is_in target adjusted_names) && forallb plain args
    | _ => true
    end
  end.

(** *** Other accessors of the arguments *)

Section WithArgs.

(** The methods [doGetIntArg] and [doGetStringArg] are declared outside
    parser.go. *)
Variable doGetIntArg : expr -> Z + ParseError.
Variable doGetStringArg : expr -> string * option ParseError.

(** [l[i]] for an index [i] of type [int]: [None] is the panic of an
    index out of range. *)
Definition index (l : list expr) (i : Z) : option expr :=
  if i <? 0 then None else l !! Z.to_nat i.

(** [GetIntArg] with its index as the [int] it is: a negative index passes
    the test of the length and [e.args[n]] panics. *)
Definition GetIntArg_int (e : expr) (n : Z) : outcome (Z + ParseError) :=
  if Z.of_nat (length (args e)) <=? n then Ret (inr ErrMissingArgument)
  else
    match index (args e) n with
    | None => Panic
    | Some a => Ret (doGetIntArg a)
    end.

(** The loop of [GetIntArgs], [for i := n; i < len(e.args); i++]: [k] more
    rounds from index [i] on. *)
Fixpoint GetIntArgs_loop (e : expr) (k : nat) (i : Z) (ints : list Z)
  : outcome (list Z + ParseError) :=
  match k with
  | O => Ret (inl ints)
  | S k =>
    r ← GetIntArg_int e i;
    match r with
    | inr err => Ret (inr err)
    | inl a => GetIntArgs_loop e k (i + 1) (ints ++ [a])
    end
  end.

Definition GetIntArgs (e : expr) (n : Z) : outcome (list Z + ParseError) :=
  if Z.of_nat (length (args e)) <=? n then Ret (inr ErrMissingArgument)
  else
    GetIntArgs_loop e (Z.to_nat (Z.of_nat (length (args e)) - n)) n [].

Definition GetStringArg (e : expr) (n : nat) : string * option ParseError :=
  if (length (args e) <=? n)%nat then ("", Some ErrMissingArgument)
  else
    match args e !! n with
    | None => ("", Some ErrMissingArgument)
    | Some a => doGetStringArg a
    end.

End WithArgs.

End Parser.

(** ** app/carbonzipper/http_handlers.go *)

Module Zipper.

(** An [error] value: a [types.ErrNotFound], the error of [errors.New], or
    any other error, of which the code reads the text and, through
    [errors.As], whether a [types.ErrNotFound] is in its chain. *)
Inductive error : Type :=
| ErrNotFound (s : string)
| errorString (s : string)
| otherError (text : string) (wrapsNotFound : bool).

(** The value of an [int] computed without bound. *)
Definition wrap64 (z : Z) : Z := (z + 2 ^ 63) mod 2 ^ 64 - 2 ^ 63.

Definition contentTypeJSON : string := "application/json".
Definition contentTypeProtobuf : string := "application/x-protobuf".
Definition contentTypePickle : string := "application/pickle".

Definition formatTypeEmpty : string := "".
Definition formatTypePickle : string := "pickle".
Definition formatTypeJSON : string := "json".
Definition formatTypeProtobuf : string := "protobuf".
Definition formatTypeProtobuf3 : string := "protobuf3".

Definition StatusOK : Z := 200.
Definition StatusNotFound : Z := 404.
Definition StatusInternalServerError : Z := 500.

(** What a handler sends: the status, the content type and the body. *)
Record Response : Type := {
  code : Z;
  contentType : string;
  body : string
}.

(** [http.Error(w, text, code)]: the text and a line feed, as plain text. *)
Definition http_Error (text : string) (code : Z) : Response :=
  {| code := code;
     contentType := "text/plain; charset=utf-8";
     body := text +:+ String "010" "" |}.

(** [w.Header().Set("Content-Type", contentType); w.Write(blob)] *)
Definition write_blob (contentType blob : string) : Response :=
  {| code := StatusOK; contentType := contentType; body := blob |}.

(** The entries [key:value] of a [map[string]int] as [%+v] prints them,
    in the order of the keys. *)
Definition fmt_entry (counts : gmap string Z) (k : string) : string :=
  k +:+ ":" +:+ pretty (default 0 (counts !! k)).

Fixpoint join (sep : string) (l : list string) : string :=
  match l with
  | [] => ""
  | [x] => x
  | x :: l => x +:+ sep +:+ join sep l
  end.

Definition sorted_keys (counts : gmap string Z) : list string :=
  merge_sort String.le (fst <$> map_to_list counts).

Definition fmt_map (counts : gmap string Z) : string :=
  "map[" +:+ join " " (fmt_entry counts <$> sorted_keys counts) +:+ "]".

Section WithTypes.

(** The method [Error] of [types.ErrNotFound], declared in pkg/types. *)
Variable ErrNotFound_Error : string -> string.

Definition Error (e : error) : string :=
  match e with
  | ErrNotFound s => ErrNotFound_Error s
  | errorString s => s
  | otherError text _ => text
  end.

(** [_, ok := e.(types.ErrNotFound)] *)
Definition isErrNotFound (e : error) : bool :=
  match e with ErrNotFound _ => true | _ => false end.

(** [errors.As(err, &notFound)] for [notFound] a [types.ErrNotFound]. *)
Definition As_ErrNotFound (e : error) : bool :=
  match e with
  | ErrNotFound _ => true
  | errorString _ => false
  | otherError _ wrapsNotFound => wrapsNotFound
  end.

(** The loop over [errs]: the counts of the error texts and the number
    of errors that are no [types.ErrNotFound]. *)
Fixpoint countErrors (errs : list error) (counts : gmap string Z)
         (nNotNotFounds : Z) : gmap string Z * Z :=
  match errs with
  | [] => (counts, nNotNotFounds)
  | e :: errs =>
    let counts :=
      <[Error e := wrap64 (default 0 (counts !! Error e) + 1)]> counts in
    let nNotNotFounds :=
      if negb (isErrNotFound e) then wrap64 (nNotNotFounds + 1)
      else nNotNotFounds in
    countErrors errs counts nNotNotFounds
  end.

Definition errorsFanIn (errs : list error) (nBackends : Z) : option error :=
  let nErrs := Z.of_nat (length errs) in
  if nErrs =? 0 then None
  else if nErrs <? nBackends then None
  else if nErrs >? nBackends then
    Some (errorString
      "got more errors than there are backends. Probably something is broken")
  else
    let '(counts, nNotNotFounds) := countErrors errs ∅ 0 in
    let nMajority := Z.quot (wrap64 (nBackends + 1)) 2 in
    if nNotNotFounds <? nMajority then
      Some (ErrNotFound
        ("majority of backends returned not found. " +:+ pretty nErrs
         +:+ " total errors, " +:+ pretty (wrap64 (nErrs - nNotNotFounds))
         +:+ " not found"))
    else
      let message :=
        "all backends failed with mixed errors: " +:+ fmt_map counts in
      let message :=
        if (300 <? String.length message)%nat then Go.take 300 message
        else message in
      Some (errorString message).

(** What the reconciled message is about: how often a text occurs
    among the errors, how many errors are a [types.ErrNotFound], and the
    texts that occur, each once, in the order of strings. *)
Definition occurrences (s : string) (errs : list error) : Z :=
  Z.of_nat (length (filter (fun e => Error e = s) errs)).

Definition notFounds (errs : list error) : Z :=
  Z.of_nat (length (filter (fun e => isErrNotFound e = true) errs)).

Definition texts (errs : list error) : list string :=
  merge_sort String.le (remove_dups (Error <$> errs)).

Definition truncate (n : nat) (s : string) : string :=
  if (n <? String.length s)%nat then Go.take n s else s.

(** *** The handlers, from the results of the backends on *)

(** The matches and the series the backends return, and the encoders of
    pkg/types/encoding, are outside this file. *)
Variable Matches : Type.
Variable sortByPath : Matches -> Matches.
Variable FindEncoder_v2 FindEncoder_json : Matches -> string + error.
Variable FindEncoderV0_9 FindEncoderV1_0 : Matches -> string + error.
Variable MetricData : Type.
Variable RenderEncoder_v2 RenderEncoder_json RenderEncoder_pickle
  : MetricData -> string + error.

(** The configuration flag [GraphiteWeb09Compatibility]. *)
Variable GraphiteWeb09Compatibility : bool.

(** [findHandler] once [backend.Finds] has returned [metrics] and [errs]
    for the [nBackends] backends asked. *)
Definition findEncode (format : string) (metrics : Matches) : Response :=
  let metrics := sortByPath metrics in
  let '(contentType, encoded) :=
    if String.eqb format formatTypeProtobuf
       || String.eqb format formatTypeProtobuf3
    then (contentTypeProtobuf, FindEncoder_v2 metrics)
    else if String.eqb format formatTypeJSON
    then (contentTypeJSON, FindEncoder_json metrics)
    else if String.eqb format formatTypeEmpty
            || String.eqb format formatTypePickle
    then (contentTypePickle,
          if GraphiteWeb09Compatibility then FindEncoderV0_9 metrics
          else FindEncoderV1_0 metrics)
    else ("", inr (errorString ("Unknown format " +:+ format))) in
  match encoded with
  | inr _ => http_Error "error marshaling data" StatusInternalServerError
  | inl blob => write_blob contentType blob
  end.

Definition findHandler (format : string) (metrics : Matches)
           (errs : list error) (nBackends : Z) : Response :=
  match errorsFanIn errs nBackends with
  | Some err =>
    if As_ErrNotFound err then findEncode format metrics
    else http_Error (Error err) StatusInternalServerError
  | None => findEncode format metrics
  end.

(** [renderHandler] once [backend.Renders] has returned. *)
Definition renderEncode (format : string) (metrics : MetricData) : Response :=
  let '(contentType, encoded) :=
    if String.eqb format formatTypeProtobuf
       || String.eqb format formatTypeProtobuf3
    then (contentTypeProtobuf, RenderEncoder_v2 metrics)
    else if String.eqb format formatTypeJSON
    then (contentTypeJSON, RenderEncoder_json metrics)
    else if String.eqb format formatTypeEmpty
            || String.eqb format formatTypePickle
    then (contentTypePickle, RenderEncoder_pickle metrics)
    else ("", inr (errorString ("Unknown format " +:+ format))) in
  match encoded with
  | inr _ => http_Error "error marshaling data" StatusInternalServerError
  | inl blob => write_blob contentType blob
  end.

Definition renderHandler (format : string) (metrics : MetricData)
           (errs : list error) (nBackends : Z) : Response :=
  match errorsFanIn errs nBackends with
  | Some err =>
    if As_ErrNotFound err then http_Error "not found" StatusNotFound
    else http_Error "error fetching the data" StatusInternalServerError
  | None => renderEncode format metrics
  end.

End WithTypes.

(** *** The checks on a request, the info handler and the choice of backends *)

Definition StatusBadRequest : Z := 400.

(** [strings.SplitN(target, ".", 2)[0]] *)
Fixpoint getTopLevelDomain (target : string) : string :=
  match target with
  | "" => ""
  | String c t =>
    if Ascii.eqb c "." then "" else String c (getTopLevelDomain t)
  end.

(** The checks of [renderHandler] before it asks the backends: the answer
    to a request it refuses, or the target and the bounds of the request
    it makes, [types.NewRenderRequest([]string{target}, int32(from),
    int32(until))]. [formError] says that [req.ParseForm()] failed. *)
Definition renderRequest (formError : bool) (target from until : string)
  : Response + (string * Z * Z) :=
  if formError then
    inl (http_Error "failed to parse arguments" StatusBadRequest)
  else
    match Go.ParseInt from with
    | inr _ => inl (http_Error "from is not a integer" StatusBadRequest)
    | inl from =>
      match Go.ParseInt until with
      | inr _ => inl (http_Error "until is not a integer" StatusBadRequest)
      | inl until =>
        if String.eqb target "" then
          inl (http_Error "empty target" StatusBadRequest)
        else inr (target, Parser.wrap32 from, Parser.wrap32 until)
      end
    end.

Section WithInfos.

Variable ErrNotFound_Error : string -> string.

(** The infos the backends return and their encoders are outside this
    file. *)
Variable Infos : Type.
Variable InfoEncoder_v2 InfoEncoder_json : Infos -> string + error.

(** [infoHandler]; [infos], [errs] and [nBackends] are what
    [backend.Infos] returns and [len(bs)]. *)
Definition infoHandler (formError : bool) (target format : string)
           (infos : Infos) (errs : list error) (nBackends : Z) : Response :=
  if formError then http_Error "failed to parse arguments" StatusBadRequest
  else if String.eqb target "" then
    http_Error "info: empty target" StatusBadRequest
  else
    match errorsFanIn ErrNotFound_Error errs nBackends with
    | Some err =>
      if As_ErrNotFound err then http_Error "info: not found" StatusNotFound
      else http_Error "info: error processing request"
                      StatusInternalServerError
    | None =>
      let '(contentType, encoded) :=
        if String.eqb format formatTypeProtobuf
           || String.eqb format formatTypeProtobuf3
        then (contentTypeProtobuf, InfoEncoder_v2 infos)
        else if String.eqb format formatTypeEmpty
                || String.eqb format formatTypeJSON
        then (contentTypeJSON, InfoEncoder_json infos)
        else ("", inr (errorString ("Unknown format " +:+ format))) in
      match encoded with
      | inr _ => http_Error "error marshaling data" StatusInternalServerError
      | inl blob => write_blob contentType blob
      end
    end.

End WithInfos.

Section WithBackends.

(** A [backend.Backend] and its method [GetServerAddress] are declared in
    pkg/backend. *)
Variable Backend : Type.
Variable GetServerAddress : Backend -> string.

(** What [app.topLevelDomainCache.Get("tlds")] gives: no value of the type
    [map[string][]*backend.Backend], or such a map, [None] being the nil
    map; a pointer to a backend is [None] when it is nil. *)
Inductive tldCache : Type :=
| NoTlds
| Tlds (m : option (gmap string (list (option Backend)))).

(** The inner loop of [filterByTopLevelDomain], over the backends of one
    top-level domain; [*backend] panics on a nil pointer. *)
Fixpoint addBackends (tldBackends : list (option Backend))
         (alreadyAddedBackends : gmap string bool)
         (allTLDBackends : list Backend)
  : outcome (gmap string bool * list Backend) :=
  match tldBackends with
  | [] => Ret (alreadyAddedBackends, allTLDBackends)
  | None :: _ => Panic
  | Some a :: l =>
    if negb (default false (alreadyAddedBackends !! GetServerAddress a)) then
      addBackends l (<[GetServerAddress a := true]> alreadyAddedBackends)
                  (allTLDBackends ++ [a])
    else addBackends l alreadyAddedBackends allTLDBackends
  end.

(** The outer loop, over the top-level domains of the targets. *)
Fixpoint addTargets (cache : gmap string (list (option Backend)))
         (targetTLDs : list string)
         (alreadyAddedBackends : gmap string bool)
         (allTLDBackends : list Backend)
  : outcome (gmap string bool * list Backend) :=
  match targetTLDs with
  | [] => Ret (alreadyAddedBackends, allTLDBackends)
  | target :: l =>
    '(already, all) ←
      addBackends (default [] (cache !! target))
                  alreadyAddedBackends allTLDBackends;
    addTargets cache l already all
  end.

Definition filterByTopLevelDomain (cache : tldCache)
           (backends : list Backend) (targetTLDs : list string)
  : outcome (list Backend) :=
  let tldCache :=
    match cache with
    | NoTlds => Some ∅
    | Tlds x => x
    end in
  match tldCache with
  | None => Ret backends
  | Some m =>
    '(_, allTLDBackends) ← addTargets m targetTLDs ∅ [];
    Ret allTLDBackends
  end.

(** [app.filterBackendByTopLevelDomain], [backends] being [app.backends]. *)
Definition filterBackendByTopLevelDomain (cache : tldCache)
           (backends : list Backend) (targets : list string)
  : outcome (list Backend) :=
  let targetTlds := map getTopLevelDomain targets in
  bs ← filterByTopLevelDomain cache backends targetTlds;
  if (0 <? length bs)%nat then Ret bs else Ret backends.

End WithBackends.

End Zipper.

(** ** expr/functions/fft *)

Module FFT.
Import Parser.

Section WithTypes.

(** [float64], [complex128], the fields of a [types.MetricData] that the
    function does not touch, and the errors of [helper.GetSeriesArg]. *)
Variables (F C Other E : Type).

Record MetricData : Type := {
  Name : string;
  Values : list F;
  IsAbsent : list bool;
  other : Other
}.

(** [helper.GetSeriesArg] with the context, the bounds and the values of
    the call, [realFFT.FFTReal], [cmplx.Abs], [cmplx.Phase] and the method
    [doGetStringArg] are declared outside the file. *)
Variable GetSeriesArg : expr -> list MetricData + E.
Variable FFTReal : list F -> list C.
Variable Abs Phase : C -> F.
Variable doGetStringArg : expr -> string * option ParseError.

Definition extractComponent (m : MetricData) (values : list C) (t : string)
           (f : C -> F) : MetricData :=
  let name := "fft(" +:+ Name m +:+ ",'" +:+ t +:+ "')" in
  {| Name := name;
     Values := map f values;
     IsAbsent := repeat false (length values);
     other := other m |}.

(** The body of the loop over the series: what is appended to the
    results for the series [a]. *)
Definition components (mode : string) (a : MetricData) : list MetricData :=
  let values := FFTReal (Values a) in
  if String.eqb mode "" || String.eqb mode "both" || String.eqb mode "all"
  then [extractComponent a values "abs" Abs;
        extractComponent a values "phase" Phase]
  else if String.eqb mode "abs" then [extractComponent a values "abs" Abs]
  else if String.eqb mode "phase"
  then [extractComponent a values "phase" Phase]
  else [].

(** [Do]; [e.Args()[0]] panics on a call without arguments. *)
Definition Do (e : expr) : outcome (list MetricData + E) :=
  match args e with
  | [] => Panic
  | a0 :: _ =>
    match GetSeriesArg a0 with
    | inr err => Ret (inr err)
    | inl arg =>
      let '(mode, _) := GetStringArg doGetStringArg e 1 in
      Ret (inl (flat_map (components mode) arg))
    end
  end.

End WithTypes.
End FFT.

(** * Strings *)

Section Strings.
Import Go.

Lemma str_app_cons c s t : String c s +:+ t = String c (s +:+ t).
Proof. reflexivity. Qed.

Lemma str_app_nil_l s : "" +:+ s = s.
Proof. reflexivity. Qed.

Lemma str_app_nil_r s : s +:+ "" = s.
Proof. induction s as [|c s IH]; [done|]. by rewrite str_app_cons, IH. Qed.

Lemma str_app_assoc s1 s2 s3 : (s1 +:+ s2) +:+ s3 = s1 +:+ (s2 +:+ s3).
Proof. induction s1 as [|c s1 IH]; [done|]. by rewrite !str_app_cons, IH. Qed.

Lemma str_length_app s1 s2 :
  String.length (s1 +:+ s2) = (String.length s1 + String.length s2)%nat.
Proof.
  induction s1 as [|c s1 IH]; [done|]. rewrite str_app_cons. simpl. by rewrite IH.
Qed.

Lemma str_drop_0 s : drop 0 s = s.
Proof. by destruct s. Qed.

Lemma str_take_0 s : take 0 s = "".
Proof. by destruct s. Qed.

Lemma str_length_drop n s : String.length (drop n s) = (String.length s - n)%nat.
Proof. revert s. induction n as [|n IH]; intros [|c s]; simpl; auto. Qed.

Lemma str_length_take_le n s :
  (n <= String.length s)%nat -> String.length (take n s) = n.
Proof.
  revert s. induction n as [|n IH]; intros [|c s]; simpl; try lia.
  intros H. rewrite IH; lia.
Qed.

Lemma str_take_drop n s : take n s +:+ drop n s = s.
Proof.
  revert s. induction n as [|n IH]; intros [|c s]; simpl; try done.
  by rewrite str_app_cons, IH.
Qed.

Lemma str_drop_drop n k s : drop n (drop k s) = drop (k + n) s.
Proof.
  revert s. induction k as [|k IH]; intros s; simpl.
  - done.
  - destruct s as [|c s]; simpl; [by destruct n|]. apply IH.
Qed.

Lemma str_drop_app_length s1 s2 : drop (String.length s1) (s1 +:+ s2) = s2.
Proof.
  induction s1 as [|c s1 IH]; [apply str_drop_0|]. by rewrite str_app_cons.
Qed.

Lemma str_take_app_length s1 s2 : take (String.length s1) (s1 +:+ s2) = s1.
Proof.
  induction s1 as [|c s1 IH]; [apply str_take_0|].
  rewrite str_app_cons. simpl. by rewrite IH.
Qed.

Lemma str_drop_all s : drop (String.length s) s = "".
Proof. induction s; simpl; auto. Qed.

Lemma str_take_all s : take (String.length s) s = s.
Proof. induction s as [|c s IH]; simpl; [done | by rewrite IH]. Qed.

Lemma str_get_drop i s c :
  String.get i s = Some c -> exists t, drop i s = String c t /\ (i < String.length s)%nat.
Proof.
  revert s. induction i as [|i IH]; intros [|c' s]; simpl; try done.
  - intros [= ->]. eexists. split; [done | lia].
  - intros H. destruct (IH _ H) as (t & -> & Hl). eexists. split; [done | lia].
Qed.

Lemma first_size s0 sz lo hi :
  first s0 = Some (sz, lo, hi) -> (2 <= sz <= 4)%nat.
Proof.
  unfold first.
  repeat match goal with |- context [if ?c then _ else _] => destruct c end;
    intros [= <- _ _]; lia.
Qed.

Lemma Decode_width s :
  s <> "" ->
  (1 <= (DecodeRuneInString s).2 <= String.length s)%nat.
Proof.
  intros Hs. unfold DecodeRuneInString.
  destruct s as [|c s]; [done|]. 
  destruct (String.length (String c s) <? 1)%nat eqn:E1.
  { simpl in E1. done. }
  cbn [String.length] in *.
  destruct (byte_at _ 0 <? 128); [simpl; lia|].
  destruct (first _) as [[[sz lo] hi]|] eqn:Ef; [|simpl; lia].
  apply first_size in Ef.
  destruct (S (String.length s) <? sz)%nat eqn:E2; [simpl; lia|].
  apply Nat.ltb_ge in E2.
  destruct (outside lo hi _); [simpl; lia|].
  destruct (sz <=? 2)%nat eqn:E3; [simpl; lia|].
  apply Nat.leb_gt in E3.
  destruct (outside _ _ _); [simpl; lia|].
  destruct (sz <=? 3)%nat eqn:E4; [simpl; lia|].
  apply Nat.leb_gt in E4.
  destruct (outside _ _ _); simpl; lia.
Qed.

End Strings.

(** * Properties of the zipper's error reconciliation *)

Section ZipperProps.
Import Zipper.

Context (ErrNotFound_Error : string -> string).

Local Abbreviation Error := (Zipper.Error ErrNotFound_Error).
Local Abbreviation errorsFanIn := (Zipper.errorsFanIn ErrNotFound_Error).
Local Abbreviation countErrors := (Zipper.countErrors ErrNotFound_Error).
Local Abbreviation occurrences := (Zipper.occurrences ErrNotFound_Error).
Local Abbreviation texts := (Zipper.texts ErrNotFound_Error).

Lemma wrap64_small z : - 2 ^ 63 <= z < 2 ^ 63 -> wrap64 z = z.
Proof.
  intros Hz. unfold wrap64. rewrite Z.mod_small; lia.
Qed.

Lemma str_length_take n s : (String.length (Go.take n s) <= n)%nat.
Proof.
  revert s. induction n as [|n IH]; intros [|c s]; simpl; try lia.
  specialize (IH s). lia.
Qed.

Lemma truncate_length n s : (String.length (truncate n s) <= n)%nat.
Proof.
  unfold truncate. destruct (n <? String.length s)%nat eqn:E.
  - apply str_length_take.
  - apply Nat.ltb_ge in E. lia.
Qed.

Lemma occurrences_cons s e errs :
  occurrences s (e :: errs) =
  (if decide (Error e = s) then 1 else 0) + occurrences s errs.
Proof.
  unfold Zipper.occurrences. rewrite filter_cons.
  destruct (decide (Error e = s)); simpl; lia.
Qed.

Lemma occurrences_nonneg s errs : 0 <= occurrences s errs.
Proof. unfold Zipper.occurrences. lia. Qed.

Lemma notFounds_cons e errs :
  notFounds (e :: errs) =
  (if isErrNotFound e then 1 else 0) + notFounds errs.
Proof.
  unfold notFounds. rewrite filter_cons.
  destruct (decide (isErrNotFound e = true)) as [->|Hne]; simpl; [lia|].
  destruct (isErrNotFound e); [done | lia].
Qed.

Lemma notFounds_bounds errs : 0 <= notFounds errs <= Z.of_nat (length errs).
Proof.
  unfold notFounds.
  pose proof (length_filter (fun e => isErrNotFound e = true) errs). lia.
Qed.

(** The loop of [errorsFanIn] counts every text and every error that is
    no [types.ErrNotFound], as long as the counters stay below [2^63]. *)
Lemma countErrors_spec errs : forall (counts : gmap string Z) nn c,
  (forall s, 0 <= default 0 (counts !! s) <= c) ->
  0 <= nn <= c ->
  c + Z.of_nat (length errs) < 2 ^ 63 ->
  exists counts' nn',
    countErrors errs counts nn = (counts', nn') /\
    (forall s, default 0 (counts' !! s)
               = default 0 (counts !! s) + occurrences s errs) /\
    (forall s, counts' !! s = None <->
               counts !! s = None /\ occurrences s errs = 0) /\
    nn' = nn + (Z.of_nat (length errs) - notFounds errs).
Proof.
  induction errs as [|e errs IH]; intros counts nn c Hc Hnn Hlen.
  - exists counts, nn. simpl. split; [done|].
    unfold Zipper.occurrences, notFounds. simpl.
    split; [intros; lia|]. split; [|lia]. intros s. tauto.
  - simpl.
    set (d := default 0 (counts !! Error e)).
    assert (Hd : 0 <= d <= c) by apply Hc.
    rewrite (wrap64_small (d + 1)) by (simpl in Hlen; lia).
    destruct (IH (<[Error e := d + 1]> counts)
                 (if negb (isErrNotFound e) then wrap64 (nn + 1) else nn)
                 (c + 1))
      as (counts' & nn' & Heq & Hcount & Hnone & Hnn').
    + intros s. destruct (decide (Error e = s)) as [<-|Hne].
      * rewrite lookup_insert_eq. simpl. lia.
      * rewrite lookup_insert_ne by done. specialize (Hc s). lia.
    + destruct (isErrNotFound e); simpl; [lia|].
      rewrite wrap64_small; simpl in Hlen; lia.
    + simpl in Hlen. lia.
    + exists counts', nn'. split; [exact Heq|].
      split; [|split].
      * intros s. rewrite Hcount, occurrences_cons.
        destruct (decide (Error e = s)) as [<-|Hne].
        -- rewrite lookup_insert_eq. simpl. fold d. lia.
        -- rewrite lookup_insert_ne by done. lia.
      * intros s. rewrite Hnone, occurrences_cons.
        pose proof (occurrences_nonneg s errs).
        destruct (decide (Error e = s)) as [<-|Hne].
        -- rewrite lookup_insert_eq. split; [intros [? _]; done | lia].
        -- rewrite lookup_insert_ne by done. split; intros [? ?]; split; auto; lia.
      * rewrite Hnn', notFounds_cons.
        destruct (isErrNotFound e); simpl.
        -- rewrite Nat2Z.inj_succ. lia.
        -- rewrite wrap64_small by (simpl in Hlen; lia).
           rewrite Nat2Z.inj_succ. lia.
Qed.

Lemma occurrences_zero s errs :
  occurrences s errs = 0 <-> s ∉ Error <$> errs.
Proof.
  induction errs as [|e errs IH].
  - split; [intros _; apply not_elem_of_nil | done].
  - rewrite occurrences_cons, fmap_cons, not_elem_of_cons.
    pose proof (occurrences_nonneg s errs).
    destruct (decide (Error e = s)) as [<-|Hne].
    + split; [lia | intros [? _]; done].
    + rewrite <- IH. split; [intros; split; [congruence | lia] | intros [_ ?]; lia].
Qed.

(** The keys of the counts, in order, are the texts of the errors. *)
Lemma sorted_keys_texts errs (counts : gmap string Z) :
  (forall s, counts !! s = None <-> occurrences s errs = 0) ->
  sorted_keys counts = texts errs.
Proof.
  intros Hnone. unfold sorted_keys, Zipper.texts.
  apply (Sorted_unique String.le).
  - apply Sorted_merge_sort, _.
  - apply Sorted_merge_sort, _.
  - rewrite !merge_sort_Permutation.
    apply NoDup_Permutation.
    + apply NoDup_fst_map_to_list.
    + apply NoDup_remove_dups.
    + intros s. rewrite elem_of_remove_dups.
      rewrite list_elem_of_fmap. split.
      * intros [[k v] [-> Hin]]. apply elem_of_map_to_list in Hin. simpl.
        destruct (decide (k ∈ Error <$> errs)) as [|Hn]; [done|].
        apply occurrences_zero, Hnone in Hn. congruence.
      * intros Hin. destruct (counts !! s) as [v|] eqn:Hs.
        -- exists (s, v). split; [done|]. by apply elem_of_map_to_list.
        -- apply Hnone, occurrences_zero in Hs. done.
Qed.

Lemma fmt_entries errs (counts : gmap string Z) (l : list string) :
  (forall s, default 0 (counts !! s) = occurrences s errs) ->
  fmt_entry counts <$> l =
  (fun s => s +:+ ":" +:+ pretty (occurrences s errs)) <$> l.
Proof.
  intros Hc. apply list_fmap_ext. intros _ s _.
  unfold fmt_entry. by rewrite Hc.
Qed.

(** C1: the classification of [errorsFanIn]. With [m] errors of [n]
    backends: success when [m = 0] or [m < n]; the internal error when
    [m > n]; and when all [n > 0] backends failed, with [k] of the errors
    a NotFound, a NotFound error when [n - k < (n + 1) / 2] and otherwise
    the one error of mixed failures, whose message lists every text that
    occurs with the number of its occurrences and is cut at 300 bytes. *)
Theorem C1_errorsFanIn_classification (errs : list error) (n : Z) :
  let m := Z.of_nat (length errs) in
  let k := notFounds errs in
  0 <= n -> m < 2 ^ 63 - 1 ->
  (m = 0 \/ m < n -> errorsFanIn errs n = None) /\
  (m > n ->
   errorsFanIn errs n = Some (errorString
     "got more errors than there are backends. Probably something is broken")) /\
  (m = n -> 0 < n ->
   (n - k < (n + 1) / 2 ->
    errorsFanIn errs n = Some (ErrNotFound
      ("majority of backends returned not found. " +:+ pretty m
       +:+ " total errors, " +:+ pretty k +:+ " not found"))) /\
   (~ n - k < (n + 1) / 2 ->
    exists message,
      errorsFanIn errs n = Some (errorString message) /\
      message = truncate 300
        ("all backends failed with mixed errors: map["
         +:+ join " " ((fun s => s +:+ ":" +:+ pretty (occurrences s errs))
                       <$> texts errs)
         +:+ "]") /\
      (String.length message <= 300)%nat)).
Proof.
  intros m k Hn Hm. unfold Zipper.errorsFanIn. fold m.
  split; [|split].
  - intros [H0|Hlt].
    + rewrite H0. done.
    + destruct (m =? 0); [done|].
      apply Z.ltb_lt in Hlt. by rewrite Hlt.
  - intros Hgt.
    destruct (m =? 0) eqn:E0; [apply Z.eqb_eq in E0; lia|].
    destruct (m <? n) eqn:E1; [apply Z.ltb_lt in E1; lia|].
    destruct (m >? n) eqn:E2; [done|].
    rewrite Z.gtb_ltb in E2. apply Z.ltb_ge in E2. lia.
  - intros Hmn Hpos.
    destruct (m =? 0) eqn:E0; [apply Z.eqb_eq in E0; lia|].
    destruct (m <? n) eqn:E1; [apply Z.ltb_lt in E1; lia|].
    destruct (m >? n) eqn:E2;
      [rewrite Z.gtb_ltb in E2; apply Z.ltb_lt in E2; lia|].
    destruct (countErrors_spec errs ∅ 0 0)
      as (counts & nn & Heq & Hcount & Hnone & Hnn).
    { intros s. rewrite lookup_empty. simpl. lia. }
    { lia. }
    { fold m. lia. }
    rewrite Heq. fold m in Hnn. fold k in Hnn.
    rewrite (wrap64_small (n + 1)) by lia.
    rewrite Z.quot_div_nonneg by lia.
    pose proof (notFounds_bounds errs) as Hk. fold m k in Hk.
    assert (Hnn' : nn = n - k) by lia.
    split.
    + intros Hlt. apply Z.ltb_lt in Hlt. rewrite Hnn', Hlt.
      rewrite wrap64_small by lia.
      do 3 f_equal. do 3 f_equal. f_equal. lia.
    + intros Hge. apply Z.ltb_nlt in Hge. rewrite Hnn', Hge.
      eexists. split; [reflexivity|]. split.
      * unfold truncate, fmt_map.
        rewrite (sorted_keys_texts errs).
        2:{ intros s. rewrite Hnone, lookup_empty. tauto. }
        rewrite (fmt_entries errs).
        2:{ intros s. rewrite Hcount, lookup_empty. simpl. lia. }
        reflexivity.
      * match goal with |- (String.length (if ?c then _ else _) <= _)%nat =>
          destruct c eqn:E end.
        -- apply str_length_take.
        -- apply Nat.ltb_ge in E. lia.
Qed.

(** The reconciler returns nothing but a [types.ErrNotFound] or an error
    of [errors.New]. *)
Lemma errorsFanIn_kind errs n err :
  errorsFanIn errs n = Some err ->
  (exists s, err = ErrNotFound s) \/ (exists s, err = errorString s).
Proof.
  unfold Zipper.errorsFanIn.
  destruct (_ =? 0); [done|]. destruct (_ <? n); [done|].
  destruct (_ >? n); [intros [= <-]; eauto|].
  destruct (countErrors errs ∅ 0) as [counts nn].
  destruct (nn <? _); intros [= <-]; eauto.
Qed.

(** C2, as the code has it: of three backends that all failed, two with
    NotFound and one with another error, the reconciled error is NotFound
    (the one other error is below the majority of two). *)
Theorem C2_two_of_three_not_found (a b : string) (t : error) :
  isErrNotFound t = false ->
  errorsFanIn [ErrNotFound a; ErrNotFound b; t] 3 =
  Some (ErrNotFound
    "majority of backends returned not found. 3 total errors, 2 not found").
Proof.
  intros Ht. unfold Zipper.errorsFanIn. simpl. rewrite Ht. reflexivity.
Qed.

Context (Matches : Type) (sortByPath : Matches -> Matches)
        (FindEncoder_v2 FindEncoder_json : Matches -> string + error)
        (FindEncoderV0_9 FindEncoderV1_0 : Matches -> string + error)
        (MetricData : Type)
        (RenderEncoder_v2 RenderEncoder_json RenderEncoder_pickle
           : MetricData -> string + error)
        (GraphiteWeb09Compatibility : bool).

Local Abbreviation findEncode :=
  (Zipper.findEncode Matches sortByPath FindEncoder_v2 FindEncoder_json
     FindEncoderV0_9 FindEncoderV1_0 GraphiteWeb09Compatibility).
Local Abbreviation findHandler :=
  (Zipper.findHandler ErrNotFound_Error Matches sortByPath FindEncoder_v2
     FindEncoder_json FindEncoderV0_9 FindEncoderV1_0
     GraphiteWeb09Compatibility).
Local Abbreviation renderHandler :=
  (Zipper.renderHandler ErrNotFound_Error MetricData RenderEncoder_v2
     RenderEncoder_json RenderEncoder_pickle).
Local Abbreviation renderEncode :=
  (Zipper.renderEncode MetricData RenderEncoder_v2 RenderEncoder_json
     RenderEncoder_pickle).

(** What the encoding step of a handler sends for the result of the
    encoder it has chosen: the blob under its content type, or the error
    of marshaling. *)
Local Abbreviation answer contentType encoded :=
  (match encoded with
   | inl blob => write_blob contentType blob
   | inr _ => http_Error "error marshaling data" StatusInternalServerError
   end).

(** The switch on the format, for the results [v2], [json] and [pickle] of
    the three encoders a handler has: which of them the answer [resp] is
    made of. *)
Local Abbreviation encodes format resp v2 json pickle :=
  (((format = "protobuf" \/ format = "protobuf3") ->
    resp = answer contentTypeProtobuf v2) /\
   (format = "json" -> resp = answer contentTypeJSON json) /\
   ((format = "" \/ format = "pickle") ->
    resp = answer contentTypePickle pickle) /\
   (format <> "protobuf" -> format <> "protobuf3" -> format <> "json" ->
    format <> "" -> format <> "pickle" ->
    resp = http_Error "error marshaling data" StatusInternalServerError)).

Lemma format_switch (format : string) (v2 json pickle : string + error) :
  encodes format
    (let '(contentType, encoded) :=
       if String.eqb format formatTypeProtobuf
          || String.eqb format formatTypeProtobuf3
       then (contentTypeProtobuf, v2)
       else if String.eqb format formatTypeJSON
       then (contentTypeJSON, json)
       else if String.eqb format formatTypeEmpty
               || String.eqb format formatTypePickle
       then (contentTypePickle, pickle)
       else ("", inr (errorString ("Unknown format " +:+ format))) in
     answer contentType encoded)
    v2 json pickle.
Proof.
  unfold formatTypeProtobuf, formatTypeProtobuf3, formatTypeEmpty,
    formatTypeJSON, formatTypePickle.
  destruct (String.eqb_spec format "protobuf") as [->|H1]; cbn [orb].
  { repeat split; try done. by intros [?|?]. }
  destruct (String.eqb_spec format "protobuf3") as [->|H2]; cbn [orb].
  { repeat split; try done. by intros [?|?]. }
  destruct (String.eqb_spec format "json") as [->|H3].
  { repeat split; try done; by intros [?|?]. }
  destruct (String.eqb_spec format "") as [->|H4]; cbn [orb].
  { repeat split; try done; by intros [?|?]. }
  destruct (String.eqb_spec format "pickle") as [->|H5].
  { repeat split; try done; by intros [?|?]. }
  repeat split; try done; by intros [?|?].
Qed.

(** The encoding step of the find handler: the matches are sorted by path
    and encoded by the encoder of the format, pickle being that of
    Graphite 0.9 or 1.0 as the configuration says. *)
Lemma findEncode_cases format matches :
  encodes format (findEncode format matches)
    (FindEncoder_v2 (sortByPath matches))
    (FindEncoder_json (sortByPath matches))
    (if GraphiteWeb09Compatibility then FindEncoderV0_9 (sortByPath matches)
     else FindEncoderV1_0 (sortByPath matches)).
Proof. apply format_switch. Qed.


(** C8, as the code has it: on a reconciled NotFound the find handler
    reports no error and goes on to encode the matches as on success: it
    answers 200 with the matches, sorted by path and encoded by the encoder
    of the format, when the format is protobuf, protobuf3, json, pickle or
    empty (pickle) and that encoder succeeds, and 500 with the text error
    marshaling data when the encoder fails or the format is another one;
    the render handler answers 404; on every other reconciled error both
    answer 500. *)
Theorem C8_http_mapping format matches series errs n err :
  errorsFanIn errs n = Some err ->
  match err with
  | ErrNotFound _ =>
    encodes format (findHandler format matches errs n)
      (FindEncoder_v2 (sortByPath matches))
      (FindEncoder_json (sortByPath matches))
      (if GraphiteWeb09Compatibility then FindEncoderV0_9 (sortByPath matches)
       else FindEncoderV1_0 (sortByPath matches)) /\
    renderHandler format series errs n = http_Error "not found" StatusNotFound
  | _ =>
    findHandler format matches errs n =
      http_Error (Error err) StatusInternalServerError /\
    renderHandler format series errs n =
      http_Error "error fetching the data" StatusInternalServerError
  end.
Proof.
  intros Herr.
  assert (Hfind : forall s, err = ErrNotFound s ->
            findHandler format matches errs n = findEncode format matches).
  { intros s ->. unfold Zipper.findHandler. by rewrite Herr. }
  unfold Zipper.renderHandler.
  destruct (errorsFanIn_kind _ _ _ Herr) as [[s ->]|[s ->]].
  - rewrite (Hfind s eq_refl), Herr. split; [apply findEncode_cases | done].
  - unfold Zipper.findHandler. by rewrite Herr.
Qed.


End ZipperProps.

Lemma C1_witness :
  Zipper.errorsFanIn id [Zipper.ErrNotFound "x"; Zipper.errorString "timeout"] 2
  = Some (Zipper.errorString
            "all backends failed with mixed errors: map[timeout:1 x:1]").
Proof.
  destruct (C1_errorsFanIn_classification id
              [Zipper.ErrNotFound "x"; Zipper.errorString "timeout"] 2)
    as (_ & _ & H); [lia | simpl; lia |].
  destruct H as [_ H]; [reflexivity | lia |].
  destruct H as (message & -> & -> & _).
  - vm_compute. intros H. discriminate H.
  - vm_compute. reflexivity.
Defined.

(** C2 as stated fails: on [NotFound, NotFound, timeout] from three backends
    the reconciler returns no error of mixed failures, whatever text the
    NotFound errors have. *)
Lemma C2_counterexample :
  ~ (exists (f : string -> string) (message : string),
       Zipper.errorsFanIn f
         [Zipper.ErrNotFound "not found"; Zipper.ErrNotFound "not found";
          Zipper.otherError "timeout" false] 3
       = Some (Zipper.errorString message)).
Proof.
  intros (f & message & H). unfold Zipper.errorsFanIn in H. simpl in H.
  discriminate H.
Qed.

Lemma C2_witness :
  Zipper.errorsFanIn id
    [Zipper.ErrNotFound "not found"; Zipper.ErrNotFound "not found";
     Zipper.otherError "timeout" false] 3
  = Some (Zipper.ErrNotFound
      "majority of backends returned not found. 3 total errors, 2 not found").
Proof.
  apply (C2_two_of_three_not_found id "not found" "not found"
           (Zipper.otherError "timeout" false)).
  reflexivity.
Defined.

(** C8 as stated fails: with a format that no encoder serves, the find
    handler answers a reconciled NotFound with 500, whatever the encoders. *)
Lemma C8_counterexample :
  ~ (exists (f : string -> string)
            (enc1 enc2 enc3 enc4 : unit -> string + Zipper.error)
            (compat : bool),
       Zipper.code
         (Zipper.findHandler f unit id enc1 enc2 enc3 enc4 compat
            "xml" tt [Zipper.ErrNotFound "not found"] 1)
       = Zipper.StatusOK).
Proof.
  intros (f & enc1 & enc2 & enc3 & enc4 & compat & H).
  vm_compute in H. discriminate H.
Qed.

Lemma C8_witness :
  Zipper.findHandler id unit id (fun _ => inl "v2") (fun _ => inl "[]")
    (fun _ => inl "p0") (fun _ => inl "p1") false
    "json" tt [Zipper.ErrNotFound "not found"] 1
  = Zipper.write_blob Zipper.contentTypeJSON "[]" /\
  Zipper.renderHandler id unit (fun _ => inl "v2") (fun _ => inl "[]")
    (fun _ => inl "p") "json" tt [Zipper.ErrNotFound "not found"] 1
  = Zipper.http_Error "not found" Zipper.StatusNotFound.
Proof.
  pose proof (C8_http_mapping id unit id (fun _ => inl "v2") (fun _ => inl "[]")
    (fun _ => inl "p0") (fun _ => inl "p1") unit (fun _ => inl "v2")
    (fun _ => inl "[]") (fun _ => inl "p") false "json" tt tt
    [Zipper.ErrNotFound "not found"] 1
    (Zipper.ErrNotFound
       "majority of backends returned not found. 1 total errors, 1 not found")
    eq_refl) as H.
  destruct H as ((_ & H1 & _) & H2). split; [exact (H1 eq_refl) | exact H2].
Defined.

(** C9 as stated fails: with no backend and no error, the find handler
    still reports a failure, with 500, when the format is one that no
    encoder serves, whatever the encoders. *)
Lemma C9_counterexample :
  ~ (exists (f : string -> string)
            (enc1 enc2 enc3 enc4 : unit -> string + Zipper.error)
            (compat : bool),
       Zipper.code
         (Zipper.findHandler f unit id enc1 enc2 enc3 enc4 compat
            "xml" tt [] 0)
       <> Zipper.StatusInternalServerError).
Proof.
  intros (f & enc1 & enc2 & enc3 & enc4 & compat & H).
  apply H. vm_compute. reflexivity.
Qed.


(** * Properties of the lexer of metric names *)

Section NameProps.
Import Go Parser.

Context (RangeTables : list RangeTable).

Local Abbreviation parseName_step := (Parser.parseName_step RangeTables).
Local Abbreviation parseName_loop := (Parser.parseName_loop RangeTables).
Local Abbreviation parseName := (Parser.parseName RangeTables).
Local Abbreviation scanned := (Parser.scanned RangeTables).

Lemma parseName_step_width rest braces brackets w braces' brackets' :
  parseName_step rest braces brackets = NameNext w braces' brackets' ->
  (1 <= w <= String.length rest)%nat.
Proof.
  unfold Parser.parseName_step. destruct rest as [|c t]; [done|].
  pose proof (Decode_width (String c t) ltac:(done)) as Hw.
  destruct (DecodeRuneInString (String c t)) as [r w'].
  cbn [String.length] in *. simpl in Hw.
  repeat match goal with |- context [if ?c then _ else _] => destruct c end;
    intros [= <- _ _]; lia.
Qed.

Lemma parseName_loop_skip k : forall rest i braces brackets,
  (k <= String.length rest)%nat ->
  parseName_loop rest i k braces brackets =
  parseName_loop (drop k rest) (i + k) 0 braces brackets.
Proof.
  induction k as [|k IH]; intros rest i braces brackets Hk.
  - by rewrite str_drop_0, Nat.add_0_r.
  - destruct rest as [|c t]; simpl in Hk; [lia|].
    simpl. rewrite IH by lia. f_equal. lia.
Qed.

Lemma parseName_loop_next c t i braces brackets w braces' brackets' :
  parseName_step (String c t) braces brackets = NameNext w braces' brackets' ->
  parseName_loop (String c t) i 0 braces brackets =
  parseName_loop (drop w (String c t)) (i + w) 0 braces' brackets'.
Proof.
  intros Hstep. pose proof (parseName_step_width _ _ _ _ _ _ Hstep) as Hw.
  cbn [Parser.parseName_loop]. rewrite Hstep.
  cbn [String.length] in Hw.
  rewrite parseName_loop_skip by lia.
  destruct w as [|w]; [lia|]. simpl. f_equal. lia.
Qed.

Lemma scanned_loop s i braces brackets :
  scanned s i braces brackets ->
  (i <= String.length s)%nat /\
  parseName_loop s 0 0 0 0 = parseName_loop (drop i s) i 0 braces brackets.
Proof.
  induction 1 as [|i braces brackets w braces' brackets' Hsc [Hi IH] Hlt Hstep].
  - split; [lia|]. by rewrite str_drop_0.
  - pose proof (parseName_step_width _ _ _ _ _ _ Hstep) as Hw.
    rewrite str_length_drop in Hw. split; [lia|].
    rewrite IH.
    destruct (drop i s) as [|c t] eqn:Hd.
    { apply (f_equal String.length) in Hd. rewrite str_length_drop in Hd. simpl in Hd. lia. }
    rewrite (parseName_loop_next _ _ _ _ _ _ _ _ Hstep).
    by rewrite <- Hd, str_drop_drop.
Qed.

Lemma scanned_counters s i braces brackets :
  scanned s i braces brackets -> 0 <= braces /\ 0 <= brackets <= 1.
Proof.
  induction 1 as [|i braces brackets w braces' brackets' Hsc IH Hlt Hstep]; [lia|].
  revert Hstep. unfold Parser.parseName_step.
  destruct (drop i s) as [|c t]; [done|].
  destruct (DecodeRuneInString (String c t)) as [r w'].
  repeat match goal with |- context [if ?c then _ else _] => destruct c eqn:? end;
    intros [= <- <- <-]; lia.
Qed.

Lemma parseName_scanned s i braces brackets :
  scanned s i braces brackets ->
  parseName s =
  match parseName_loop (drop i s) i 0 braces brackets with
  | inr err => (s, "", Some err)
  | inl (i, braces, brackets) =>
    if braces >? 0 then (s, "", Some ErrMissingBrace)
    else if brackets >? 0 then (s, "", Some ErrMissingBracket)
    else if (i =? String.length s)%nat then (s, "", None)
    else (take i s, drop i s, None)
  end.
Proof.
  intros Hsc. unfold Parser.parseName.
  by rewrite (proj2 (scanned_loop _ _ _ _ Hsc)).
Qed.

Lemma step_blank c t braces brackets :
  is_blank (byte c) = true ->
  parseName_step (String c t) braces brackets =
  if braces >? 0 then NameErr ErrSpacesInBraces
  else if brackets >? 0 then NameErr ErrSpacesInBrackets
  else NameStop.
Proof.
  unfold Parser.parseName_step. intros H. rewrite H. unfold is_blank in H.
  apply orb_true_iff in H as [H|H]; [apply orb_true_iff in H as [H|H]|];
    apply Z.eqb_eq in H; rewrite H; done.
Qed.

Lemma step_comma c t braces brackets :
  byte c = byte "," ->
  parseName_step (String c t) braces brackets =
  if brackets >? 0 then NameErr ErrCommaInBrackets
  else if braces =? 0 then NameStop
  else NameNext 1 braces brackets.
Proof. unfold Parser.parseName_step. by intros ->. Qed.

Lemma step_brace c t braces brackets :
  byte c = byte "{" \/ byte c = byte "}" ->
  brackets > 0 ->
  parseName_step (String c t) braces brackets = NameErr ErrBraceInBrackets.
Proof.
  unfold Parser.parseName_step. intros [-> | ->] Hk; simpl;
    (destruct (Z.ltb_spec 0 brackets); [by rewrite Z.gtb_ltb; 
      destruct (Z.ltb_spec 0 brackets); [|lia] | lia]).
Qed.

Lemma step_bracket c t braces brackets :
  byte c = byte "[" ->
  parseName_step (String c t) braces brackets =
  if brackets >? 0 then NameErr ErrNestedBrackets
  else NameNext 1 braces (brackets + 1).
Proof. unfold Parser.parseName_step. by intros ->. Qed.

Ltac gtb_case x :=
  rewrite (Z.gtb_ltb x 0); destruct (Z.ltb_spec 0 x); try lia.

Theorem C6_name_lexing_errors s i braces brackets :
  scanned s i braces brackets ->
  (forall c, String.get i s = Some c ->
     let b := byte c in
     (is_blank b = true -> braces > 0 ->
      parseName s = (s, "", Some ErrSpacesInBraces)) /\
     (is_blank b = true -> braces = 0 -> brackets > 0 ->
      parseName s = (s, "", Some ErrSpacesInBrackets)) /\
     (b = byte "," -> brackets > 0 ->
      parseName s = (s, "", Some ErrCommaInBrackets)) /\
     (b = byte "{" \/ b = byte "}" -> brackets > 0 ->
      parseName s = (s, "", Some ErrBraceInBrackets)) /\
     (b = byte "[" -> brackets > 0 ->
      parseName s = (s, "", Some ErrNestedBrackets)) /\
     (b = byte "[" -> brackets = 0 ->
      scanned s (i + 1) braces 1) /\
     (b = byte "," \/ is_blank b = true -> braces = 0 -> brackets = 0 ->
      parseName s = (take i s, drop i s, None))) /\
  (i = String.length s \/ parseName_step (drop i s) braces brackets = NameStop ->
   (braces > 0 -> parseName s = (s, "", Some ErrMissingBrace)) /\
   (braces = 0 -> brackets > 0 ->
    parseName s = (s, "", Some ErrMissingBracket))).
Proof.
  intros Hsc. rewrite (parseName_scanned _ _ _ _ Hsc).
  split.
  - intros c Hget b. destruct (str_get_drop _ _ _ Hget) as (t & Hd & Hlt).
    rewrite Hd. cbn [Parser.parseName_loop]. subst b.
    repeat split.
    + intros Hb Hbr. rewrite step_blank by done. by gtb_case braces.
    + intros Hb Hbr Hk. rewrite step_blank by done.
      gtb_case braces. by gtb_case brackets.
    + intros Hb Hk. rewrite step_comma by done. by gtb_case brackets.
    + intros Hb Hk. by rewrite step_brace.
    + intros Hb Hk. rewrite step_bracket by done. by gtb_case brackets.
    + intros Hb ->.
      apply (scanned_next _ s i braces 0 1 braces (0 + 1) Hsc Hlt).
      rewrite Hd. by rewrite step_bracket.
    + intros Hb Hbr Hk.
      assert (Hstop : parseName_step (String c t) braces brackets = NameStop).
      { destruct Hb as [Hb|Hb]; [rewrite step_comma by done | rewrite step_blank by done];
          subst braces brackets; done. }
      rewrite Hstop. gtb_case braces. gtb_case brackets.
      destruct (Nat.eqb_spec i (String.length s)); [lia | by rewrite Hd].
  - intros Hstop.
    assert (Hl : parseName_loop (drop i s) i 0 braces brackets
                 = inl (i, braces, brackets)).
    { destruct Hstop as [->|Hstop].
      - by rewrite str_drop_all.
      - destruct (drop i s) as [|c t]; [done|].
        cbn [Parser.parseName_loop]. by rewrite Hstop. }
    rewrite Hl. split.
    + intros Hb. by gtb_case braces.
    + intros Hbr Hk. gtb_case braces. by gtb_case brackets.
Qed.
End NameProps.

(** C6 as stated fails: a bracket inside braces is not rejected. *)
Lemma C6_counterexample :
  Parser.parseName [] "{[a]}" = ("{[a]}", "", None).
Proof. reflexivity. Qed.

Lemma C6_witness :
  Parser.parseName [] "a{b c}" = ("a{b c}", "", Some Parser.ErrSpacesInBraces).
Proof.
  assert (Hsc : Parser.scanned [] "a{b c}" 3 1 0).
  { apply (Parser.scanned_next [] _ 2 1 0 1 1 0).
    - apply (Parser.scanned_next [] _ 1 0 0 1 1 0).
      + apply (Parser.scanned_next [] _ 0 0 0 1 0 0).
        * apply Parser.scanned_start.
        * simpl. lia.
        * reflexivity.
      + simpl. lia.
      + reflexivity.
    - simpl. lia.
    - reflexivity. }
  destruct (C6_name_lexing_errors [] "a{b c}" 3 1 0 Hsc) as [H _].
  destruct (H " "%char eq_refl) as (H1 & _).
  apply H1; [reflexivity | lia].
Defined.

(** * Properties of the metric-request extractor *)

Section MetricsProps.
Import Go Parser.

Context (IntervalString : string -> Z -> Z + ParseError)
        (doGetIntArg : expr -> Z + ParseError).

Local Abbreviation Metrics := (Parser.Metrics IntervalString doGetIntArg).
Local Abbreviation adjust := (Parser.adjust IntervalString doGetIntArg).
Local Abbreviation GetIntervalArg := (Parser.GetIntervalArg IntervalString).

(** The requests of a function node: those of its arguments, adjusted. *)
Lemma Metrics_func e :
  etype e = EtFunc ->
  Metrics e = (r ← collect Metrics (args e); adjust e r).
Proof.
  destruct e as [tg ty v vs ar na ast]. simpl. intros ->. 
  f_equal. induction ar as [|a ar IH]; [done|].
  simpl. by rewrite IH.
Qed.

(** C5: a name yields exactly the request of its target with zero bounds, a
    constant or a string yields none, and [timeShift] with a duration as its
    second argument adds the offset, parsed with default sign -1, to the
    [From] and the [Until] of every request of its arguments. *)
Theorem C5_metric_requests (e : expr) :
  (etype e = EtName ->
   Metrics e = Ret [{| Metric := target e; From := 0; Until := 0 |}]) /\
  (etype e = EtConst \/ etype e = EtString -> Metrics e = Ret []) /\
  (forall a offs,
     etype e = EtFunc -> target e = "timeShift" ->
     args e !! 1%nat = Some a -> etype a = EtString ->
     IntervalString (valStr a) (-1) = inl offs ->
     Metrics e =
     (r ← collect Metrics (args e);
      Ret (map (fun q => {| Metric := Metric q;
                            From := wrap32 (From q + offs);
                            Until := wrap32 (Until q + offs) |}) r))).
Proof.
  split; [|split].
  - destruct e; simpl. by intros ->.
  - destruct e; simpl. by intros [-> | ->].
  - intros a offs Hty Htg Ha Hsty Hoffs. rewrite Metrics_func by done.
    f_equal. unfold Parser.adjust, Parser.GetIntervalArg.
    rewrite Htg, Ha, Hsty, Hoffs. simpl.
    apply lookup_lt_Some in Ha.
    destruct (Nat.leb_spec (length (args e)) 1); [lia|]. done.
Qed.
End MetricsProps.

Lemma C5_witness :
  let series := {| Parser.target := "metric"; Parser.etype := Parser.EtName;
                   Parser.val := Parser.zero_val; Parser.valStr := "";
                   Parser.args := []; Parser.namedArgs := ∅;
                   Parser.argString := "" |} in
  let offset := {| Parser.target := ""; Parser.etype := Parser.EtString;
                   Parser.val := Parser.zero_val; Parser.valStr := "1h";
                   Parser.args := []; Parser.namedArgs := ∅;
                   Parser.argString := "" |} in
  Parser.Metrics (fun _ _ => inl (-3600)) (fun _ => inr Parser.ErrBadType)
    {| Parser.target := "timeShift"; Parser.etype := Parser.EtFunc;
       Parser.val := Parser.zero_val; Parser.valStr := "";
       Parser.args := [series; offset]; Parser.namedArgs := ∅;
       Parser.argString := "metric,'1h'" |}
  = Ret [{| Parser.Metric := "metric"; Parser.From := -3600;
            Parser.Until := -3600 |}].
Proof.
  intros series offset.
  destruct (C5_metric_requests (fun _ _ => inl (-3600))
              (fun _ => inr Parser.ErrBadType)
              {| Parser.target := "timeShift"; Parser.etype := Parser.EtFunc;
                 Parser.val := Parser.zero_val; Parser.valStr := "";
                 Parser.args := [series; offset]; Parser.namedArgs := ∅;
                 Parser.argString := "metric,'1h'" |}) as (_ & _ & H).
  rewrite (H offset (-3600) eq_refl eq_refl eq_refl eq_refl eq_refl).
  reflexivity.
Defined.

(** * Properties of the parser *)

Section ParserProps.
Import Go Parser.

Context (Letter : RangeTable) (FormatFloat : float64 -> string)
        (RangeTables : list RangeTable).

Local Abbreviation parseName := (Parser.parseName RangeTables).
Local Abbreviation parseName_loop := (Parser.parseName_loop RangeTables).
Local Abbreviation parseExprWithoutPipe_ :=
  (Parser.parseExprWithoutPipe_ Letter RangeTables).
Local Abbreviation pipe_ := (Parser.pipe_ FormatFloat).
Local Abbreviation parseArgList_loop := (Parser.parseArgList_loop FormatFloat).
Local Abbreviation parseArgList_ := (Parser.parseArgList_ FormatFloat).
Local Abbreviation ParseExpr_fuel :=
  (Parser.ParseExpr_fuel Letter FormatFloat RangeTables).
Local Abbreviation ParseExpr := (Parser.ParseExpr Letter FormatFloat RangeTables).
Local Abbreviation parseArgList :=
  (Parser.parseArgList Letter FormatFloat RangeTables).
Local Abbreviation parseExprWithoutPipe :=
  (Parser.parseExprWithoutPipe Letter FormatFloat RangeTables).
Local Abbreviation pipe := (Parser.pipe Letter FormatFloat RangeTables).
Local Abbreviation parseArgList_args :=
  (Parser.parseArgList_args Letter FormatFloat RangeTables).
Local Abbreviation insertFirstArg := (Parser.insertFirstArg FormatFloat).
Local Abbreviation ToString := (Parser.ToString FormatFloat).

Local Abbreviation len := String.length.

Ltac case_if :=
  match goal with
  | |- context [if ?c then _ else _] => destruct c eqn:?
  end.

Lemma skipSpace_length e : (len (skipSpace e) <= len e)%nat.
Proof.
  induction e as [|c e IH]; simpl; [lia|].
  destruct e as [|c' e']; [simpl; lia|].
  destruct (IsSpace (byte c)); [|simpl; lia].
  simpl in *. lia.
Qed.

Lemma TrimLeft_go_length k s : (len (TrimLeft_go k s) <= len s)%nat.
Proof.
  revert k. induction s as [|c s IH]; intros k.
  - destruct k; simpl; try lia; case_if; simpl; lia.
  - destruct k as [|k]; cbn [TrimLeft_go].
    + case_if; [|lia]. specialize (IH (Nat.pred (DecodeRuneInString (String c s)).2)).
      simpl. lia.
    + specialize (IH k). simpl. lia.
Qed.

Lemma TrimLeftSpace_length s : (len (TrimLeftSpace s) <= len s)%nat.
Proof. apply TrimLeft_go_length. Qed.

Lemma constRun_bounds s i :
  (i <= constRun s i <= i + len s)%nat.
Proof.
  revert i. induction s as [|c s IH]; intros i; simpl; [lia|].
  case_if; [|lia]. specialize (IH (S i)). lia.
Qed.

Lemma constRun_start c s :
  isConstStart (byte c) = true -> (1 <= constRun (String c s) 0)%nat.
Proof.
  intros H. simpl.
  assert (isDigit (byte c) || (byte c =? byte ".") || (byte c =? byte "+")
          || (byte c =? byte "-") || (byte c =? byte "e") || (byte c =? byte "E") = true) as ->.
  { unfold isConstStart, isDigit in *.
    apply orb_true_iff in H as [H|H]; [apply orb_true_iff in H as [H|H]|];
      rewrite H; rewrite ?orb_true_r; done. }
  pose proof (constRun_bounds s 1). lia.
Qed.

Lemma parseConst_length s v tail err :
  parseConst s = (v, tail, err) ->
  (len tail <= len s)%nat /\
  (forall c t, s = String c t -> isConstStart (byte c) = true ->
               err = None -> (len tail < len s)%nat).
Proof.
  unfold parseConst. destruct (ParseFloat _).
  - intros [= <- <- <-]. rewrite str_length_drop. split; [lia|].
    intros c t -> Hc _. pose proof (constRun_start c t Hc).
    simpl in *. lia.
  - intros [= <- <- <-]. simpl. split; [lia|]. done.
Qed.

Lemma quoteIndex_bounds m s i :
  (i <= quoteIndex m s i <= i + len s)%nat.
Proof.
  revert i. induction s as [|c s IH]; intros i; simpl; [lia|].
  destruct (Ascii.eqb c m); [lia|]. specialize (IH (S i)). lia.
Qed.

Lemma parseString_length c t :
  isQuote (byte c) = true ->
  exists v tail err,
    parseString (String c t) = Ret (v, tail, err) /\
    (len tail < len (String c t))%nat.
Proof.
  intros Hq. unfold parseString. rewrite Hq. simpl.
  case_if; [do 3 eexists; split; [done|]; simpl; lia|].
  do 3 eexists. split; [done|]. 
  pose proof (str_length_drop (S (quoteIndex c t 0)) t). simpl in *. lia.
Qed.

Lemma parseName_result s name rest err :
  parseName s = (name, rest, err) ->
  match err with
  | Some _ => rest = ""
  | None => name +:+ rest = s
  end.
Proof.
  unfold Parser.parseName.
  destruct (parseName_loop s 0 0 0 0) as [[[i b] k]|e];
    [|by intros H; inversion H].
  repeat match goal with |- context [if ?c then _ else _] => destruct c end;
    intros H; inversion H; subst; try done.
  - apply str_app_nil_r.
  - apply str_take_drop.
Qed.

Lemma str_app_eq_nil s t : s +:+ t = "" -> s = "" /\ t = "".
Proof. destruct s; [done|]. rewrite str_app_cons. done. Qed.


Lemma ToLower_empty name :
  String.eqb (ToLower name) "false" || String.eqb (ToLower name) "true" = true ->
  name <> "".
Proof. by intros H ->. Qed.

Lemma pewp_congr PAL1 PAL2 e :
  (forall x, (len x < len e)%nat -> starts_with (byte "(") x = true ->
             PAL1 x = PAL2 x /\ progressA x (PAL1 x)) ->
  parseExprWithoutPipe_ PAL1 e = parseExprWithoutPipe_ PAL2 e /\
  progress e (parseExprWithoutPipe_ PAL1 e).
Proof.
  intros HPAL. unfold Parser.parseExprWithoutPipe_.
  pose proof (skipSpace_length e) as Hskip.
  destruct (skipSpace e) as [|c t] eqn:He'.
  { split; [done|]. do 3 eexists. split; [done|]. simpl. split; [lia|done]. }
  match goal with
  | |- context [match ?X with Some r => Ret r | None => _ end] => set (C := X)
  end.
  assert (Hconst : (exists res, C = Some res /\ progress e (Ret res)) \/ C = None).
  { subst C. destruct (isConstStart (byte c)) eqn:Hs; [|by right].
    destruct (parseConst (String c t)) as [[v tail] err] eqn:Hconst.
    destruct (DecodeRuneInString tail) as [r w].
    destruct (parseConst_length _ _ _ _ Hconst) as [Hc1 Hc2].
    destruct (negb (IsLetter Letter r)); [|by right].
    left. eexists. split; [done|]. do 3 eexists. split; [done|]. split; [lia|].
    intros ->. split; [done|]. specialize (Hc2 c t eq_refl Hs eq_refl). lia. }
  clearbody C. destruct Hconst as [(res & -> & Hres)| ->]; [done|].
  destruct (isQuote (byte c)) eqn:Hq.
  { destruct (parseString_length c t Hq) as (v' & tail' & err' & -> & Hlen).
    split; [done|]. do 3 eexists. split; [done|]. simpl in *. split; [lia|].
    intros _. split; [done|lia]. }
  destruct (parseName (String c t)) as [[name rest] nerr] eqn:Hname.
  pose proof (parseName_result _ _ _ _ Hname) as Hres.
  destruct nerr as [nerr|].
  { subst rest. split; [done|]. do 3 eexists. split; [done|]. simpl. split; [lia|done]. }
  assert (Hlen : len (String c t) = (len name + len rest)%nat) by (by rewrite <- Hres, str_length_app).
  destruct (_ || _) eqn:Htf.
  { apply ToLower_empty in Htf. split; [done|]. do 3 eexists. split; [done|].
    split; [lia|]. intros _. split; [done|]. destruct name; [done|]. simpl in *. lia. }
  destruct (String.eqb name "") eqn:Hne.
  { split; [done|]. do 3 eexists. split; [done|]. split; [lia|done]. }
  apply String.eqb_neq in Hne.
  assert (Hrest : (len rest < len (String c t))%nat) by (destruct name; [done|]; simpl in *; lia).
  pose proof (TrimLeftSpace_length rest) as Htrim.
  destruct (starts_with (byte "(") (TrimLeftSpace rest)) eqn:Hsw.
  - destruct (HPAL (TrimLeftSpace rest))
      as [-> (s & ps & nm & rest' & err' & -> & Hl)]; [simpl in *; lia|done|].
    split; [done|]. do 3 eexists. split; [done|]. simpl in *. split; [lia|].
    intros ->. split; [done|lia].
  - split; [done|]. do 3 eexists. split; [done|]. simpl in *. split; [lia|].
    intros _. split; [done|lia].
Qed.

Lemma starts_with_length b e :
  starts_with b e = true -> len (drop 1 e) = Nat.pred (len e) /\ (0 < len e)%nat.
Proof. destruct e; [done|]. simpl. intros _. lia. Qed.

Lemma pipe_congr PEWP1 PEWP2 (L : nat) :
  (forall x, (len x < L)%nat -> PEWP1 x = PEWP2 x /\ progress x (PEWP1 x)) ->
  forall f1 f2 exp e,
    (len e <= L)%nat -> (len e < f1)%nat -> (len e < f2)%nat ->
    pipe_ PEWP1 f1 exp e = pipe_ PEWP2 f2 exp e /\
    bounded e (pipe_ PEWP1 f1 exp e).
Proof.
  intros HP. induction f1 as [|f1 IH]; intros f2 exp e HL Hf1 Hf2; [lia|].
  destruct f2 as [|f2]; [lia|].
  cbn [Parser.pipe_].
  pose proof (skipSpace_length e) as Hskip.
  destruct (starts_with (byte "|") (skipSpace e)) eqn:Hsw; cbn [negb].
  2:{ split; [done|]. do 3 eexists. split; [done|]. lia. }
  apply starts_with_length in Hsw as [Hd Hpos].
  destruct (HP (drop 1 (skipSpace e))) as [Heq (wr & rest & err & Hret & Hl & Hok)];
    [lia|].
  rewrite <- Heq, Hret. simpl. destruct err as [err|].
  { split; [done|]. do 3 eexists. split; [done|]. lia. }
  destruct (Hok eq_refl) as [[wr' ->] Hlt].
  destruct (Parser.insertFirstArg FormatFloat wr' exp) as [exp'|err].
  2:{ split; [done|]. do 3 eexists. split; [done|]. lia. }
  destruct (IH f2 exp' rest) as [Heq' (x & rest' & err' & Hret' & Hl')]; [lia..|].
  rewrite <- Heq', Hret'. split; [done|]. do 3 eexists. split; [done|]. lia.
Qed.


Lemma progressA_error e x err :
  (len x <= len e)%nat -> progressA e (argError x err).
Proof. intros H. do 5 eexists. split; [done|]. done. Qed.

Lemma consumed_ok a e :
  (len e <= len a)%nat -> consumed a e = Ret (take (len a - len e) a).
Proof.
  intros H. unfold consumed. destruct (Nat.leb_spec (len e) (len a)); [done|lia].
Qed.

Lemma loop_congr PE1 PE2 (L : nat) :
  (forall x, (len x < L)%nat -> PE1 x = PE2 x /\ progress x (PE1 x)) ->
  forall f1 f2 buf pos nm e,
    (len e < L)%nat -> (len e < f1)%nat -> (len e < f2)%nat ->
    parseArgList_loop PE1 f1 buf pos nm e = parseArgList_loop PE2 f2 buf pos nm e /\
    progressA e (parseArgList_loop PE1 f1 buf pos nm e).
Proof.
  intros HP. induction f1 as [|f1 IH]; intros f2 buf pos nm e HL Hf1 Hf2; [lia|].
  destruct f2 as [|f2]; [lia|].
  cbn [Parser.parseArgList_loop].
  destruct (HP e HL) as [Heq (arg & e' & err & Hret & Hl & Hok)].
  rewrite <- Heq, Hret. cbn [mbind outcome_bind].
  destruct err as [err|].
  { split; [done|]. by apply progressA_error. }
  destruct (Hok eq_refl) as [[arg' ->] Hlt].
  destruct e' as [|e0 e1].
  { split; [done|]. by apply progressA_error. }
  (* the rest of a turn, from the entry on *)
  assert (Htail : forall buf' pos' nm' x,
    (len x < len e)%nat ->
    (match TrimLeftSpace x with
     | "" => argError "" ErrUnexpectedCharacter
     | String e2 e3 =>
       if byte e2 =? byte ")" then Ret (buf', pos', nm', e3, None)
       else if negb (byte e2 =? byte ",") && negb (byte e2 =? byte " ")
       then argError "" ErrUnexpectedCharacter
       else parseArgList_loop PE1 f1 buf' pos' nm' e3
     end =
     match TrimLeftSpace x with
     | "" => argError "" ErrUnexpectedCharacter
     | String e2 e3 =>
       if byte e2 =? byte ")" then Ret (buf', pos', nm', e3, None)
       else if negb (byte e2 =? byte ",") && negb (byte e2 =? byte " ")
       then argError "" ErrUnexpectedCharacter
       else parseArgList_loop PE2 f2 buf' pos' nm' e3
     end) /\
    progressA e
      (match TrimLeftSpace x with
       | "" => argError "" ErrUnexpectedCharacter
       | String e2 e3 =>
         if byte e2 =? byte ")" then Ret (buf', pos', nm', e3, None)
         else if negb (byte e2 =? byte ",") && negb (byte e2 =? byte " ")
         then argError "" ErrUnexpectedCharacter
         else parseArgList_loop PE1 f1 buf' pos' nm' e3
       end)).
  { intros buf' pos' nm' x Hx.
    pose proof (TrimLeftSpace_length x) as Htrim.
    destruct (TrimLeftSpace x) as [|e2 e3].
    { split; [done|]. apply progressA_error. simpl. lia. }
    simpl in Htrim.
    destruct (byte e2 =? byte ")").
    { split; [done|]. do 5 eexists. split; [done|]. lia. }
    destruct (_ && _).
    { split; [done|]. apply progressA_error. simpl. lia. }
    destruct (IH f2 buf' pos' nm' e3) as [Heq' (s & p & n & r & er & Hret' & Hl')];
      [lia..|].
    rewrite <- Heq', Hret'. split; [done|]. do 5 eexists. split; [done|]. lia. }
  destruct (bool_decide (etype arg' = EtName) && (byte e0 =? byte "=")).
  - destruct (HP e1) as [Heq1 (argc & ec & errc & Hret1 & Hl1 & Hok1)];
      [simpl in *; lia|].
    rewrite <- Heq1, Hret1. cbn [mbind outcome_bind].
    destruct errc as [errc|]; cbn [mbind outcome_bind].
    { split; [done|]. apply progressA_error. simpl in *. lia. }
    destruct (Hok1 eq_refl) as [[argc' ->] Hlt1].
    destruct (String.eqb ec ""); cbn [mbind outcome_bind].
    { split; [done|]. apply progressA_error. simpl in *. lia. }
    destruct (_ && _); cbn [mbind outcome_bind].
    { split; [done|]. apply progressA_error. simpl in *. lia. }
    rewrite consumed_ok by (simpl in *; lia). cbn [mbind outcome_bind].
    apply Htail. simpl in *. lia.
  - assert (exists text,
        (if bool_decide (etype arg' = EtFunc)
         then Ret (Parser.ToString FormatFloat arg')
         else consumed e (String e0 e1)) = Ret text) as [text ->].
    { destruct (bool_decide _); [eauto|]. rewrite consumed_ok by lia. eauto. }
    cbn [mbind outcome_bind]. apply Htail. lia.
Qed.


Lemma pal_congr PE1 PE2 (L : nat) :
  (forall x, (len x < L)%nat -> PE1 x = PE2 x /\ progress x (PE1 x)) ->
  forall f1 f2 e,
    (len e <= L)%nat -> (len e <= f1)%nat -> (len e <= f2)%nat ->
    starts_with (byte "(") e = true ->
    parseArgList_ PE1 f1 e = parseArgList_ PE2 f2 e /\
    progressA e (parseArgList_ PE1 f1 e).
Proof.
  intros HP f1 f2 e HL Hf1 Hf2 Hsw. unfold Parser.parseArgList_.
  rewrite Hsw. cbn [negb].
  apply starts_with_length in Hsw as [Hd Hpos].
  pose proof (TrimLeftSpace_length (drop 1 e)) as Htrim.
  destruct (starts_with (byte ")") (TrimLeftSpace (drop 1 e))) eqn:Hsw'.
  - split; [done|]. do 5 eexists. split; [done|].
    apply starts_with_length in Hsw' as [Hd' Hpos']. lia.
  - destruct (loop_congr PE1 PE2 L HP f1 f2 "" [] ∅ (drop 1 e))
      as [Heq (s & p & n & r & er & Hret & Hl)]; [lia..|].
    rewrite <- Heq, Hret. split; [done|]. do 5 eexists. split; [done|]. lia.
Qed.

(** Fuel above the length of the input is enough: the result then no longer
    depends on the fuel, and it is a result. *)
Lemma ParseExpr_fuel_enough n : forall e m,
  (len e < n)%nat -> (len e < m)%nat ->
  ParseExpr_fuel n e = ParseExpr_fuel m e /\ progress e (ParseExpr_fuel n e).
Proof.
  induction n as [|n IH]; intros e m Hn Hm; [lia|].
  destruct m as [|m]; [lia|].
  cbn [Parser.ParseExpr_fuel].
  assert (HP : forall x, (len x < len e)%nat ->
             ParseExpr_fuel n x = ParseExpr_fuel m x /\
             progress x (ParseExpr_fuel n x)).
  { intros x Hx. apply IH; lia. }
  assert (HPAL : forall x, (len x <= len e)%nat ->
             starts_with (byte "(") x = true ->
             parseArgList_ (ParseExpr_fuel n) n x
             = parseArgList_ (ParseExpr_fuel m) m x /\
             progressA x (parseArgList_ (ParseExpr_fuel n) n x)).
  { intros x Hx Hsw. apply (pal_congr _ _ (len e)); [done|lia..|done]. }
  assert (HPEWP : forall x, (len x <= len e)%nat ->
             parseExprWithoutPipe_ (parseArgList_ (ParseExpr_fuel n) n) x
             = parseExprWithoutPipe_ (parseArgList_ (ParseExpr_fuel m) m) x /\
             progress x (parseExprWithoutPipe_ (parseArgList_ (ParseExpr_fuel n) n) x)).
  { intros x Hx. apply pewp_congr. intros y Hy Hsw. apply HPAL; [lia|done]. }
  destruct (HPEWP e) as [Heq (exp & e' & err & Hret & Hl & Hok)]; [lia|].
  rewrite <- Heq, Hret. cbn [mbind outcome_bind].
  destruct err as [err|].
  { split; [done|]. do 3 eexists. split; [done|]. split; [lia|done]. }
  destruct (Hok eq_refl) as [[exp' ->] Hlt].
  destruct (pipe_congr _ _ (len e) (fun x Hx => HPEWP x (Nat.lt_le_incl _ _ Hx))
              n m exp' e')
    as [Heq' (x & rest & er & Hret' & Hl')]; [lia..|].
  rewrite <- Heq', Hret'. split; [done|].
  do 3 eexists. split; [done|]. split; [lia|]. intros _. split; [done|lia].
Qed.

Lemma ParseExpr_fuel_eq n e :
  (len e < n)%nat -> ParseExpr_fuel n e = ParseExpr e.
Proof. intros Hn. apply ParseExpr_fuel_enough; lia. Qed.

(** [ParseExpr] returns on every input. *)
Lemma ParseExpr_progress e : progress e (ParseExpr e).
Proof. apply ParseExpr_fuel_enough with (m := S (len e)); lia. Qed.

Lemma ParseExpr_agree n x :
  (len x < n)%nat ->
  ParseExpr_fuel n x = ParseExpr x /\ progress x (ParseExpr_fuel n x).
Proof.
  intros Hx. split; [by apply ParseExpr_fuel_eq|].
  rewrite ParseExpr_fuel_eq by done. apply ParseExpr_progress.
Qed.

Lemma parseArgList_fuel n m x :
  (len x <= n)%nat -> (len x <= m)%nat -> starts_with (byte "(") x = true ->
  parseArgList_ (ParseExpr_fuel n) m x = parseArgList x /\
  progressA x (parseArgList_ (ParseExpr_fuel n) m x).
Proof.
  intros Hn Hm Hsw. unfold Parser.parseArgList.
  apply pal_congr with (L := n); [|lia..|done].
  intros y Hy. by apply ParseExpr_agree.
Qed.

Lemma parseExprWithoutPipe_fuel n x :
  (len x <= n)%nat ->
  parseExprWithoutPipe_ (parseArgList_ (ParseExpr_fuel n) n) x
  = parseExprWithoutPipe x /\
  progress x (parseExprWithoutPipe_ (parseArgList_ (ParseExpr_fuel n) n) x).
Proof.
  intros Hn. unfold Parser.parseExprWithoutPipe. apply pewp_congr.
  intros y Hy Hsw. apply parseArgList_fuel; [lia..|done].
Qed.

Lemma parseExprWithoutPipe_progress e : progress e (parseExprWithoutPipe e).
Proof.
  destruct (parseExprWithoutPipe_fuel (len e) e) as [<- H]; [lia|done].
Qed.

Lemma pipe_fuel n m exp e :
  (len e < n)%nat -> (len e < m)%nat ->
  pipe_ (parseExprWithoutPipe_ (parseArgList_ (ParseExpr_fuel n) n)) m exp e
  = pipe exp e /\ bounded e (pipe exp e).
Proof.
  intros Hn Hm. unfold Parser.pipe.
  assert (H : pipe_ (parseExprWithoutPipe_ (parseArgList_ (ParseExpr_fuel n) n))
                   m exp e
               = pipe_ parseExprWithoutPipe (S (len e)) exp e /\
               bounded e (pipe_ (parseExprWithoutPipe_
                                   (parseArgList_ (ParseExpr_fuel n) n)) m exp e)).
  { apply pipe_congr with (L := len e); [|lia..].
    intros x Hx. apply parseExprWithoutPipe_fuel. lia. }
  destruct H as [Heq Hb]. split; [done|]. by rewrite <- Heq.
Qed.

(** The equations of the functions of the package, as the source has them. *)
Lemma ParseExpr_eq e :
  ParseExpr e =
  '(exp, e, err) ← parseExprWithoutPipe e;
  match err with
  | Some _ => Ret (exp, e, err)
  | None =>
    match exp with
    | None => Panic
    | Some exp => pipe exp e
    end
  end.
Proof.
  unfold Parser.ParseExpr at 1. cbn [Parser.ParseExpr_fuel].
  destruct (parseExprWithoutPipe_fuel (len e) e)
    as [-> (exp & e' & err & -> & Hl & Hok)]; [lia|].
  cbn [mbind outcome_bind]. destruct err as [err|]; [done|].
  destruct (Hok eq_refl) as [[exp' ->] Hlt].
  by destruct (pipe_fuel (len e) (len e) exp' e') as [-> _].
Qed.

Lemma pipe_eq exp e :
  pipe exp e =
  let e := skipSpace e in
  if negb (starts_with (byte "|") e) then Ret (Some exp, e, None)
  else
    '(wr, e, err) ← parseExprWithoutPipe (drop 1 e);
    match err with
    | Some _ => Ret (Some exp, e, err)
    | None =>
      match wr with
      | None => Ret (Some exp, e, None)
      | Some wr =>
        match insertFirstArg wr exp with
        | inr err => Ret (Some exp, e, Some err)
        | inl exp => pipe exp e
        end
      end
    end.
Proof.
  unfold Parser.pipe at 1. cbn [Parser.pipe_]. cbv zeta.
  pose proof (skipSpace_length e) as Hskip.
  destruct (starts_with (byte "|") (skipSpace e)) eqn:Hsw; [|done].
  cbn [negb]. apply starts_with_length in Hsw as [Hd Hpos].
  destruct (parseExprWithoutPipe_progress (drop 1 (skipSpace e)))
    as (wr & rest & err & -> & Hl & Hok).
  cbn [mbind outcome_bind]. destruct err as [err|]; [done|].
  destruct (Hok eq_refl) as [[wr' ->] Hlt].
  destruct (insertFirstArg wr' exp) as [exp'|]; [|done].
  unfold Parser.pipe, Parser.parseExprWithoutPipe.
  apply pipe_congr with (L := len e); [|lia..].
  intros x Hx. split; [done|]. apply parseExprWithoutPipe_progress.
Qed.

Lemma parseArgList_eq e :
  parseArgList e =
  if negb (starts_with (byte "(") e) then Panic
  else
    let e := drop 1 e in
    let t := TrimLeftSpace e in
    if starts_with (byte ")") t then Ret ("", [], ∅, drop 1 t, None)
    else parseArgList_args "" [] ∅ e.
Proof.
  unfold Parser.parseArgList, Parser.parseArgList_. cbv zeta.
  destruct (starts_with (byte "(") e) eqn:Hsw; [|done]. cbn [negb].
  destruct (starts_with (byte ")") _); [done|].
  apply starts_with_length in Hsw as [Hd Hpos].
  unfold Parser.parseArgList_args.
  apply loop_congr with (L := len e); [|lia..].
  intros x Hx. split; [done|]. apply ParseExpr_progress.
Qed.

Lemma parseArgList_args_eq argStringBuffer posArgs namedArgs e :
  parseArgList_args argStringBuffer posArgs namedArgs e =
  let argString := e in
  '(arg, e, err) ← ParseExpr e;
  match err with
  | Some err => argError e err
  | None =>
    match arg with
    | None => Panic
    | Some arg =>
      match e with
      | "" => argError "" ErrMissingComma
      | String e0 e1 =>
        entry ←
          (if bool_decide (etype arg = EtName) && (byte e0 =? byte "=")
           then
             '(argCont, eCont, errCont) ← ParseExpr e1;
             match errCont with
             | Some errCont => Ret (inr (eCont, errCont))
             | None =>
               match argCont with
               | None => Panic
               | Some argCont =>
                 if String.eqb eCont ""
                 then Ret (inr ("", ErrMissingComma))
                 else if negb (bool_decide (etype argCont = EtConst))
                         && negb (bool_decide (etype argCont = EtName))
                         && negb (bool_decide (etype argCont = EtString))
                 then Ret (inr (eCont, ErrBadType))
                 else
                   let exp := {| target := target argCont;
                                 etype := etype argCont;
                                 val := val argCont;
                                 valStr := valStr argCont;
                                 args := []; namedArgs := ∅;
                                 argString := "" |} in
                   text ← consumed argString eCont;
                   Ret (inl (writeArg argStringBuffer text, posArgs,
                             <[target arg := exp]> namedArgs, eCont))
               end
             end
           else
             let exp := arg in
             text ← (if bool_decide (etype exp = EtFunc)
                      then Ret (ToString exp)
                      else consumed argString e);
             Ret (inl (writeArg argStringBuffer text, posArgs ++ [exp],
                       namedArgs, e)));
        match entry with
        | inr (e, err) => argError e err
        | inl (argStringBuffer, posArgs, namedArgs, e) =>
          let e := TrimLeftSpace e in
          match e with
          | "" => argError "" ErrUnexpectedCharacter
          | String e0 e1 =>
            if byte e0 =? byte ")" then
              Ret (argStringBuffer, posArgs, namedArgs, e1, None)
            else if negb (byte e0 =? byte ",")
                    && negb (byte e0 =? byte " ")
            then argError "" ErrUnexpectedCharacter
            else parseArgList_args argStringBuffer posArgs namedArgs e1
          end
        end
      end
    end
  end.
Proof.
  unfold Parser.parseArgList_args at 1. cbn [Parser.parseArgList_loop]. cbv zeta.
  destruct (ParseExpr_progress e) as (arg & e' & err & -> & Hl & Hok).
  cbn [mbind outcome_bind]. destruct err as [err|]; [done|].
  destruct (Hok eq_refl) as [[arg' ->] Hlt].
  destruct e' as [|e0 e1]; [done|].
  assert (Hrec : forall b p n x, (len x < len e)%nat ->
            parseArgList_loop ParseExpr (len e) b p n x = parseArgList_args b p n x).
  { intros b p n x Hx. unfold Parser.parseArgList_args.
    apply loop_congr with (L := len e); [|lia..].
    intros y Hy. split; [done|]. apply ParseExpr_progress. }
  assert (Htail : forall b p n x, (len x < len e)%nat ->
    match TrimLeftSpace x with
    | "" => argError "" ErrUnexpectedCharacter
    | String e2 e3 =>
      if byte e2 =? byte ")" then Ret (b, p, n, e3, None)
      else if negb (byte e2 =? byte ",") && negb (byte e2 =? byte " ")
      then argError "" ErrUnexpectedCharacter
      else parseArgList_loop ParseExpr (len e) b p n e3
    end =
    match TrimLeftSpace x with
    | "" => argError "" ErrUnexpectedCharacter
    | String e2 e3 =>
      if byte e2 =? byte ")" then Ret (b, p, n, e3, None)
      else if negb (byte e2 =? byte ",") && negb (byte e2 =? byte " ")
      then argError "" ErrUnexpectedCharacter
      else parseArgList_args b p n e3
    end).
  { intros b p n x Hx. pose proof (TrimLeftSpace_length x) as Htrim.
    destruct (TrimLeftSpace x) as [|e2 e3]; [done|].
    rewrite Hrec by (simpl in *; lia). done. }
  destruct (bool_decide (etype arg' = EtName) && (byte e0 =? byte "=")).
  - destruct (ParseExpr_progress e1) as (argc & ec & errc & -> & Hl1 & Hok1).
    cbn [mbind outcome_bind]. destruct errc as [errc|]; [done|].
    destruct (Hok1 eq_refl) as [[argc' ->] Hlt1].
    destruct (String.eqb ec ""); [done|].
    destruct (_ && _); [done|].
    rewrite consumed_ok by (simpl in *; lia). cbn [mbind outcome_bind].
    apply Htail. simpl in *. lia.
  - assert (exists text,
        (if bool_decide (etype arg' = EtFunc)
         then Ret (ToString arg')
         else consumed e (String e0 e1)) = Ret text) as [text ->].
    { destruct (bool_decide _); [eauto|]. rewrite consumed_ok by lia. eauto. }
    cbn [mbind outcome_bind]. apply Htail. lia.
Qed.

Lemma byte_range c : 0 <= byte c < 256.
Proof.
  unfold byte. pose proof (N_ascii_bounded c). lia.
Qed.

Lemma IsSpace_byte c :
  IsSpace (byte c) = true ->
  byte c = 9 \/ byte c = 10 \/ byte c = 11 \/ byte c = 12 \/ byte c = 13 \/
  byte c = 32 \/ byte c = 0x85 \/ byte c = 0xA0.
Proof.
  unfold IsSpace. pose proof (byte_range c).
  destruct ((0 <=? byte c) && (byte c <=? MaxLatin1)) eqn:E.
  - rewrite !orb_true_iff, !Z.eqb_eq. tauto.
  - apply andb_false_iff in E as [E|E]; [apply Z.leb_gt in E; lia|].
    apply Z.leb_gt in E. unfold MaxLatin1 in E. lia.
Qed.

Lemma skipSpace_all ws c :
  all_space ws -> skipSpace (ws +:+ String c "") = String c "".
Proof.
  induction ws as [|w ws IH]; intros Hws; [done|].
  assert (Hw : IsSpace (byte w) = true) by (apply (Hws 0%nat); done).
  assert (Hws' : all_space ws).
  { intros i c' Hg. apply (Hws (S i)). done. }
  specialize (IH Hws'). rewrite str_app_cons.
  destruct ws as [|w' ws'].
  - rewrite str_app_nil_l in *. simpl. by rewrite Hw.
  - rewrite str_app_cons in *. cbn [skipSpace]. rewrite Hw. exact IH.
Qed.

Lemma parseName_space c :
  tables_above_ascii RangeTables ->
  IsSpace (byte c) = true ->
  parseName (String c "") = ("", String c "", None).
Proof.
  intros Ht Hc. unfold Parser.parseName. 
  assert (Parser.parseName_loop RangeTables (String c "") 0 0 0 0 = inl (0%nat, 0, 0)) as ->; [|done].
  cbn [Parser.parseName_loop]. unfold Parser.parseName_step, DecodeRuneInString, byte_at.
  cbn [String.length String.get Nat.ltb Nat.leb].
  destruct (IsSpace_byte c Hc) as [H|[H|[H|[H|[H|[H|[H|H]]]]]]]; rewrite H; simpl;
    try done; rewrite Ht; (done || (left; lia) || (by right)).
Qed.

Lemma space_not_start c :
  IsSpace (byte c) = true -> isConstStart (byte c) = false /\ isQuote (byte c) = false.
Proof.
  intros Hc.
  destruct (IsSpace_byte c Hc) as [H|[H|[H|[H|[H|[H|[H|H]]]]]]]; rewrite H; done.
Qed.

(** C10: on the empty string [ParseExpr] returns the missing-expr error;
    on a string of nothing but spaces it returns the missing-argument
    error, with the last space left over. *)
Theorem C10_empty_and_blank_input :
  ParseExpr "" = Ret (None, "", Some ErrMissingExpr) /\
  (forall ws c,
     tables_above_ascii RangeTables ->
     all_space (ws +:+ String c "") ->
     ParseExpr (ws +:+ String c "")
     = Ret (None, String c "", Some ErrMissingArgument)).
Proof.
  split; [done|].
  intros ws c Ht Hall.
  assert (Hws : all_space ws).
  { intros i c' Hg. apply (Hall i). clear Hall. revert i Hg.
    induction ws as [|w ws IH]; intros [|i]; try done. simpl. apply IH. }
  assert (Hc : IsSpace (byte c) = true).
  { apply (Hall (String.length ws)). clear. induction ws; simpl; auto. }
  unfold Parser.ParseExpr. cbn [Parser.ParseExpr_fuel].
  unfold Parser.parseExprWithoutPipe_.
  rewrite skipSpace_all by done.
  destruct (space_not_start c Hc) as [-> ->].
  rewrite parseName_space by done. done.
Qed.

End ParserProps.

(** * The claims about the parser *)

Section ParserClaims.
Import Go Parser.

Context (Letter : RangeTable) (FormatFloat : float64 -> string)
        (RangeTables : list RangeTable).

Local Abbreviation parseName := (Parser.parseName RangeTables).
Local Abbreviation ParseExpr := (Parser.ParseExpr Letter FormatFloat RangeTables).
Local Abbreviation parseArgList :=
  (Parser.parseArgList Letter FormatFloat RangeTables).
Local Abbreviation parseExprWithoutPipe :=
  (Parser.parseExprWithoutPipe Letter FormatFloat RangeTables).
Local Abbreviation pipe := (Parser.pipe Letter FormatFloat RangeTables).
Local Abbreviation parseArgList_args :=
  (Parser.parseArgList_args Letter FormatFloat RangeTables).
Local Abbreviation insertFirstArg := (Parser.insertFirstArg FormatFloat).
Local Abbreviation ToString := (Parser.ToString FormatFloat).
Local Abbreviation len := String.length.

Lemma constStart_not_space c :
  isConstStart (byte c) = true ->
  IsSpace (byte c) = false /\ isQuote (byte c) = false /\ lower c = c /\
  Ascii.eqb c "f" = false /\ Ascii.eqb c "t" = false.
Proof.
  intros H. unfold isConstStart in H.
  assert (Hb : (48 <= byte c <= 57) \/ byte c = 45 \/ byte c = 43).
  { apply orb_true_iff in H as [H|H]; [apply orb_true_iff in H as [H|H]|].
    - apply andb_true_iff in H as [H1 H2].
      apply Z.leb_le in H1, H2. left. split; [exact H1 | exact H2].
    - apply Z.eqb_eq in H. tauto.
    - apply Z.eqb_eq in H. tauto. }
  assert (Hne : forall b, ~ (48 <= b <= 57) -> b <> 45 -> b <> 43 -> byte c <> b)
    by (intros; lia).
  repeat split.
  - unfold IsSpace. pose proof (byte_range c) as Hr.
    destruct ((0 <=? byte c) && (byte c <=? MaxLatin1)) eqn:E.
    + rewrite !orb_false_iff, !Z.eqb_neq. repeat split; apply Hne; lia.
    + apply andb_false_iff in E as [E|E]; apply Z.leb_gt in E;
        unfold MaxLatin1 in *; lia.
  - unfold isQuote. rewrite !orb_false_iff, !Z.eqb_neq. split; apply Hne; lia.
  - unfold lower.
    destruct ((65 <=? byte c) && (byte c <=? 90)) eqn:E; [|done].
    apply andb_true_iff in E as [E1 E2]. apply Z.leb_le in E1, E2. lia.
  - destruct (Ascii.eqb_spec c "f") as [->|]; [|done]. 
    exfalso. apply (Hne 102); [lia..|reflexivity].
  - destruct (Ascii.eqb_spec c "t") as [->|]; [|done].
    exfalso. apply (Hne 116); [lia..|reflexivity].
Qed.

Lemma skipSpace_start c t :
  IsSpace (byte c) = false -> skipSpace (String c t) = String c t.
Proof. intros H. destruct t; simpl; [done|]. by rewrite H. Qed.

Lemma parseArgList_progress x :
  starts_with (byte "(") x = true -> progressA x (parseArgList x).
Proof.
  intros Hsw.
  destruct (parseArgList_fuel Letter FormatFloat RangeTables (len x) (len x) x)
    as [<- H]; [lia..|done|done].
Qed.

(** [parseExprWithoutPipe] on an input that starts with a digit or a
    sign. *)
Lemma parseExprWithoutPipe_const_start (e : string) (c : ascii) (t : string) :
  let i := constRun e 0 in
  e = String c t ->
  isConstStart (byte c) = true ->
  match ParseFloat (take i e) with
  | inr err =>
    parseExprWithoutPipe e
    = Ret (Some (Const (F_zero false)), "", Some (ErrParseFloat (take i e) err))
  | inl v =>
    if IsLetter Letter (DecodeRuneInString (drop i e)).1 then
      match parseName e with
      | (_, rest, Some err) =>
        parseExprWithoutPipe e = Ret (None, rest, Some err)
      | (name, rest, None) =>
        if String.eqb name "" then
          parseExprWithoutPipe e = Ret (None, rest, Some ErrMissingArgument)
        else
          name +:+ rest = e /\
          exists node rest' err,
            parseExprWithoutPipe e = Ret (Some node, rest', err) /\
            target node = name /\
            (etype node = EtName \/ etype node = EtFunc)
      end
    else parseExprWithoutPipe e = Ret (Some (Const v), drop i e, None)
  end.
Proof.
  intros i He Hstart.
  destruct (constStart_not_space c Hstart) as (Hsp & Hq & Hlow & Hf & Ht).
  unfold Parser.parseExprWithoutPipe, Parser.parseExprWithoutPipe_.
  subst e. rewrite skipSpace_start by done.
  rewrite Hstart, Hq. unfold parseConst. fold i.
  destruct (ParseFloat (take i (String c t))) as [v|err].
  2:{ reflexivity. }
  destruct (DecodeRuneInString (drop i (String c t))) as [r w] eqn:Hdec.
  cbn [fst].
  destruct (IsLetter Letter r); cbn [negb]; [|reflexivity].
  destruct (parseName (String c t)) as [[name rest] nerr] eqn:Hname.
  apply parseName_result in Hname.
  destruct nerr as [nerr|]; [done|].
  destruct (String.eqb name "") eqn:Hne.
  { apply String.eqb_eq in Hne. subst name. reflexivity. }
  split; [done|].
  assert (Htf : String.eqb (ToLower name) "false"
                || String.eqb (ToLower name) "true" = false).
  { destruct name as [|c' name']; [done|]. 
    rewrite str_app_cons in Hname. injection Hname as -> _.
    cbn [ToLower String.eqb]. rewrite Hlow, Hf, Ht. done. }
  rewrite Htf.
  destruct (starts_with (byte "(") (TrimLeftSpace rest)) eqn:Hsw.
  - destruct (parseArgList_progress _ Hsw) as (s & p & nm & rest' & err' & -> & _).
    cbn [mbind outcome_bind]. do 3 eexists. split; [done|]. split; [done|].
    by right.
  - do 3 eexists. split; [done|]. split; [done|]. by left.
Qed.

(** C7, as the code has it: on an input that starts with a digit or a sign,
    when the run of constant characters is no number the parse fails with
    the error of [ParseFloat]; when it is a number that no letter follows,
    the result is the constant and the rest of the input; and when a letter
    follows, the input is lexed as a name from its first character on, so
    that [-1foo] is the name [-1foo]. *)
Theorem C7_const_or_name :
  (forall (e : string) (c : ascii) (t : string),
    let i := constRun e 0 in
    e = String c t ->
    isConstStart (byte c) = true ->
    match ParseFloat (take i e) with
    | inr err =>
      parseExprWithoutPipe e
      = Ret (Some (Const (F_zero false)), "", Some (ErrParseFloat (take i e) err))
    | inl v =>
      if IsLetter Letter (DecodeRuneInString (drop i e)).1 then
        match parseName e with
        | (_, rest, Some err) =>
          parseExprWithoutPipe e = Ret (None, rest, Some err)
        | (name, rest, None) =>
          if String.eqb name "" then
            parseExprWithoutPipe e = Ret (None, rest, Some ErrMissingArgument)
          else
            name +:+ rest = e /\
            exists node rest' err,
              parseExprWithoutPipe e = Ret (Some node, rest', err) /\
              target node = name /\
              (etype node = EtName \/ etype node = EtFunc)
        end
      else parseExprWithoutPipe e = Ret (Some (Const v), drop i e, None)
    end) /\
  ParseExpr "-1foo" = Ret (Some (Name "-1foo"), "", None).
Proof.
  split; [exact parseExprWithoutPipe_const_start | by vm_compute].
Qed.

Local Abbreviation parseName_step := (Parser.parseName_step RangeTables).
Local Abbreviation ends_name := (Parser.ends_name RangeTables).
Local Abbreviation parseName_loop := (Parser.parseName_loop RangeTables).

Lemma namechar_facts c :
  IsNameChar (byte c) = true ->
  IsSpace (byte c) = false /\ isQuote (byte c) = false /\
  (byte c =? byte ")") = false /\ byte c < 128.
Proof.
  destruct c as [[] [] [] [] [] [] [] []]; vm_compute; intros H;
    try discriminate H; done.
Qed.

Lemma parseName_loop_namechars x : forall rest i braces brackets,
  all_bytes IsNameChar x = true ->
  parseName_loop (x +:+ rest) i 0 braces brackets
  = parseName_loop rest (i + len x) 0 braces brackets.
Proof.
  induction x as [|c x IH]; intros rest i braces brackets Hx.
  - rewrite str_app_nil_l. simpl. by rewrite Nat.add_0_r.
  - simpl in Hx. apply andb_true_iff in Hx as [Hc Hx].
    rewrite str_app_cons. cbn [Parser.parseName_loop Parser.parseName_step].
    rewrite Hc. cbn [Nat.pred]. rewrite IH by done. f_equal. simpl. lia.
Qed.

Lemma parseName_identifier x rest :
  all_bytes IsNameChar x = true -> ends_name rest ->
  parseName (x +:+ rest) = (x, rest, None).
Proof.
  intros Hx Hrest. unfold Parser.parseName.
  rewrite parseName_loop_namechars by done. simpl.
  assert (parseName_loop rest (len x) 0 0 0 = inl (len x, 0, 0)) as ->.
  { destruct Hrest as [-> | Hstop]; [done|].
    destruct rest as [|c r]; [done|]. cbn [Parser.parseName_loop]. by rewrite Hstop. }
  simpl. rewrite str_length_app.
  destruct (Nat.eqb_spec (len x) (len x + len rest)) as [E|E].
  - assert (rest = "") as -> by (destruct rest; [done | simpl in E; lia]).
    by rewrite str_app_nil_r.
  - by rewrite str_take_app_length, str_drop_app_length.
Qed.

Lemma ends_name_char c r :
  tables_above_ascii RangeTables ->
  byte c = byte " " \/ byte c = byte "," \/ byte c = byte "(" \/
  byte c = byte ")" \/ byte c = byte "|" ->
  ends_name (String c r).
Proof.
  intros Ht Hc. right. unfold Parser.parseName_step, DecodeRuneInString, byte_at.
  cbn [String.length String.get Nat.ltb Nat.leb].
  destruct Hc as [H|[H|[H|[H|H]]]]; rewrite H; simpl; try done;
    by rewrite Ht by (by left).
Qed.

Lemma TrimLeftSpace_nonspace c r :
  byte c < 128 -> IsSpace (byte c) = false ->
  TrimLeftSpace (String c r) = String c r.
Proof.
  intros Hc Hsp. unfold TrimLeftSpace. cbn [TrimLeft_go].
  unfold DecodeRuneInString, byte_at. cbn [String.length String.get Nat.ltb Nat.leb].
  destruct (Z.ltb_spec (byte c) 128); [|lia]. cbn [fst]. by rewrite Hsp.
Qed.


Lemma is_identifier_inv x :
  is_identifier x = true ->
  exists c t, x = String c t /\ all_bytes IsNameChar x = true /\
    IsNameChar (byte c) = true /\ isConstStart (byte c) = false /\
    String.eqb (ToLower x) "false" || String.eqb (ToLower x) "true" = false.
Proof.
  unfold is_identifier. destruct x as [|c t]; [done|].
  intros H. apply andb_true_iff in H as [H H3].
  apply andb_true_iff in H as [H1 H2].
  exists c, t. split; [done|]. split; [done|].
  apply negb_true_iff in H2, H3.
  split; [|done]. simpl in H1. by apply andb_true_iff in H1 as [? _].
Qed.

(** [parseExprWithoutPipe] on an identifier followed by the end of a name. *)
Lemma parseExprWithoutPipe_identifier x rest :
  is_identifier x = true -> ends_name rest ->
  parseExprWithoutPipe (x +:+ rest) =
  if starts_with (byte "(") (TrimLeftSpace rest) then
    '(argString, args, namedArgs, e, err) ← parseArgList (TrimLeftSpace rest);
    Ret (Some (Func x args namedArgs argString), e, err)
  else Ret (Some (Name x), TrimLeftSpace rest, None).
Proof.
  intros Hx Hrest.
  destruct (is_identifier_inv x Hx) as (c & t & -> & Hall & Hc & Hcs & Htf).
  destruct (namechar_facts c Hc) as (Hsp & Hq & _).
  unfold Parser.parseExprWithoutPipe, Parser.parseExprWithoutPipe_.
  rewrite str_app_cons, skipSpace_start by done.
  rewrite Hcs, Hq. rewrite <- str_app_cons.
  rewrite parseName_identifier by done. rewrite Htf. 
  done.
Qed.










Lemma parseExprWithoutPipe_skip e1 e2 :
  skipSpace e1 = skipSpace e2 ->
  parseExprWithoutPipe e1 = parseExprWithoutPipe e2.
Proof.
  intros H. unfold Parser.parseExprWithoutPipe, Parser.parseExprWithoutPipe_.
  by rewrite H.
Qed.

Lemma identifier_start x r :
  is_identifier x = true ->
  exists c t, x +:+ r = String c t /\ IsSpace (byte c) = false /\
              (byte c =? byte ")") = false /\ byte c < 128 /\
              (byte c =? byte "|") = false.
Proof.
  intros Hx. destruct (is_identifier_inv x Hx) as (c & t & -> & _ & Hc & _).
  destruct (namechar_facts c Hc) as (Hsp & _ & Hp & Hlt).
  exists c, (t +:+ r). rewrite str_app_cons. repeat split; try done.
  revert Hc. clear. destruct c as [[] [] [] [] [] [] [] []]; vm_compute; congruence.
Qed.

Lemma pipe_no_bar exp c r :
  IsSpace (byte c) = false -> (byte c =? byte "|") = false ->
  pipe exp (String c r) = Ret (Some exp, String c r, None).
Proof.
  intros Hsp Hbar. rewrite pipe_eq. cbv zeta. rewrite skipSpace_start by done.
  simpl. by rewrite Hbar.
Qed.

Lemma TrimLeftSpace_space r :
  TrimLeftSpace (String " " r) = TrimLeftSpace r.
Proof. reflexivity. Qed.


End ParserClaims.

(** ** The round trip through [ToString] *)

Section RoundTrip.
Import Go Parser.

Context (Letter : RangeTable) (FormatFloat : float64 -> string)
        (RangeTables : list RangeTable).

Local Abbreviation ParseExpr := (Parser.ParseExpr Letter FormatFloat RangeTables).
Local Abbreviation parseArgList :=
  (Parser.parseArgList Letter FormatFloat RangeTables).
Local Abbreviation parseExprWithoutPipe :=
  (Parser.parseExprWithoutPipe Letter FormatFloat RangeTables).
Local Abbreviation pipe := (Parser.pipe Letter FormatFloat RangeTables).
Local Abbreviation parseArgList_args :=
  (Parser.parseArgList_args Letter FormatFloat RangeTables).
Local Abbreviation ToString := (Parser.ToString FormatFloat).
Local Abbreviation ends_name := (Parser.ends_name RangeTables).
Local Abbreviation parses := (Parser.parses Letter FormatFloat RangeTables).
Local Abbreviation len := String.length.

Hypothesis Htab : tables_above_ascii RangeTables.

Lemma term_rect' (P : term -> Prop) :
  (forall x, P (TName x)) -> (forall s, P (TNum s)) -> (forall s, P (TStr s)) ->
  (forall f ts, Forall P ts -> P (TCall f ts)) -> forall t, P t.
Proof.
  intros Hn Hu Hs Hc. fix IH 1. intros [x|s|s|f ts]; [auto..|].
  apply Hc. induction ts as [|t ts IHts]; constructor; auto.
Qed.

Lemma follows_inv r :
  follows r = true ->
  r = "" \/ exists c t, r = String c t /\
     (byte c = byte "," \/ byte c = byte ")").
Proof.
  destruct r as [|c t]; [by left|]. cbn [follows]. intros H. right.
  exists c, t. split; [done|].
  apply orb_true_iff in H as [H|H]; apply Z.eqb_eq in H; tauto.
Qed.

Lemma follows_ends_name r : follows r = true -> ends_name r.
Proof.
  intros [->|(c & t & -> & H)]%follows_inv; [by left|].
  apply ends_name_char; [done|]. tauto.
Qed.

Lemma follows_trim r : follows r = true -> TrimLeftSpace r = r.
Proof.
  intros [->|(c & t & -> & H)]%follows_inv; [done|].
  apply TrimLeftSpace_nonspace; destruct H as [-> | ->]; by vm_compute.
Qed.

Lemma follows_pipe exp r :
  follows r = true -> pipe exp r = Ret (Some exp, r, None).
Proof.
  intros [->|(c & t & -> & H)]%follows_inv.
  - by rewrite pipe_eq.
  - apply pipe_no_bar; destruct H as [-> | ->]; by vm_compute.
Qed.

Lemma follows_paren r : follows r = true -> starts_with (byte "(") r = false.
Proof.
  intros [->|(c & t & -> & H)]%follows_inv; [done|].
  cbn [starts_with]. destruct H as [-> | ->]; by vm_compute.
Qed.

Lemma parse_name x r :
  is_identifier x = true -> follows r = true ->
  ParseExpr (x +:+ r) = Ret (Some (Name x), r, None).
Proof.
  intros Hx Hr. rewrite ParseExpr_eq.
  rewrite parseExprWithoutPipe_identifier by (by auto using follows_ends_name).
  rewrite follows_trim, follows_paren by done.
  cbn [mbind outcome_bind]. by apply follows_pipe.
Qed.


Lemma follows_cases r :
  follows r = true -> r = "" \/ exists t, r = String "," t \/ r = String ")" t.
Proof.
  destruct r as [|c t]; [by left|]. intros H. right. exists t. revert H.
  destruct c as [[] [] [] [] [] [] [] []]; vm_compute; intros H;
    try discriminate H; tauto.
Qed.

Lemma follows_letter r :
  follows r = true -> IsLetter Letter (DecodeRuneInString r).1 = false.
Proof.
  intros [->|(t & [-> | ->])]%follows_cases; by vm_compute.
Qed.

Lemma follows_const r :
  follows r = true -> constRun r 0 = 0%nat.
Proof.
  intros [->|(t & [-> | ->])]%follows_cases; by vm_compute.
Qed.

Lemma constRun_shift s : forall i, constRun s (S i) = S (constRun s i).
Proof.
  induction s as [|c s IH]; intros i; cbn [constRun]; [done|].
  destruct (_ || _); [apply IH | done].
Qed.

Lemma constRun_app s r :
  all_bytes isConstByte s = true -> constRun r 0 = 0%nat ->
  constRun (s +:+ r) 0 = len s.
Proof.
  intros Hs Hr. induction s as [|c s IH].
  - by rewrite str_app_nil_l.
  - cbn [all_bytes] in Hs. apply andb_true_iff in Hs as [Hc Hs].
    rewrite str_app_cons. cbn [constRun String.length].
    unfold isConstByte in Hc. rewrite Hc, constRun_shift, IH; done.
Qed.

Lemma parse_num s r :
  is_number s = true -> follows r = true ->
  ParseExpr (s +:+ r) = Ret (Some (tree (TNum s)), r, None).
Proof.
  intros Hs Hr. destruct s as [|c t]; [done|]. cbn [is_number] in Hs.
  apply andb_true_iff in Hs as [Hs Hv]. apply andb_true_iff in Hs as [Hc Hs].
  destruct (constStart_not_space c Hc) as (Hsp & _).
  rewrite ParseExpr_eq.
  unfold Parser.parseExprWithoutPipe, Parser.parseExprWithoutPipe_.
  rewrite str_app_cons, skipSpace_start, Hc by done.
  unfold parseConst. rewrite <- str_app_cons.
  rewrite constRun_app by (by auto using follows_const).
  rewrite str_take_app_length, str_drop_app_length. cbn [tree].
  destruct (ParseFloat (String c t)) as [v|]; [|done].
  pose proof (follows_letter r Hr) as Hl.
  destruct (DecodeRuneInString r) as [rn w]. cbn [fst] in Hl. rewrite Hl.
  cbn [negb mbind outcome_bind]. by apply follows_pipe.
Qed.

Lemma quoteIndex_shift m s : forall i, quoteIndex m s (S i) = S (quoteIndex m s i).
Proof.
  induction s as [|c s IH]; intros i; cbn [quoteIndex]; [done|].
  destruct (Ascii.eqb c m); [done | apply IH].
Qed.

Lemma free_of_cons q c s :
  free_of q (String c s) = true -> Ascii.eqb c q = false /\ free_of q s = true.
Proof.
  unfold free_of. cbn [all_bytes]. intros [Hc Hs]%andb_true_iff.
  split; [|done]. apply negb_true_iff, Z.eqb_neq in Hc.
  apply Ascii.eqb_neq. by intros ->.
Qed.

Lemma quoteIndex_app q s r :
  free_of q s = true -> quoteIndex q (s +:+ String q r) 0 = len s.
Proof.
  induction s as [|c s IH]; intros Hs.
  - rewrite str_app_nil_l. cbn [quoteIndex]. by rewrite Ascii.eqb_refl.
  - apply free_of_cons in Hs as [Hc Hs]. rewrite str_app_cons.
    cbn [quoteIndex String.length]. rewrite Hc, quoteIndex_shift, IH; done.
Qed.

Lemma str_drop_past s c r : drop (S (len s)) (s +:+ String c r) = r.
Proof.
  induction s as [|c' s IH]; [done|]. rewrite str_app_cons. exact IH.
Qed.

Lemma parse_str s r :
  free_of "'" s = true -> follows r = true ->
  ParseExpr ("'" +:+ s +:+ "'" +:+ r) = Ret (Some (Str s), r, None).
Proof.
  intros Hs Hr. rewrite ParseExpr_eq.
  unfold Parser.parseExprWithoutPipe, Parser.parseExprWithoutPipe_.
  rewrite !str_app_cons, !str_app_nil_l, skipSpace_start by done.
  replace (isConstStart (byte "'")) with false by done.
  replace (isQuote (byte "'")) with true by done.
  unfold parseString. replace (isQuote (byte "'")) with true by done.
  cbn [negb]. rewrite quoteIndex_app by done.
  rewrite str_length_app. cbn [String.length].
  replace (len s =? len s + S (len r))%nat with false
    by (symmetry; apply Nat.eqb_neq; lia).
  rewrite str_take_app_length, str_drop_past. cbn [mbind outcome_bind].
  by apply follows_pipe.
Qed.


(** The text of a well-formed term starts with a byte that is no blank and
    no closing parenthesis. *)
Lemma text_start t r :
  well_formed t = true ->
  exists c s, text t +:+ r = String c s /\ IsSpace (byte c) = false /\
              (byte c =? byte ")") = false /\ byte c < 128.
Proof.
  destruct t as [x|s|s|f ts]; cbn [well_formed text]; intros H.
  - destruct (identifier_start x r H) as (c & t & -> & ? & ? & ? & _). eauto 10.
  - destruct s as [|c t]; [done|]. cbn [is_number] in H.
    apply andb_true_iff in H as [H _]. apply andb_true_iff in H as [H _].
    exists c, (t +:+ r). rewrite str_app_cons. split; [done|].
    unfold isConstStart in H. revert H.
    destruct c as [[] [] [] [] [] [] [] []]; vm_compute; intros H;
      try discriminate H; done.
  - rewrite !str_app_cons, !str_app_nil_l. do 2 eexists. split; [done|].
    by vm_compute.
  - apply andb_true_iff in H as [H _]. rewrite str_app_assoc.
    destruct (identifier_start f (("(" +:+ commas (map text ts) +:+ ")") +:+ r) H)
      as (c & t & -> & ? & ? & ? & _). eauto 10.
Qed.

Lemma text_nonempty t : well_formed t = true -> text t <> "".
Proof.
  intros H. destruct (text_start t "" H) as (c & s & Hs & _).
  rewrite str_app_nil_r in Hs. by rewrite Hs.
Qed.

Lemma commas_cons x l : l <> [] -> commas (x :: l) = x +:+ "," +:+ commas l.
Proof. by destruct l. Qed.

Lemma writeArg_writeArg buf x y :
  x <> "" -> writeArg (writeArg buf x) y = writeArg buf (x +:+ "," +:+ y).
Proof.
  intros Hx. destruct x as [|c x]; [done|]. destruct buf as [|b buf].
  - unfold writeArg. cbn [String.length Nat.ltb Nat.leb].
    by rewrite !str_app_nil_l.
  - unfold writeArg. rewrite !str_app_cons. cbn [String.length Nat.ltb Nat.leb].
    by rewrite !str_app_cons, !str_app_assoc.
Qed.

(** The text that the loop of [parseArgList] writes for an argument. *)
Lemma written t r :
  (if bool_decide (etype (tree t) = EtFunc) then Ret (ToString (tree t))
   else consumed (text t +:+ r) r) = Ret (text t).
Proof.
  assert (Hc : consumed (text t +:+ r) r = Ret (text t)).
  { rewrite consumed_ok by (rewrite str_length_app; lia).
    replace (len (text t +:+ r) - len r)%nat with (len (text t))
      by (rewrite str_length_app; lia).
    by rewrite str_take_app_length. }
  destruct t as [x|s|s|f ts]; cbn [tree].
  - by rewrite bool_decide_eq_false_2.
  - by rewrite bool_decide_eq_false_2.
  - by rewrite bool_decide_eq_false_2.
  - by rewrite bool_decide_eq_true_2.
Qed.

Lemma args_loop r ts :
  Forall parses ts -> forallb well_formed ts = true -> ts <> [] ->
  forall buf pos,
    parseArgList_args buf pos ∅ (commas (map text ts) +:+ ")" +:+ r)
    = Ret (writeArg buf (commas (map text ts)), pos ++ map tree ts, ∅, r, None).
Proof.
  induction 1 as [|t ts Ht Hts IH]; [done|]. intros Hwf _ buf pos.
  cbn [forallb] in Hwf. apply andb_true_iff in Hwf as [Hw Hwf].
  assert (Hstep : forall c rest, c = ","%char \/ c = ")"%char ->
    parseArgList_args buf pos ∅ (text t +:+ String c rest) =
    if Ascii.eqb c ")" then
      Ret (writeArg buf (text t), pos ++ [tree t], ∅, rest, None)
    else parseArgList_args (writeArg buf (text t)) (pos ++ [tree t]) ∅ rest).
  { intros c rest Hc. rewrite parseArgList_args_eq. cbv zeta.
    rewrite (Ht Hw) by (by destruct Hc as [-> | ->]).
    cbn [mbind outcome_bind].
    replace (bool_decide (etype (tree t) = EtName) && (byte c =? byte "="))
      with false
      by (destruct Hc as [-> | ->]; by rewrite andb_false_r).
    rewrite written. cbn [mbind outcome_bind].
    rewrite TrimLeftSpace_nonspace by (destruct Hc as [-> | ->]; by vm_compute).
    by destruct Hc as [-> | ->]. }
  destruct ts as [|t' ts'].
  - cbn [map commas]. rewrite !str_app_cons, !str_app_nil_l.
    rewrite Hstep by (by right). done.
  - rewrite map_cons, commas_cons by done. rewrite !str_app_assoc.
    rewrite !str_app_cons, !str_app_nil_l.
    rewrite Hstep by (by left). cbn [Ascii.eqb Bool.eqb].
    pose proof (IH Hwf ltac:(done) (writeArg buf (text t)) (pos ++ [tree t])) as E.
    rewrite !str_app_cons, !str_app_nil_l in E. rewrite E.
    rewrite writeArg_writeArg by (by apply text_nonempty).
    rewrite <- (assoc_L (++)). done.
Qed.

Lemma parse_call f ts r :
  is_identifier f = true -> forallb well_formed ts = true ->
  Forall parses ts -> follows r = true ->
  ParseExpr (text (TCall f ts) +:+ r) = Ret (Some (tree (TCall f ts)), r, None).
Proof.
  intros Hf Hwf Hts Hr. cbn [text tree]. rewrite !str_app_assoc.
  rewrite ParseExpr_eq.
  rewrite parseExprWithoutPipe_identifier; [|done|].
  2:{ rewrite str_app_cons. apply ends_name_char; [done|]. tauto. }
  rewrite !str_app_cons, !str_app_nil_l.
  rewrite TrimLeftSpace_nonspace by (by vm_compute).
  cbn [starts_with]. replace (byte "(" =? byte "(") with true by done.
  rewrite parseArgList_eq. cbv zeta. cbn [starts_with drop].
  replace (byte "(" =? byte "(") with true by done. cbn [negb].
  destruct ts as [|t ts].
  - cbn [map commas]. rewrite str_app_nil_l.
    rewrite TrimLeftSpace_nonspace by (by vm_compute).
    cbn [starts_with drop]. replace (byte ")" =? byte ")") with true by done.
    cbn [mbind outcome_bind]. by apply follows_pipe.
  - pose proof Hwf as Hwf'. cbn [forallb] in Hwf'.
    apply andb_true_iff in Hwf' as [Hw _].
    destruct (text_start t ((if ts is [] then "" else "," +:+ commas (map text ts))
                             +:+ String ")" r) Hw)
      as (c & s & Hs & Hsp & Hp & Hlt).
    assert (Hs' : commas (map text (t :: ts)) +:+ String ")" r = String c s).
    { rewrite <- Hs. destruct ts as [|t' ts'].
      - by rewrite str_app_nil_l.
      - rewrite map_cons, commas_cons by done. by rewrite !str_app_assoc. }
    rewrite Hs', TrimLeftSpace_nonspace by done.
    cbn [starts_with]. rewrite Hp. rewrite <- Hs'.
    pose proof (args_loop r (t :: ts) Hts Hwf ltac:(done) "" []) as E.
    rewrite !str_app_cons, !str_app_nil_l in E. rewrite E.
    cbn [mbind outcome_bind app].
    change (writeArg "" (commas (map text (t :: ts))))
      with ("" +:+ commas (map text (t :: ts))).
    rewrite str_app_nil_l. by apply follows_pipe.
Qed.

Lemma parse_text t : parses t.
Proof.
  induction t as [x|s|s|f ts IH] using term_rect'; intros Hwf r Hr.
  - by apply parse_name.
  - by apply parse_num.
  - cbn [text]. rewrite !str_app_assoc. by apply parse_str.
  - cbn [well_formed] in Hwf. apply andb_true_iff in Hwf as [Hf Hwf].
    by apply parse_call.
Qed.

Lemma ReplaceByte_free q new s :
  free_of q s = true -> ReplaceByte q new s = s.
Proof.
  induction s as [|c s IH]; [done|]. intros [Hc Hs]%free_of_cons.
  cbn [ReplaceByte]. by rewrite Hc, IH.
Qed.

Lemma ToString_tree t :
  well_formed t = true -> prints_back t = true -> ToString (tree t) = text t.
Proof.
  destruct t as [x|s|s|f ts]; cbn [well_formed prints_back]; intros Hw Hp;
    [done|done| |done].
  cbn [tree]. unfold Parser.ToString. cbn [etype valStr Str].
  rewrite (ReplaceByte_free "\") by done. by rewrite ReplaceByte_free.
Qed.


End RoundTrip.

(** * More of the parser *)

Section ParserExtras.
Import Go Parser.

Context (Letter : RangeTable) (FormatFloat : float64 -> string)
        (RangeTables : list RangeTable).

Local Abbreviation parseName := (Parser.parseName RangeTables).
Local Abbreviation ParseExpr := (Parser.ParseExpr Letter FormatFloat RangeTables).
Local Abbreviation parseArgList :=
  (Parser.parseArgList Letter FormatFloat RangeTables).
Local Abbreviation parseExprWithoutPipe :=
  (Parser.parseExprWithoutPipe Letter FormatFloat RangeTables).
Local Abbreviation pipe := (Parser.pipe Letter FormatFloat RangeTables).
Local Abbreviation parseArgList_args :=
  (Parser.parseArgList_args Letter FormatFloat RangeTables).
Local Abbreviation insertFirstArg := (Parser.insertFirstArg FormatFloat).
Local Abbreviation ToString := (Parser.ToString FormatFloat).
Local Abbreviation ends_name := (Parser.ends_name RangeTables).
Local Abbreviation parses := (Parser.parses Letter FormatFloat RangeTables).
Local Abbreviation len := String.length.

(** X1: [ParseExpr] returns on every input: it does not panic, the rest is
    no longer than the input, and without an error there is a node and the
    rest is shorter than the input. *)
Theorem ParseExpr_returns (e : string) :
  exists node rest err,
    ParseExpr e = Ret (node, rest, err) /\
    (len rest <= len e)%nat /\
    (err = None -> is_Some node /\ (len rest < len e)%nat).
Proof. exact (ParseExpr_progress Letter FormatFloat RangeTables e). Qed.

Lemma all_space_cons c ws :
  all_space (String c ws) -> IsSpace (byte c) = true /\ all_space ws.
Proof.
  intros H. split.
  - by apply (H 0%nat).
  - intros i d Hd. by apply (H (S i)).
Qed.

Lemma skipSpace_cons c t :
  IsSpace (byte c) = true -> t <> "" -> skipSpace (String c t) = skipSpace t.
Proof. intros Hc Ht. destruct t as [|d t]; [done|]. cbn [skipSpace]. by rewrite Hc. Qed.

Lemma skipSpace_app ws e :
  all_space ws -> e <> "" -> skipSpace (ws +:+ e) = skipSpace e.
Proof.
  intros Hws He. induction ws as [|c ws IH].
  - by rewrite str_app_nil_l.
  - apply all_space_cons in Hws as [Hc Hws]. rewrite str_app_cons.
    rewrite skipSpace_cons; [by apply IH|done|].
    intros [_ ->]%str_app_eq_nil. done.
Qed.

(** X2: blanks before an expression are passed over: they change nothing
    of the result. *)
Theorem ParseExpr_leading_blanks (ws e : string) :
  all_space ws -> e <> "" -> ParseExpr (ws +:+ e) = ParseExpr e.
Proof.
  intros Hws He. rewrite !ParseExpr_eq.
  rewrite (parseExprWithoutPipe_skip Letter FormatFloat RangeTables (ws +:+ e) e);
    [done|]. by apply skipSpace_app.
Qed.

Lemma quoteIndex_found q s i :
  (quoteIndex q s i < i + len s)%nat ->
  exists body rest, s = body +:+ String q rest /\ free_of q body = true /\
                    quoteIndex q s i = (i + len body)%nat.
Proof.
  revert i. induction s as [|c s IH]; intros i; cbn [quoteIndex String.length].
  - lia.
  - destruct (Ascii.eqb c q) eqn:E.
    + intros _. apply Ascii.eqb_eq in E as ->. exists "", s.
      split; [done|]. split; [done|]. cbn. lia.
    + intros H. destruct (IH (S i)) as (body & rest & -> & Hf & Hi); [lia|].
      exists (String c body), rest. rewrite str_app_cons. split; [done|].
      split; [|cbn [String.length]; lia].
      unfold free_of in *. cbn [all_bytes]. rewrite Hf, andb_true_r.
      apply negb_true_iff, Z.eqb_neq. intros Hb.
      apply Ascii.eqb_neq in E. apply E.
      unfold byte in Hb. apply N2Z.inj in Hb.
      by rewrite <- (ascii_N_embedding c), <- (ascii_N_embedding q), Hb.
Qed.

(** X3: [parseString] returns the text up to the next quote of the kind that
    opens the string and the input after that quote; with no such quote it
    reports the missing quote; and it returns no string in any other way. *)
Theorem parseString_spec :
  (forall q body rest,
     isQuote (byte q) = true -> free_of q body = true ->
     parseString (String q (body +:+ String q rest)) = Ret (body, rest, None)) /\
  (forall q body,
     isQuote (byte q) = true -> free_of q body = true ->
     parseString (String q body) = Ret ("", "", Some ErrMissingQuote)) /\
  (forall s v rest,
     parseString s = Ret (v, rest, None) ->
     exists q, isQuote (byte q) = true /\ free_of q v = true /\
               s = String q (v +:+ String q rest)).
Proof.
  split; [|split].
  - intros q body rest Hq Hb. unfold parseString. rewrite Hq. cbn [negb].
    rewrite (quoteIndex_app q body rest Hb), str_length_app.
    cbn [String.length].
    replace (len body =? len body + S (len rest))%nat with false
      by (symmetry; apply Nat.eqb_neq; lia).
    by rewrite str_take_app_length, str_drop_past.
  - intros q body Hq Hb. unfold parseString. rewrite Hq. cbn [negb].
    assert (forall i, quoteIndex q body i = (i + len body)%nat) as ->.
    { clear Hq. induction body as [|c body IH]; intros i;
        cbn [quoteIndex String.length]; [lia|].
      apply free_of_cons in Hb as [Hc Hb].
      rewrite Hc, IH by done. lia. }
    by rewrite Nat.eqb_refl.
  - intros s v rest H. destruct s as [|q t]; [done|]. unfold parseString in H.
    destruct (isQuote (byte q)) eqn:Hq; [|done]. cbn [negb] in H.
    destruct (quoteIndex q t 0 =? len t)%nat eqn:E; [done|].
    apply Nat.eqb_neq in E. pose proof (quoteIndex_bounds q t 0) as Hb.
    destruct (quoteIndex_found q t 0) as (body & r & -> & Hf & Hi); [lia|].
    rewrite Hi in H. cbn [Nat.add] in H.
    rewrite str_take_app_length, str_drop_past in H.
    inversion H; subst. by exists q.
Qed.

Lemma constRun_ends r : ends_const r = true -> constRun r 0 = 0%nat.
Proof.
  destruct r as [|c t]; [done|]. cbn [ends_const constRun].
  unfold isConstByte. intros H%negb_true_iff. by rewrite H.
Qed.

Lemma constRun_take s : forall i,
  all_bytes isConstByte (take (constRun s i - i) s) = true /\
  ends_const (drop (constRun s i - i) s) = true.
Proof.
  induction s as [|c s IH]; intros i; cbn [constRun].
  - by rewrite Nat.sub_diag.
  - destruct (isDigit (byte c) || _ || _ || _ || _ || _) eqn:E.
    + pose proof (constRun_bounds s (S i)) as Hb.
      replace (constRun s (S i) - i)%nat with (S (constRun s (S i) - S i)) by lia.
      cbn [take drop all_bytes]. destruct (IH (S i)) as [H1 H2].
      unfold isConstByte at 1. by rewrite E, H1, H2.
    + rewrite Nat.sub_diag. cbn [take drop all_bytes ends_const].
      unfold isConstByte. by rewrite E.
Qed.

(** X4: [parseConst] reads the longest run of the bytes of a constant and
    hands it to [ParseFloat]: on success it returns the value and the input
    after the run, on failure the value 0, the error and an empty rest. *)
Theorem parseConst_spec :
  (forall p r,
     all_bytes isConstByte p = true -> ends_const r = true ->
     parseConst (p +:+ r) =
     match ParseFloat p with
     | inl v => (v, r, None)
     | inr err => (F_zero false, "", Some (ErrParseFloat p err))
     end) /\
  (forall s v rest,
     parseConst s = (v, rest, None) ->
     exists p, s = p +:+ rest /\ all_bytes isConstByte p = true /\
               ends_const rest = true /\ ParseFloat p = inl v).
Proof.
  split.
  - intros p r Hp Hr. unfold parseConst.
    rewrite constRun_app by (by auto using constRun_ends).
    by rewrite str_take_app_length, str_drop_app_length.
  - intros s v rest H. unfold parseConst in H.
    destruct (constRun_take s 0) as [H1 H2]. rewrite Nat.sub_0_r in H1, H2.
    destruct (ParseFloat (take (constRun s 0) s)) as [v'|] eqn:E; [|done].
    inversion H; subst. exists (take (constRun s 0) s).
    by rewrite str_take_drop.
Qed.

Section WithTables.
Hypothesis Htab : tables_above_ascii RangeTables.

(** X5: piping into a name, which is no function, fails with the error of
    [insertFirstArg], and the result holds the expression on the left. *)
Theorem pipe_to_name (x y r : string) :
  is_identifier x = true -> is_identifier y = true -> follows r = true ->
  ParseExpr (x +:+ " | " +:+ y +:+ r)
  = Ret (Some (Name x), r, Some ErrPipeToNotAFunction).
Proof.
  intros Hx Hy Hr. rewrite ParseExpr_eq.
  rewrite parseExprWithoutPipe_identifier; [|done|].
  2:{ rewrite str_app_cons. apply ends_name_char; [done|]. tauto. }
  rewrite !str_app_cons, !str_app_nil_l.
  rewrite TrimLeftSpace_space, TrimLeftSpace_nonspace by (by vm_compute).
  cbn [starts_with]. replace (byte "|" =? byte "(") with false by done.
  cbn [mbind outcome_bind]. rewrite pipe_eq. cbv zeta.
  rewrite skipSpace_start by done. cbn [starts_with drop].
  replace (byte "|" =? byte "|") with true by done. cbn [negb].
  rewrite (parseExprWithoutPipe_skip Letter FormatFloat RangeTables _ (y +:+ r)).
  2:{ apply skipSpace_cons; [done|]. intros [-> _]%str_app_eq_nil. done. }
  rewrite parseExprWithoutPipe_identifier by (by eauto using follows_ends_name).
  rewrite (follows_trim r), (follows_paren r) by done.
  cbn [mbind outcome_bind]. done.
Qed.

Lemma lower_letter c :
  97 <= byte (lower c) <= 122 ->
  IsNameChar (byte c) = true /\ isConstStart (byte c) = false /\
  IsSpace (byte c) = false /\ isQuote (byte c) = false.
Proof.
  destruct c as [[] [] [] [] [] [] [] []]; vm_compute; intros [H1 H2];
    try (exfalso; by apply H1); try (exfalso; by apply H2); done.
Qed.

Lemma ToLower_word x w :
  ToLower x = w -> all_bytes (fun b => (97 <=? b) && (b <=? 122)) w = true ->
  w <> "" ->
  all_bytes IsNameChar x = true /\
  exists c t, x = String c t /\ isConstStart (byte c) = false /\
              IsSpace (byte c) = false /\ isQuote (byte c) = false.
Proof.
  intros Hx Hw Hne. split.
  - revert w Hx Hw Hne. induction x as [|c x IH]; intros w Hx Hw _; [done|].
    cbn [ToLower] in Hx. subst w. cbn [all_bytes] in *.
    apply andb_true_iff in Hw as [Hc Hw].
    destruct (lower_letter c) as (-> & _); [lia|]. cbn [andb].
    destruct x as [|d x]; [done|]. by apply (IH (ToLower (String d x))).
  - destruct x as [|c t]; [by subst w|]. exists c, t. split; [done|].
    cbn [ToLower] in Hx. subst w. cbn [all_bytes] in Hw.
    apply andb_true_iff in Hw as [Hc Hw].
    destruct (lower_letter c) as (_ & ? & ? & ?); [lia|done].
Qed.

(** X6: the words true and false, in any case of their letters, parse to
    a string node that holds the word as written both as its value and as
    its target. *)
Theorem bool_atom (x r : string) :
  ToLower x = "true" \/ ToLower x = "false" -> follows r = true ->
  ParseExpr (x +:+ r) = Ret (Some (BoolAtom x), r, None).
Proof.
  intros Hx Hr.
  assert (Hw : all_bytes IsNameChar x = true /\
    exists c t, x = String c t /\ isConstStart (byte c) = false /\
                IsSpace (byte c) = false /\ isQuote (byte c) = false).
  { destruct Hx as [Hx|Hx]; by apply (ToLower_word x _ Hx). }
  destruct Hw as (Hall & c & t & Hxt & Hc & Hsp & Hq).
  assert (Hb : String.eqb (ToLower x) "false" || String.eqb (ToLower x) "true"
               = true).
  { destruct Hx as [-> | ->]; done. }
  rewrite ParseExpr_eq.
  unfold Parser.parseExprWithoutPipe, Parser.parseExprWithoutPipe_.
  rewrite Hxt, str_app_cons, skipSpace_start, Hc, Hq by done.
  rewrite <- str_app_cons, <- Hxt.
  rewrite (parseName_identifier RangeTables x r)
    by (by eauto using follows_ends_name).
  rewrite Hb. cbn [mbind outcome_bind]. by apply follows_pipe.
Qed.

End WithTables.


Lemma parseName_loop_stop rest : forall i skip b k j b' k',
  Parser.parseName_loop RangeTables rest i skip b k = inl (j, b', k') ->
  0 <= b -> 0 <= k ->
  0 <= b' /\ 0 <= k' /\
  exists d, j = (i + d)%nat /\ (d <= len rest)%nat /\
    (d = len rest \/
     Parser.parseName_step RangeTables (drop d rest) b' k' = NameStop).
Proof.
  induction rest as [|c t IH]; intros i skip b k j b' k' H Hb Hk;
    cbn [Parser.parseName_loop] in H.
  - injection H as <- <- <-. split; [done|]. split; [done|]. exists 0%nat.
    split; [lia|]. split; [done|]. by left.
  - destruct skip as [|skip].
    + destruct (Parser.parseName_step RangeTables (String c t) b k)
        as [err| |w b2 k2] eqn:E; [done| |].
      * injection H as <- <- <-. split; [done|]. split; [done|]. exists 0%nat.
        split; [lia|]. split; [cbn; lia|]. by right.
      * assert (0 <= b2 /\ 0 <= k2) as [Hb2 Hk2].
        { unfold Parser.parseName_step in E.
          repeat case_match; try done; injection E as <- <- <-; lia. }
        destruct (IH _ _ _ _ _ _ _ H Hb2 Hk2) as (? & ? & d & -> & Hd & Hs).
        split; [done|]. split; [done|]. exists (S d). split; [lia|].
        split; [cbn; lia|]. destruct Hs as [->|Hs]; [by left | by right].
    + destruct (IH _ _ _ _ _ _ _ H Hb Hk) as (? & ? & d & -> & Hd & Hs).
      split; [done|]. split; [done|]. exists (S d). split; [lia|].
      split; [cbn; lia|]. destruct Hs as [->|Hs]; [by left | by right].
Qed.

(** X7: [parseName] returns, with an error, the whole input and an empty
    rest; without an error, a name and a rest that make up the input, the
    rest being empty or starting with a byte at which a name ends outside
    braces and brackets: no name character, no brace and no bracket. *)
Theorem parseName_spec (s name rest : string) (err : option ParseError) :
  parseName s = (name, rest, err) ->
  match err with
  | Some _ => name = s /\ rest = ""
  | None =>
    name +:+ rest = s /\
    (rest = "" \/ Parser.parseName_step RangeTables rest 0 0 = NameStop) /\
    (forall c t, rest = String c t ->
       IsNameChar (byte c) = false /\
       (byte c =? byte "{") = false /\ (byte c =? byte "}") = false /\
       (byte c =? byte "[") = false /\ (byte c =? byte "]") = false)
  end.
Proof.
  intros H.
  assert (Hstop : rest = "" \/
            Parser.parseName_step RangeTables rest 0 0 = NameStop ->
          forall c t, rest = String c t ->
            IsNameChar (byte c) = false /\
            (byte c =? byte "{") = false /\ (byte c =? byte "}") = false /\
            (byte c =? byte "[") = false /\ (byte c =? byte "]") = false).
  { intros Hs c t ->. destruct Hs as [?|Hs]; [done|].
    unfold Parser.parseName_step in Hs.
    cbn [Z.gtb Z.compare Z.eqb] in Hs.
    destruct (IsNameChar (byte c)); [done|].
    destruct (byte c =? byte "{"); [done|].
    destruct (byte c =? byte "}"); [done|].
    destruct (byte c =? byte "["); [done|].
    destruct (byte c =? byte "]"); [done|]. done. }
  pose proof (parseName_result RangeTables s name rest err H) as Hr.
  unfold Parser.parseName in H.
  destruct (Parser.parseName_loop RangeTables s 0 0 0 0) as [[[i b] k]|e] eqn:E.
  2:{ injection H as <- <- <-. done. }
  destruct (parseName_loop_stop _ _ _ _ _ _ _ _ E) as (Hb & Hk & d & Hi & Hd & Hs);
    [done..|]. cbn [Nat.add] in Hi. subst i.
  destruct (Z.gtb_spec b 0); [by injection H as <- <- <-|].
  destruct (Z.gtb_spec k 0); [by injection H as <- <- <-|].
  assert (b = 0) as -> by lia. assert (k = 0) as -> by lia.
  destruct (Nat.eqb_spec d (len s)) as [Heq|Hne].
  - injection H as <- <- <-. split; [by rewrite str_app_nil_r|].
    split; [by left|]. done.
  - injection H as <- <- <-. split; [done|].
    destruct Hs as [->|Hs]; [done|]. split; [by right|].
    apply Hstop. by right.
Qed.

Section Entries.
Hypothesis Htab : tables_above_ascii RangeTables.

Lemma ends_name_eq r : ends_name (String "=" r).
Proof.
  right. unfold Parser.parseName_step.
  replace (IsNameChar (byte "=")) with false by done.
  replace (byte "=" =? byte "{") with false by done.
  replace (byte "=" =? byte "}") with false by done.
  replace (byte "=" =? byte "[") with false by done.
  replace (byte "=" =? byte "]") with false by done.
  replace (byte "=" =? byte ",") with false by done.
  replace (is_blank (byte "=")) with false by done.
  replace (DecodeRuneInString (String "=" r)) with (byte "=", 1%nat)
    by (by vm_compute).
  rewrite Htab; [done|]. left. by vm_compute.
Qed.

Lemma parse_key k r :
  is_identifier k = true ->
  ParseExpr (k +:+ String "=" r) = Ret (Some (Name k), String "=" r, None).
Proof.
  intros Hk. rewrite ParseExpr_eq.
  rewrite parseExprWithoutPipe_identifier by (by auto using ends_name_eq).
  rewrite TrimLeftSpace_nonspace by (by vm_compute).
  cbn [starts_with]. replace (byte "=" =? byte "(") with false by done.
  cbn [mbind outcome_bind]. by apply pipe_no_bar.
Qed.

Lemma leaf_copy v :
  is_leaf v = true ->
  {| target := target (tree v); etype := etype (tree v); val := val (tree v);
     valStr := valStr (tree v); args := []; namedArgs := ∅; argString := "" |}
  = tree v /\
  negb (bool_decide (etype (tree v) = EtConst))
  && negb (bool_decide (etype (tree v) = EtName))
  && negb (bool_decide (etype (tree v) = EtString)) = false.
Proof. by destruct v. Qed.

Lemma consumed_app x r : consumed (x +:+ r) r = Ret x.
Proof.
  rewrite consumed_ok by (rewrite str_length_app; lia).
  replace (len (x +:+ r) - len r)%nat with (len x)
    by (rewrite str_length_app; lia).
  by rewrite str_take_app_length.
Qed.

(** One turn of the loop of [parseArgList] on an entry that a comma or the
    closing parenthesis follows. *)
Lemma entry_step a c rest buf pos nm :
  entry_ok a = true -> c = ","%char \/ c = ")"%char ->
  parseArgList_args buf pos nm (entry_text a +:+ String c rest) =
  if Ascii.eqb c ")" then
    Ret (writeArg buf (entry_text a), pos ++ positional [a], named nm [a],
         rest, None)
  else parseArgList_args (writeArg buf (entry_text a)) (pos ++ positional [a])
         (named nm [a]) rest.
Proof.
  intros Ha Hc. rewrite parseArgList_args_eq. cbv zeta.
  assert (Hf : follows (String c rest) = true)
    by (by destruct Hc as [-> | ->]).
  assert (Htl : TrimLeftSpace (String c rest) = String c rest)
    by (by apply follows_trim).
  destruct a as [t|k v]; cbn [entry_ok entry_text positional named] in *.
  - rewrite (parse_text Letter FormatFloat RangeTables Htab t Ha _ Hf).
    cbn [mbind outcome_bind].
    replace (bool_decide (etype (tree t) = EtName) && (byte c =? byte "="))
      with false
      by (destruct Hc as [-> | ->]; by rewrite andb_false_r).
    rewrite written. cbn [mbind outcome_bind]. rewrite Htl.
    by destruct Hc as [-> | ->].
  - apply andb_true_iff in Ha as [Ha Hl]. apply andb_true_iff in Ha as [Hk Hv].
    rewrite !str_app_assoc, !str_app_cons, !str_app_nil_l.
    rewrite parse_key by done. cbn [mbind outcome_bind etype Name].
    rewrite bool_decide_eq_true_2 by done.
    replace (byte "=" =? byte "=") with true by done. cbn [andb].
    rewrite (parse_text Letter FormatFloat RangeTables Htab v Hv _ Hf).
    cbn [mbind outcome_bind String.eqb].
    destruct (leaf_copy v Hl) as [-> ->].
    pose proof (consumed_app (k +:+ String "=" (text v)) (String c rest)) as E.
    rewrite !str_app_assoc, !str_app_cons in E. rewrite E.
    cbn [mbind outcome_bind target Name]. rewrite Htl.
    rewrite (right_id_L [] (++)).
    by destruct Hc as [-> | ->].
Qed.

(** The same turn on an entry at the end of the input. *)
Lemma entry_end a buf pos nm :
  entry_ok a = true ->
  parseArgList_args buf pos nm (entry_text a) = argError "" ErrMissingComma.
Proof.
  intros Ha. rewrite parseArgList_args_eq. cbv zeta.
  destruct a as [t|k v]; cbn [entry_ok entry_text] in *.
  - pose proof (parse_text Letter FormatFloat RangeTables Htab t Ha "" eq_refl) as E.
    rewrite str_app_nil_r in E. by rewrite E.
  - apply andb_true_iff in Ha as [Ha Hl]. apply andb_true_iff in Ha as [Hk Hv].
    rewrite !str_app_cons, !str_app_nil_l.
    rewrite parse_key by done. cbn [mbind outcome_bind etype Name].
    rewrite bool_decide_eq_true_2 by done.
    replace (byte "=" =? byte "=") with true by done. cbn [andb].
    pose proof (parse_text Letter FormatFloat RangeTables Htab v Hv "" eq_refl) as E.
    rewrite str_app_nil_r in E. by rewrite E.
Qed.

Lemma entry_text_start a r :
  entry_ok a = true ->
  exists c s, entry_text a +:+ r = String c s /\ IsSpace (byte c) = false /\
              (byte c =? byte ")") = false /\ byte c < 128.
Proof.
  destruct a as [t|k v]; cbn [entry_ok entry_text]; intros H.
  - by apply text_start.
  - apply andb_true_iff in H as [H _]. apply andb_true_iff in H as [H _].
    rewrite str_app_assoc.
    destruct (identifier_start k (("=" +:+ text v) +:+ r) H)
      as (c & t & -> & ? & ? & ? & _). eauto 10.
Qed.

Lemma entry_text_nonempty a : entry_ok a = true -> entry_text a <> "".
Proof.
  intros H. destruct (entry_text_start a "" H) as (c & s & Hs & _).
  rewrite str_app_nil_r in Hs. by rewrite Hs.
Qed.

Lemma positional_app l1 l2 : positional (l1 ++ l2) = positional l1 ++ positional l2.
Proof.
  induction l1 as [|[t|k v] l1 IH]; cbn [app positional]; by rewrite ?IH.
Qed.

Lemma named_app l1 l2 nm : named nm (l1 ++ l2) = named (named nm l1) l2.
Proof.
  revert nm. induction l1 as [|[t|k v] l1 IH]; intros nm; cbn [app named]; done.
Qed.

Lemma writeArg_commas buf x l :
  x <> "" -> l <> [] ->
  writeArg (writeArg buf x) (commas l) = writeArg buf (commas (x :: l)).
Proof.
  intros Hx Hl. rewrite commas_cons by done. by apply writeArg_writeArg.
Qed.

(** The loop of [parseArgList] over the entries [l] up to the last one,
    [a], which [tail] follows. *)
Lemma entries_loop tail a : forall l buf pos nm,
  forallb entry_ok l = true ->
  exists buf',
    parseArgList_args buf pos nm
      (commas (map entry_text (l ++ [a])) +:+ tail)
    = parseArgList_args buf' (pos ++ positional l) (named nm l)
        (entry_text a +:+ tail) /\
    writeArg buf' (entry_text a)
    = writeArg buf (commas (map entry_text (l ++ [a]))).
Proof.
  induction l as [|b l IH]; intros buf pos nm Hl.
  - exists buf. cbn [app map commas positional named].
    by rewrite (right_id_L [] (++)).
  - cbn [forallb] in Hl. apply andb_true_iff in Hl as [Hb Hl].
    destruct (IH (writeArg buf (entry_text b)) (pos ++ positional [b])
                (named nm [b]) Hl) as (buf' & E & Hw).
    exists buf'. split.
    + cbn [app map]. rewrite commas_cons by (by destruct l).
      rewrite !str_app_assoc, !str_app_cons, !str_app_nil_l.
      rewrite entry_step by (by auto). cbn [Ascii.eqb Bool.eqb].
      rewrite E. f_equal.
      * rewrite <- (assoc_L (++)). f_equal. by destruct b.
      * by destruct b.
    + rewrite Hw. cbn [app map].
      apply writeArg_commas; [by apply entry_text_nonempty | by destruct l].
Qed.

Lemma writeArg_empty x : writeArg "" x = x.
Proof. unfold writeArg. cbn. by rewrite str_app_nil_l. Qed.

(** [parseExprWithoutPipe] on a call in canonical text, whatever follows
    the closing parenthesis. *)
Lemma call_entries f l r :
  is_identifier f = true -> forallb entry_ok l = true ->
  parseExprWithoutPipe (f +:+ "(" +:+ commas (map entry_text l) +:+ ")" +:+ r)
  = Ret (Some (Func f (positional l) (named ∅ l) (commas (map entry_text l))),
         r, None).
Proof.
  intros Hf Hl.
  rewrite parseExprWithoutPipe_identifier; [|done|].
  2:{ rewrite str_app_cons. apply ends_name_char; [done|]. tauto. }
  rewrite !str_app_cons, !str_app_nil_l.
  rewrite TrimLeftSpace_nonspace by (by vm_compute).
  cbn [starts_with]. replace (byte "(" =? byte "(") with true by done.
  rewrite parseArgList_eq. cbv zeta. cbn [starts_with drop].
  replace (byte "(" =? byte "(") with true by done. cbn [negb].
  destruct (decide (l = [])) as [->|Hne].
  - cbn [map commas positional named]. rewrite str_app_nil_l.
    rewrite TrimLeftSpace_nonspace by (by vm_compute).
    cbn [starts_with drop]. replace (byte ")" =? byte ")") with true by done.
    done.
  - destruct (exists_last Hne) as (l' & a & ->).
    rewrite forallb_app in Hl. apply andb_true_iff in Hl as [Hl' Ha].
    cbn [forallb] in Ha. rewrite andb_true_r in Ha.
    assert (Hfirst : exists c s,
      commas (map entry_text (l' ++ [a])) +:+ String ")" r = String c s /\
      IsSpace (byte c) = false /\ (byte c =? byte ")") = false /\ byte c < 128).
    { destruct l' as [|b l'].
      - cbn [app map commas]. by apply entry_text_start.
      - cbn [app map]. rewrite commas_cons by (by destruct l').
        rewrite str_app_assoc. apply entry_text_start.
        cbn [forallb] in Hl'. by apply andb_true_iff in Hl' as [? _]. }
    destruct Hfirst as (c & s & Hs & Hsp & Hp & Hlt).
    rewrite Hs, TrimLeftSpace_nonspace by done.
    cbn [starts_with]. rewrite Hp. rewrite <- Hs.
    destruct (entries_loop (String ")" r) a l' "" [] ∅ Hl') as (buf' & E & Hw).
    rewrite E, entry_step by (by auto). cbn [Ascii.eqb Bool.eqb].
    cbn [mbind outcome_bind app]. rewrite Hw, writeArg_empty.
    by rewrite positional_app, named_app.
Qed.

(** X8: a call in canonical text with positional and named arguments parses
    to the call of the positional arguments in their order and of the named
    arguments by key, a later entry of a key replacing an earlier one; its
    argument string is the text between the parentheses. *)
Theorem call_with_named_arguments (f : string) (l : list entry) (r : string) :
  is_identifier f = true -> forallb entry_ok l = true -> follows r = true ->
  ParseExpr (f +:+ "(" +:+ commas (map entry_text l) +:+ ")" +:+ r)
  = Ret (Some (Func f (positional l) (named ∅ l) (commas (map entry_text l))),
         r, None).
Proof.
  intros Hf Hl Hr. rewrite ParseExpr_eq, call_entries by done.
  cbn [mbind outcome_bind]. by apply follows_pipe.
Qed.

(** X9: an argument list that ends before its closing parenthesis is
    rejected with the missing-comma error, and the call is returned without
    any argument. *)
Theorem unterminated_argument_list (f : string) (l : list entry) :
  is_identifier f = true -> forallb entry_ok l = true -> l <> [] ->
  ParseExpr (f +:+ "(" +:+ commas (map entry_text l))
  = Ret (Some (Func f [] ∅ ""), "", Some ErrMissingComma).
Proof.
  intros Hf Hl Hne. rewrite ParseExpr_eq.
  rewrite parseExprWithoutPipe_identifier; [|done|].
  2:{ rewrite str_app_cons. apply ends_name_char; [done|]. tauto. }
  rewrite !str_app_cons, !str_app_nil_l.
  rewrite TrimLeftSpace_nonspace by (by vm_compute).
  cbn [starts_with]. replace (byte "(" =? byte "(") with true by done.
  rewrite parseArgList_eq. cbv zeta. cbn [starts_with drop].
  replace (byte "(" =? byte "(") with true by done. cbn [negb].
  destruct (exists_last Hne) as (l' & a & ->).
  rewrite forallb_app in Hl. apply andb_true_iff in Hl as [Hl' Ha].
  cbn [forallb] in Ha. rewrite andb_true_r in Ha.
  assert (Hfirst : exists c s,
    commas (map entry_text (l' ++ [a])) = String c s /\
    IsSpace (byte c) = false /\ (byte c =? byte ")") = false /\ byte c < 128).
  { destruct l' as [|b l'].
    - cbn [app map commas].
      destruct (entry_text_start a "" Ha) as (c & s & Hs & ?).
      rewrite str_app_nil_r in Hs. eauto.
    - cbn [app map]. rewrite commas_cons by (by destruct l').
      apply entry_text_start.
      cbn [forallb] in Hl'. by apply andb_true_iff in Hl' as [? _]. }
  destruct Hfirst as (c & s & Hs & Hsp & Hp & Hlt).
  rewrite Hs, TrimLeftSpace_nonspace by done.
  cbn [starts_with]. rewrite Hp. rewrite <- Hs.
  destruct (entries_loop "" a l' "" [] ∅ Hl') as (buf' & E & _).
  rewrite !str_app_nil_r in E. rewrite E, entry_end by done.
  done.
Qed.

(** X10: a comma right before the closing parenthesis is rejected with the
    missing-argument error; the rest starts at the parenthesis. *)
Theorem trailing_comma_rejected (f : string) (l : list entry) (r : string) :
  is_identifier f = true -> forallb entry_ok l = true -> l <> [] ->
  ParseExpr (f +:+ "(" +:+ commas (map entry_text l) +:+ ",)" +:+ r)
  = Ret (Some (Func f [] ∅ ""), ")" +:+ r, Some ErrMissingArgument).
Proof.
  intros Hf Hl Hne. rewrite ParseExpr_eq.
  rewrite parseExprWithoutPipe_identifier; [|done|].
  2:{ rewrite str_app_cons. apply ends_name_char; [done|]. tauto. }
  rewrite !str_app_cons, !str_app_nil_l.
  rewrite TrimLeftSpace_nonspace by (by vm_compute).
  cbn [starts_with]. replace (byte "(" =? byte "(") with true by done.
  rewrite parseArgList_eq. cbv zeta. cbn [starts_with drop].
  replace (byte "(" =? byte "(") with true by done. cbn [negb].
  destruct (exists_last Hne) as (l' & a & ->).
  rewrite forallb_app in Hl. apply andb_true_iff in Hl as [Hl' Ha].
  cbn [forallb] in Ha. rewrite andb_true_r in Ha.
  assert (Hfirst : exists c s,
    commas (map entry_text (l' ++ [a])) +:+ String "," (String ")" r)
    = String c s /\
    IsSpace (byte c) = false /\ (byte c =? byte ")") = false /\ byte c < 128).
  { destruct l' as [|b l'].
    - cbn [app map commas]. by apply entry_text_start.
    - cbn [app map]. rewrite commas_cons by (by destruct l').
      rewrite str_app_assoc. apply entry_text_start.
      cbn [forallb] in Hl'. by apply andb_true_iff in Hl' as [? _]. }
  destruct Hfirst as (c & s & Hs & Hsp & Hp & Hlt).
  rewrite Hs, TrimLeftSpace_nonspace by done.
  cbn [starts_with]. rewrite Hp. rewrite <- Hs.
  destruct (entries_loop (String "," (String ")" r)) a l' "" [] ∅ Hl')
    as (buf' & E & _).
  rewrite E, entry_step by (by auto). cbn [Ascii.eqb Bool.eqb].
  rewrite parseArgList_args_eq. cbv zeta.
  assert (EP : ParseExpr (String ")" r)
               = Ret (None, String ")" r, Some ErrMissingArgument)).
  { rewrite ParseExpr_eq.
    unfold Parser.parseExprWithoutPipe, Parser.parseExprWithoutPipe_.
    rewrite skipSpace_start by done.
    replace (isConstStart (byte ")")) with false by done.
    replace (isQuote (byte ")")) with false by done.
    pose proof (parseName_identifier RangeTables "" (String ")" r) eq_refl) as En.
    rewrite str_app_nil_l in En. rewrite En; [done|].
    apply ends_name_char; [done|]. tauto. }
  rewrite EP. done.
Qed.

(** X11: a call as the value of a named argument is rejected with the
    bad-type error; the rest is the input after the value. *)
Theorem named_call_rejected (f k g : string) (ts : list term)
        (l : list entry) (r : string) :
  is_identifier f = true -> forallb entry_ok l = true ->
  is_identifier k = true -> well_formed (TCall g ts) = true ->
  ParseExpr (f +:+ "("
             +:+ commas (map entry_text (l ++ [Named k (TCall g ts)]))
             +:+ ")" +:+ r)
  = Ret (Some (Func f [] ∅ ""), ")" +:+ r, Some ErrBadType).
Proof.
  intros Hf Hl Hk Hg. rewrite ParseExpr_eq.
  rewrite parseExprWithoutPipe_identifier; [|done|].
  2:{ rewrite str_app_cons. apply ends_name_char; [done|]. tauto. }
  rewrite !str_app_cons, !str_app_nil_l.
  rewrite TrimLeftSpace_nonspace by (by vm_compute).
  cbn [starts_with]. replace (byte "(" =? byte "(") with true by done.
  rewrite parseArgList_eq. cbv zeta. cbn [starts_with drop].
  replace (byte "(" =? byte "(") with true by done. cbn [negb].
  set (a := Named k (TCall g ts)).
  assert (Hfirst : exists c s,
    commas (map entry_text (l ++ [a])) +:+ String ")" r = String c s /\
    IsSpace (byte c) = false /\ (byte c =? byte ")") = false /\ byte c < 128).
  { destruct l as [|b l].
    - cbn [app map commas entry_text a]. rewrite str_app_assoc.
      destruct (identifier_start k (("=" +:+ text (TCall g ts)) +:+ String ")" r) Hk)
        as (c & t & -> & ? & ? & ? & _). eauto 10.
    - cbn [app map]. rewrite commas_cons by (by destruct l).
      rewrite str_app_assoc. apply entry_text_start.
      cbn [forallb] in Hl. by apply andb_true_iff in Hl as [? _]. }
  destruct Hfirst as (c & s & Hs & Hsp & Hp & Hlt).
  rewrite Hs, TrimLeftSpace_nonspace by done.
  cbn [starts_with]. rewrite Hp. rewrite <- Hs.
  destruct (entries_loop (String ")" r) a l "" [] ∅ Hl) as (buf' & E & _).
  rewrite E. unfold a. cbn [entry_text].
  rewrite parseArgList_args_eq. cbv zeta.
  rewrite !str_app_assoc, !str_app_cons, !str_app_nil_l.
  rewrite parse_key by done. cbn [mbind outcome_bind etype Name].
  rewrite bool_decide_eq_true_2 by done.
  replace (byte "=" =? byte "=") with true by done. cbn [andb].
  pose proof (parse_text Letter FormatFloat RangeTables Htab (TCall g ts) Hg
                (String ")" r) eq_refl) as E'.
  rewrite E'. cbn [mbind outcome_bind String.eqb]. done.
Qed.

Lemma entries_of_terms ts :
  map entry_text (map Pos ts) = map text ts /\
  positional (map Pos ts) = map tree ts /\
  (forall nm, named nm (map Pos ts) = nm) /\
  forallb entry_ok (map Pos ts) = forallb well_formed ts.
Proof.
  induction ts as [|t ts (IH1 & IH2 & IH3 & IH4)]; [done|].
  cbn [map positional named forallb entry_ok entry_text].
  by rewrite IH1, IH2, IH4.
Qed.

(** [parseExprWithoutPipe] on the text of a call, whatever follows it. *)
Lemma call_without_pipe f ts r :
  well_formed (TCall f ts) = true ->
  parseExprWithoutPipe (text (TCall f ts) +:+ r)
  = Ret (Some (tree (TCall f ts)), r, None).
Proof.
  cbn [well_formed]. intros [Hf Hts]%andb_true_iff.
  destruct (entries_of_terms ts) as (E1 & E2 & E3 & E4).
  pose proof (call_entries f (map Pos ts) r Hf) as E.
  rewrite E1, E2, E3, E4 in E. cbn [text tree].
  rewrite !str_app_assoc. by apply E.
Qed.

Lemma string_without_pipe s r :
  free_of "'" s = true ->
  parseExprWithoutPipe (text (TStr s) +:+ r) = Ret (Some (Str s), r, None).
Proof.
  intros Hs. cbn [text]. rewrite !str_app_assoc.
  unfold Parser.parseExprWithoutPipe, Parser.parseExprWithoutPipe_.
  rewrite !str_app_cons, !str_app_nil_l, skipSpace_start by done.
  replace (isConstStart (byte "'")) with false by done.
  replace (isQuote (byte "'")) with true by done.
  unfold parseString. replace (isQuote (byte "'")) with true by done.
  cbn [negb]. rewrite quoteIndex_app by done.
  rewrite str_length_app. cbn [String.length].
  replace (len s =? len s + S (len r))%nat with false
    by (symmetry; apply Nat.eqb_neq; lia).
  by rewrite str_take_app_length, str_drop_past.
Qed.

Lemma pipe_skip exp e1 e2 :
  skipSpace e1 = skipSpace e2 -> pipe exp e1 = pipe exp e2.
Proof. intros H. rewrite (pipe_eq _ _ _ exp e1), (pipe_eq _ _ _ exp e2). by rewrite H. Qed.

Lemma insert_first f t ts :
  well_formed t = true -> prints_back t = true ->
  forallb well_formed ts = true ->
  insertFirstArg (tree (TCall f ts)) (tree t) = inl (tree (TCall f (t :: ts))).
Proof.
  intros Hw Hp Hts. unfold Parser.insertFirstArg. cbn [tree etype Func].
  rewrite bool_decide_eq_true_2 by done. cbn [negb]. f_equal.
  unfold Func. cbn [target etype val valStr args namedArgs argString app map].
  f_equal. rewrite (ToString_tree FormatFloat t) by done.
  destruct ts as [|t' ts]; [done|].
  rewrite commas_cons by done.
  destruct (commas (map text (t' :: ts))) eqn:E; [|done].
  exfalso. cbn [forallb] in Hts. apply andb_true_iff in Hts as [Ht' _].
  apply (text_nonempty t' Ht'). cbn [map] in E.
  destruct ts; cbn [map commas] in E; [done|].
  by apply str_app_eq_nil in E as [? _].
Qed.

Lemma pipe_text_start cs :
  cs <> [] -> exists r, pipe_text cs = String " " (String "|" (String " " r)).
Proof.
  destruct cs as [|[f ts] cs]; [done|]. intros _. cbn [pipe_text].
  rewrite !str_app_cons, !str_app_nil_l. eauto.
Qed.

Lemma pipe_chain cs : forall t,
  well_formed t = true -> prints_back t = true ->
  Forall (fun c => well_formed (TCall c.1 c.2) = true) cs ->
  pipe (tree t) (pipe_text cs) = Ret (Some (tree (piped t cs)), "", None).
Proof.
  induction cs as [|[f ts] cs IH]; intros t Hw Hp Hcs.
  - cbn [pipe_text piped]. by rewrite pipe_eq.
  - apply Forall_cons in Hcs as [Hc Hcs]. cbn [fst snd] in Hc.
    cbn [pipe_text piped]. rewrite !str_app_cons, !str_app_nil_l.
    rewrite pipe_eq. cbv zeta.
    rewrite skipSpace_cons, skipSpace_start by done.
    cbn [starts_with drop]. replace (byte "|" =? byte "|") with true by done.
    cbn [negb].
    rewrite (parseExprWithoutPipe_skip Letter FormatFloat RangeTables _
               (text (TCall f ts) +:+ pipe_text cs)).
    2:{ apply skipSpace_cons; [done|]. cbn [text].
        intros [E _]%str_app_eq_nil.
        pose proof Hc as Hc'. cbn [well_formed] in Hc'.
        apply andb_true_iff in Hc' as [Hf _].
        destruct f; [done|]. by rewrite str_app_cons in E. }
    rewrite call_without_pipe by done. cbn [mbind outcome_bind].
    pose proof Hc as Hc'. cbn [well_formed] in Hc'.
    apply andb_true_iff in Hc' as [Hf Hts].
    rewrite insert_first by done.
    apply IH; [|done|done]. cbn [well_formed forallb].
    by rewrite Hf, Hw, Hts.
Qed.

(** X12: a chain of pipes is the nested call: [t | f1(a1) | f2(a2)] parses to
    the tree of [f2(f1(t,a1),a2)], each call taking the expression on its
    left as its first argument, and the canonical text of the tree is the
    text of the nested call. *)
Theorem pipe_chain_is_nested_call (t : term) (cs : list (string * list term)) :
  well_formed t = true -> prints_back t = true ->
  Forall (fun c => well_formed (TCall c.1 c.2) = true) cs ->
  ParseExpr (text t +:+ pipe_text cs) = Ret (Some (tree (piped t cs)), "", None) /\
  ParseExpr (text (piped t cs)) = Ret (Some (tree (piped t cs)), "", None).
Proof.
  intros Hw Hp Hcs.
  assert (Hwp : forall t cs, well_formed t = true ->
    Forall (fun c => well_formed (TCall c.1 c.2) = true) cs ->
    well_formed (piped t cs) = true).
  { clear. intros t cs; revert t.
    induction cs as [|[f ts] cs IH]; intros t Hw Hcs; [done|].
    apply Forall_cons in Hcs as [Hc Hcs]. cbn [fst snd well_formed] in Hc.
    apply andb_true_iff in Hc as [Hf Hts]. cbn [piped]. apply IH; [|done].
    cbn [well_formed forallb]. by rewrite Hf, Hw, Hts. }
  split.
  2:{ pose proof (parse_text Letter FormatFloat RangeTables Htab (piped t cs)
                    (Hwp t cs Hw Hcs) "" eq_refl) as E.
      by rewrite str_app_nil_r in E. }
  destruct (decide (cs = [])) as [->|Hne].
  { cbn [pipe_text piped].
    apply (parse_text Letter FormatFloat RangeTables Htab t Hw "" eq_refl). }
  rewrite ParseExpr_eq.
  destruct (pipe_text_start cs Hne) as (r & Hr).
  destruct t as [x|s|s|f ts]; [| done | |].
  - cbn [text]. cbn [well_formed] in Hw.
    rewrite parseExprWithoutPipe_identifier; [|done|].
    2:{ rewrite Hr. apply ends_name_char; [done|]. tauto. }
    replace (starts_with (byte "(") (TrimLeftSpace (pipe_text cs))) with false.
    2:{ rewrite Hr, TrimLeftSpace_space.
        by rewrite TrimLeftSpace_nonspace by (by vm_compute). }
    cbn [mbind outcome_bind].
    rewrite (pipe_skip _ _ (pipe_text cs)).
    + by apply (pipe_chain cs (TName x)).
    + rewrite Hr, TrimLeftSpace_space.
      rewrite TrimLeftSpace_nonspace by (by vm_compute).
      by rewrite (skipSpace_cons " ") by done.
  - cbn [well_formed prints_back] in Hw, Hp.
    rewrite string_without_pipe by done. cbn [mbind outcome_bind].
    by apply (pipe_chain cs (TStr s)).
  - rewrite call_without_pipe by done. cbn [mbind outcome_bind].
    by apply (pipe_chain cs (TCall f ts)).
Qed.

End Entries.

End ParserExtras.

(** * More of the metric requests *)

Section MetricsExtras.
Import Go Parser.

Context (IntervalString : string -> Z -> Z + ParseError)
        (doGetIntArg : expr -> Z + ParseError).

Local Abbreviation Metrics := (Parser.Metrics IntervalString doGetIntArg).
Local Abbreviation adjust := (Parser.adjust IntervalString doGetIntArg).
Local Abbreviation GetIntervalArg := (Parser.GetIntervalArg IntervalString).
Local Abbreviation GetIntArg := (Parser.GetIntArg doGetIntArg).

Lemma expr_args_ind (P : expr -> Prop) :
  (forall e, Forall P (args e) -> P e) -> forall e, P e.
Proof.
  intros H. fix IH 1. intros [tg ty v vs ar nm ast]. apply H. cbn [args].
  induction ar as [|a ar IHar]; constructor; auto.
Qed.

Lemma names_func e : etype e = EtFunc -> names e = flat_map names (args e).
Proof. destruct e as [tg ty v vs ar nm ast]. cbn. by intros ->. Qed.

Lemma collect_ret l rs :
  collect Metrics l = Ret rs ->
  exists rss, Forall2 (fun a ra => Metrics a = Ret ra) l rss /\ rs = concat rss.
Proof.
  revert rs. induction l as [|a l IH]; intros rs; cbn [collect].
  - intros [= <-]. by exists [].
  - destruct (Metrics a) as [ra| |] eqn:Ea; cbn [mbind outcome_bind]; [|done..].
    destruct (collect Metrics l) as [rl| |]; cbn [mbind outcome_bind]; [|done..].
    intros [= <-]. destruct (IH rl eq_refl) as (rss & H & ->).
    exists (ra :: rss). split; [by constructor | done].
Qed.

(** The metric of every request that [adjust] returns is that of a request
    it was given. *)
Lemma adjust_metric e r rs :
  adjust e r = Ret rs ->
  forall q, q ∈ rs -> exists q0, q0 ∈ r /\ Metric q = Metric q0.
Proof.
  unfold Parser.adjust.
  assert (Hmap : forall f : MetricRequest -> MetricRequest,
    (forall q, Metric (f q) = Metric q) ->
    forall q, q ∈ map f r -> exists q0, q0 ∈ r /\ Metric q = Metric q0).
  { intros f Hf q (q0 & -> & Hq0)%list_elem_of_fmap. eauto. }
  repeat case_match; intros [= <-] q Hq;
    try (by apply elem_of_nil in Hq);
    try (by eapply Hmap; [|exact Hq]);
    try (by eauto).
  apply list_elem_of_In, in_flat_map in Hq as (v & Hv & Hq).
  apply in_map_iff in Hq as (i & <- & _).
  exists v. split; [by apply list_elem_of_In | done].
Qed.

(** X13: [Metrics] asks only for metrics that the expression names: the
    metric of every request is the target of a name node among the
    positional arguments of the tree. *)
Theorem Metrics_names (e : expr) (rs : list MetricRequest) :
  Metrics e = Ret rs -> forall q, q ∈ rs -> Metric q ∈ names e.
Proof.
  revert rs. induction e as [e IH] using expr_args_ind. intros rs H q Hq.
  destruct (etype e) eqn:Ety.
  - destruct e as [tg ty v vs ar nm ast]. cbn in Ety. subst ty. cbn in *.
    injection H as <-. apply list_elem_of_singleton in Hq as ->. cbn.
    by apply list_elem_of_singleton.
  - rewrite Metrics_func in H by done. rewrite names_func by done.
    destruct (collect Metrics (args e)) as [r| |] eqn:Ec;
      cbn [mbind outcome_bind] in H; [|done..].
    destruct (adjust_metric e r rs H q Hq) as (q0 & Hq0 & ->).
    apply collect_ret in Ec as (rss & Hrss & ->).
    apply list_elem_of_In, in_concat in Hq0 as (ra & Hra & Hq0).
    apply list_elem_of_In in Hra.
    clear H Hq. induction Hrss as [|a ra' l rss Ha Hrss IHl];
      [by apply elem_of_nil in Hra|].
    apply Forall_cons in IH as [IHa IH]. cbn [flat_map].
    apply elem_of_app. apply elem_of_cons in Hra as [->|Hra].
    + left. apply (IHa _ Ha). by apply list_elem_of_In.
    + right. by apply IHl.
  - destruct e as [tg ty v vs ar nm ast]. cbn in Ety. subst ty. cbn in *.
    injection H as <-. by apply elem_of_nil in Hq.
  - destruct e as [tg ty v vs ar nm ast]. cbn in Ety. subst ty. cbn in *.
    injection H as <-. by apply elem_of_nil in Hq.
Qed.

Lemma short_moving_func e :
  etype e = EtFunc ->
  short_moving e
  = existsb short_moving (args e)
    || (is_in (target e) moving_names && (length (args e) <? 2)%nat).
Proof. destruct e as [tg ty v vs ar nm ast]. cbn. by intros ->. Qed.

Lemma short_moving_leaf e : etype e <> EtFunc -> short_moving e = false.
Proof. destruct e as [tg [] v vs ar nm ast]; cbn; done. Qed.

Lemma Metrics_leaf e :
  etype e <> EtFunc -> exists rs, Metrics e = Ret rs.
Proof. destruct e as [tg [] v vs ar nm ast]; cbn; intros H; try done; eauto. Qed.

Lemma adjust_outcome e r :
  if is_in (target e) moving_names && (length (args e) <? 2)%nat
  then adjust e r = Panic
  else exists rs, adjust e r = Ret rs.
Proof.
  unfold Parser.adjust.
  destruct (String.eqb_spec (target e) "timeShift") as [->|_].
  { cbn. repeat case_match; eauto. }
  destruct (String.eqb_spec (target e) "timeStack") as [->|_].
  { cbn. repeat case_match; eauto. }
  destruct (is_in (target e) ["holtWintersForecast"; "holtWintersConfidenceBands";
                               "holtWintersAberration"]) eqn:Eh.
  { assert (is_in (target e) moving_names = false) as ->; [|cbn; eauto].
    unfold is_in in *. cbn [existsb] in *.
    repeat (apply orb_true_iff in Eh as [Eh|Eh]; try done);
      apply String.eqb_eq in Eh; by rewrite Eh. }
  change ["movingAverage"; "movingMedian"; "movingMin"; "movingMax"; "movingSum"]
    with moving_names.
  destruct (is_in (target e) moving_names); cbn [andb]; [|eauto].
  destruct (length (args e) <? 2)%nat eqn:El.
  - apply Nat.ltb_lt in El. rewrite (proj2 (lookup_ge_None (args e) 1)); [done|lia].
  - apply Nat.ltb_ge in El.
    destruct (lookup_lt_is_Some_2 (args e) 1) as [a ->]; [lia|].
    repeat case_match; eauto.
Qed.

Lemma collect_outcome l :
  Forall (fun e => if short_moving e then Metrics e = Panic
                   else exists rs, Metrics e = Ret rs) l ->
  if existsb short_moving l then collect Metrics l = Panic
  else exists rs, collect Metrics l = Ret rs.
Proof.
  induction 1 as [|a l Ha _ IH]; cbn [existsb collect]; [eauto|].
  destruct (short_moving a); cbn [orb].
  - by rewrite Ha.
  - destruct Ha as [ra ->]. cbn [mbind outcome_bind].
    destruct (existsb short_moving l).
    + by rewrite IH.
    + destruct IH as [rl ->]. cbn [mbind outcome_bind]. eauto.
Qed.

(** X14: [Metrics] returns on every tree but those that hold a call of a
    moving function with fewer than two arguments: there the read of
    [e.args[1]] is out of range, and [Metrics] panics. *)
Theorem Metrics_panics (e : expr) :
  if short_moving e then Metrics e = Panic
  else exists rs, Metrics e = Ret rs.
Proof.
  induction e as [e IH] using expr_args_ind.
  destruct (decide (etype e = EtFunc)) as [Ef|Ef].
  2:{ rewrite short_moving_leaf by done. by apply Metrics_leaf. }
  rewrite short_moving_func, Metrics_func by done.
  pose proof (collect_outcome _ IH) as Hc.
  destruct (existsb short_moving (args e)); cbn [orb].
  - by rewrite Hc.
  - destruct Hc as [r ->]. cbn [mbind outcome_bind]. apply adjust_outcome.
Qed.

(** X15: when the interval of [timeShift] or [timeStack] is missing, is no
    string, or does not parse, [Metrics] returns no request at all, not
    those of the arguments. *)
Theorem Metrics_interval_error (e : expr) (err : ParseError) :
  etype e = EtFunc -> target e = "timeShift" \/ target e = "timeStack" ->
  GetIntervalArg e 1 (-1) = inr err ->
  (Metrics e = (r ← collect Metrics (args e); Ret [])) /\
  ((length (args e) <= 1)%nat -> err = ErrMissingArgument) /\
  (forall a, args e !! 1%nat = Some a -> err = ErrBadType).
Proof.
  intros Ef Ht Hi. split; [|split].
  - rewrite Metrics_func by done. f_equal.
    unfold Parser.adjust. destruct Ht as [-> | ->]; cbn; by rewrite Hi.
  - intros Hl. unfold Parser.GetIntervalArg in Hi.
    apply Nat.leb_le in Hl. rewrite Hl in Hi. congruence.
  - intros a Ha. unfold Parser.GetIntervalArg in Hi. rewrite Ha in Hi.
    rewrite (proj2 (Nat.leb_gt _ _)) in Hi by (by eapply lookup_lt_Some).
    repeat case_match; congruence.
Qed.

Lemma wrap32_add_r a b : wrap32 (a + wrap32 b) = wrap32 (a + b).
Proof.
  unfold wrap32. f_equal.
  pose proof (Z.div_mod (b + 2 ^ 31) (2 ^ 32) ltac:(done)) as H.
  replace (a + ((b + 2 ^ 31) mod 2 ^ 32 - 2 ^ 31) + 2 ^ 31)
    with ((a + b + 2 ^ 31) + (- ((b + 2 ^ 31) / 2 ^ 32)) * 2 ^ 32) by lia.
  apply Z_mod_plus_full.
Qed.

(** X16: [timeStack] with a parsed interval [offs] and bounds [start] and
    [end] returns, for every request of the arguments and every [i] from
    [int32(start)] up to but not [int32(end)], the request moved by
    [i * offs]: none at all when [int32(end) <= int32(start)]. *)
Theorem Metrics_timeStack (e : expr) (offs start end_ : Z)
        (r : list MetricRequest) :
  etype e = EtFunc -> target e = "timeStack" ->
  GetIntervalArg e 1 (-1) = inl offs ->
  GetIntArg e 2 = inl start -> GetIntArg e 3 = inl end_ ->
  collect Metrics (args e) = Ret r ->
  exists rs,
    Metrics e = Ret rs /\
    rs = flat_map
           (fun v => map (fun i => {| Metric := Metric v;
                                      From := wrap32 (From v + i * offs);
                                      Until := wrap32 (Until v + i * offs) |})
                         (int_range (wrap32 start) (wrap32 end_))) r /\
    length rs = (length r * Z.to_nat (wrap32 end_ - wrap32 start))%nat.
Proof.
  intros Ef Ht Hi Hs He Hc. rewrite Metrics_func, Hc by done.
  cbn [mbind outcome_bind]. unfold Parser.adjust. rewrite Ht. cbn.
  rewrite Hi, Hs, He. eexists. split; [done|]. split.
  - apply flat_map_ext. intros v. apply map_ext. intros i.
    unfold shift. by rewrite !wrap32_add_r.
  - clear. induction r as [|v r IH]; [done|]. cbn [flat_map].
    rewrite length_app, IH, length_map. unfold int_range.
    rewrite length_map, length_seq. cbn [length]. lia.
Qed.

Lemma adjust_moving e r :
  is_in (target e) moving_names = true ->
  adjust e r =
  match args e !! 1%nat with
  | None => Panic
  | Some a1 =>
    if bool_decide (etype a1 = EtString) then
      match GetIntervalArg e 1 1 with
      | inr _ => Ret []
      | inl offs => Ret (map (shiftFrom (- offs)) r)
      end
    else Ret r
  end.
Proof.
  intros Hm. unfold Parser.adjust, is_in, moving_names in *.
  cbn [existsb] in Hm.
  repeat (apply orb_true_iff in Hm as [Hm|Hm]; try done);
    apply String.eqb_eq in Hm; rewrite Hm; reflexivity.
Qed.

(** X17: the Holt-Winters functions move the [From] of every request of
    their arguments back by seven days and leave the [Until]; a moving
    function moves the [From] back by its window when the window is a
    string that parses as an interval, and changes nothing when the window
    is no string. *)
Theorem Metrics_lookback (e : expr) :
  etype e = EtFunc ->
  (is_in (target e) holtWinters_names = true ->
   Metrics e =
   (r ← collect Metrics (args e);
    Ret (map (fun q => {| Metric := Metric q;
                          From := wrap32 (From q - 604800);
                          Until := Until q |}) r))) /\
  (forall a,
     is_in (target e) moving_names = true -> args e !! 1%nat = Some a ->
     (etype a <> EtString -> Metrics e = collect Metrics (args e)) /\
     (forall offs,
        etype a = EtString -> IntervalString (valStr a) 1 = inl offs ->
        Metrics e =
        (r ← collect Metrics (args e);
         Ret (map (fun q => {| Metric := Metric q;
                               From := wrap32 (From q - offs);
                               Until := Until q |}) r)))).
Proof.
  intros Ef. rewrite Metrics_func by done. split.
  - intros Hh.
    destruct (collect Metrics (args e)) as [r| |]; cbn [mbind outcome_bind];
      [|done..].
    unfold Parser.adjust, is_in, holtWinters_names in *. cbn [existsb] in Hh.
    repeat (apply orb_true_iff in Hh as [Hh|Hh]; try done);
      apply String.eqb_eq in Hh; rewrite Hh; cbn; f_equal;
      apply map_ext; intros q; unfold shiftFrom; f_equal; f_equal; lia.
  - intros a Hm Ha. split.
    + intros Hty.
      destruct (collect Metrics (args e)) as [r| |]; cbn [mbind outcome_bind];
        [|done..].
      rewrite adjust_moving, Ha by done. by rewrite bool_decide_eq_false_2.
    + intros offs Hty Hi.
      destruct (collect Metrics (args e)) as [r| |]; cbn [mbind outcome_bind];
        [|done..].
      assert (Hg : GetIntervalArg e 1 1 = inl offs).
      { unfold Parser.GetIntervalArg. rewrite Ha.
        rewrite (proj2 (Nat.leb_gt _ _)) by (by eapply lookup_lt_Some).
        rewrite bool_decide_eq_true_2 by done. cbn [negb]. by rewrite Hi. }
      rewrite adjust_moving, Ha, Hg by done.
      rewrite bool_decide_eq_true_2 by done.
      f_equal; apply map_ext; intros q; unfold shiftFrom; f_equal; f_equal; lia.
Qed.

Lemma plain_func e :
  etype e = EtFunc ->
  plain e = negb (is_in (target e) adjusted_names) && forallb plain (args e).
Proof. destruct e as [tg ty v vs ar nm ast]. cbn. by intros ->. Qed.

Lemma adjust_plain e r :
  is_in (target e) adjusted_names = false -> adjust e r = Ret r.
Proof.
  unfold is_in, adjusted_names, holtWinters_names, moving_names.
  cbn [app existsb]. intros H.
  repeat (apply orb_false_iff in H as [? H]).
  unfold Parser.adjust, is_in. cbn [existsb].
  repeat match goal with E : String.eqb _ _ = false |- _ => rewrite E; clear E end.
  done.
Qed.

(** X27: on a tree without any of the functions that [Metrics] adjusts,
    the requests are those of the names of the tree, one for every name
    node, in their order, with zero bounds. *)
Theorem Metrics_plain (e : expr) :
  plain e = true ->
  Metrics e
  = Ret (map (fun n => {| Metric := n; From := 0; Until := 0 |}) (names e)).
Proof.
  induction e as [e IH] using expr_args_ind. intros Hp.
  destruct (decide (etype e = EtFunc)) as [Ef|Ef].
  2:{ destruct e as [tg [] v vs ar nm ast]; cbn in *; done. }
  rewrite plain_func in Hp by done. apply andb_true_iff in Hp as [Hn Hall].
  apply negb_true_iff in Hn.
  rewrite Metrics_func, names_func by done.
  assert (Hc : collect Metrics (args e)
    = Ret (map (fun n => {| Metric := n; From := 0; Until := 0 |})
               (flat_map names (args e)))).
  { clear Hn Ef. induction (args e) as [|a l IHl]; [done|].
    apply Forall_cons in IH as [IHa IH]. cbn [forallb] in Hall.
    apply andb_true_iff in Hall as [Ha Hall].
    cbn [collect flat_map]. rewrite (IHa Ha), (IHl IH Hall).
    cbn [mbind outcome_bind]. by rewrite map_app. }
  rewrite Hc. cbn [mbind outcome_bind]. by apply adjust_plain.
Qed.

End MetricsExtras.

(** * Accessors and the function fft *)

Section AccessorExtras.
Import Go Parser.
Context (doGetIntArg : expr -> Z + ParseError).

Local Abbreviation GetIntArg_int := (Parser.GetIntArg_int doGetIntArg).
Local Abbreviation GetIntArgs := (Parser.GetIntArgs doGetIntArg).
Local Abbreviation GetIntArgs_loop := (Parser.GetIntArgs_loop doGetIntArg).

Lemma GetIntArg_int_lookup e (i : nat) a :
  args e !! i = Some a -> GetIntArg_int e (Z.of_nat i) = Ret (doGetIntArg a).
Proof.
  intros H. unfold Parser.GetIntArg_int, Parser.index.
  apply lookup_lt_Some in H as Hlt.
  rewrite (proj2 (Z.leb_gt _ _)) by lia.
  rewrite (proj2 (Z.ltb_ge _ _)) by lia.
  by rewrite Nat2Z.id, H.
Qed.

Lemma GetIntArg_int_negative e i : i < 0 -> GetIntArg_int e i = Panic.
Proof.
  intros H. unfold Parser.GetIntArg_int, Parser.index.
  rewrite (proj2 (Z.leb_gt _ _)) by lia.
  by rewrite (proj2 (Z.ltb_lt _ _)) by lia.
Qed.

Lemma GetIntArgs_loop_ok e l : forall (i : nat) ints zs,
  skipn i (args e) = l ->
  Forall2 (fun a z => doGetIntArg a = inl z) l zs ->
  GetIntArgs_loop e (length l) (Z.of_nat i) ints = Ret (inl (ints ++ zs)).
Proof.
  induction l as [|a l IH]; intros i ints zs Hd Hz.
  - apply Forall2_nil_inv_l in Hz as ->. by rewrite (right_id_L [] (++)).
  - apply Forall2_cons_inv_l in Hz as (z & zs' & Hz & Hzs & ->).
    cbn [length Parser.GetIntArgs_loop].
    assert (Ha : args e !! i = Some a).
    { rewrite <- (Nat.add_0_r i), <- lookup_drop, Hd. done. }
    rewrite (GetIntArg_int_lookup e i a Ha), Hz. cbn [mbind outcome_bind].
    replace (Z.of_nat i + 1) with (Z.of_nat (S i)) by lia.
    rewrite (IH (S i) (ints ++ [z]) zs'); [by rewrite <- (assoc_L (++))| |done].
    replace (S i) with (i + 1)%nat by lia.
    by rewrite <- (drop_drop (args e) 1 i), Hd.
Qed.

Lemma GetIntArgs_loop_err e pre : forall a post err (i : nat) ints zs k,
  skipn i (args e) = pre ++ a :: post ->
  Forall2 (fun a z => doGetIntArg a = inl z) pre zs ->
  doGetIntArg a = inr err -> (length pre < k)%nat ->
  GetIntArgs_loop e k (Z.of_nat i) ints = Ret (inr err).
Proof.
  induction pre as [|b pre IH]; intros a post err i ints zs k Hd Hz Ha Hk.
  - destruct k as [|k]; [cbn in Hk; lia|]. cbn [Parser.GetIntArgs_loop].
    assert (Hl : args e !! i = Some a).
    { rewrite <- (Nat.add_0_r i), <- lookup_drop, Hd. done. }
    by rewrite (GetIntArg_int_lookup e i a Hl), Ha.
  - apply Forall2_cons_inv_l in Hz as (z & zs' & Hz & Hzs & ->).
    destruct k as [|k]; [cbn in Hk; lia|]. cbn [Parser.GetIntArgs_loop].
    assert (Hl : args e !! i = Some b).
    { rewrite <- (Nat.add_0_r i), <- lookup_drop, Hd. done. }
    rewrite (GetIntArg_int_lookup e i b Hl), Hz. cbn [mbind outcome_bind].
    replace (Z.of_nat i + 1) with (Z.of_nat (S i)) by lia.
    apply (IH a post err (S i) _ zs'); [|done|done|cbn in Hk; lia].
    replace (S i) with (i + 1)%nat by lia.
    by rewrite <- (drop_drop (args e) 1 i), Hd.
Qed.

(** X18: [GetIntArgs(n)], for an index [n] of type [int]: a negative [n]
    passes the test of the length and the first round panics on
    [e.args[n]]; an [n] from the number of arguments on is answered with
    ErrMissingArgument; an [n] in range gives the integers of all the
    arguments from index [n] on, in order, or the error of the first of
    them that is no integer. *)
Theorem GetIntArgs_spec (e : expr) (n : Z) :
  (n < 0 -> GetIntArgs e n = Panic) /\
  (Z.of_nat (length (args e)) <= n ->
   GetIntArgs e n = Ret (inr ErrMissingArgument)) /\
  (forall zs,
     0 <= n < Z.of_nat (length (args e)) ->
     Forall2 (fun a z => doGetIntArg a = inl z)
             (skipn (Z.to_nat n) (args e)) zs ->
     GetIntArgs e n = Ret (inl zs)) /\
  (forall pre a post zs err,
     0 <= n ->
     skipn (Z.to_nat n) (args e) = pre ++ a :: post ->
     Forall2 (fun a z => doGetIntArg a = inl z) pre zs ->
     doGetIntArg a = inr err ->
     GetIntArgs e n = Ret (inr err)).
Proof.
  unfold Parser.GetIntArgs. split; [|split; [|split]].
  - intros H. rewrite (proj2 (Z.leb_gt _ _)) by lia.
    destruct (Z.to_nat (Z.of_nat (length (args e)) - n)) as [|k] eqn:Hk; [lia|].
    cbn [Parser.GetIntArgs_loop]. by rewrite GetIntArg_int_negative.
  - intros H. by rewrite (proj2 (Z.leb_le _ _)).
  - intros zs Hn Hz. rewrite (proj2 (Z.leb_gt _ _)) by lia.
    replace (Z.to_nat (Z.of_nat (length (args e)) - n))
      with (length (skipn (Z.to_nat n) (args e)))
      by (rewrite length_drop; lia).
    rewrite <- (Z2Nat.id n) at 2 by lia.
    by rewrite (GetIntArgs_loop_ok e _ (Z.to_nat n) [] zs eq_refl Hz).
  - intros pre a post zs err Hn Hd Hz Ha.
    assert (Hlen : (length pre < length (args e) - Z.to_nat n)%nat).
    { rewrite <- (length_drop (args e) (Z.to_nat n)), Hd, length_app. cbn. lia. }
    rewrite (proj2 (Z.leb_gt _ _)) by lia.
    rewrite <- (Z2Nat.id n) at 2 by lia.
    apply (GetIntArgs_loop_err e pre a post err (Z.to_nat n) [] zs);
      [done|done|done|lia].
Qed.

End AccessorExtras.

Section FFTExtras.
Import Go Parser FFT.
Context (F C Other E : Type)
        (GetSeriesArg : expr -> list (MetricData F Other) + E)
        (FFTReal : list F -> list C) (Abs Phase : C -> F)
        (doGetStringArg : expr -> string * option ParseError).

Local Abbreviation Do :=
  (FFT.Do F C Other E GetSeriesArg FFTReal Abs Phase doGetStringArg).
Local Abbreviation component_name :=
  (fun (a : MetricData F Other) (t : string) =>
     "fft(" +:+ Name _ _ a +:+ ",'" +:+ t +:+ "')").

(** X19: [fft] panics on a call without arguments and returns the error of
    the series argument; otherwise it returns, for every series in order,
    the components that the mode asks for, named [fft(name,'abs')] and
    [fft(name,'phase')]: both for the modes both, all and the empty one,
    which is also the mode of a call with one argument, and none, with no
    error, for any mode it does not know. In each component no value is
    absent. *)
Theorem fft_Do_modes (e : expr) :
  (args e = [] -> Do e = Panic) /\
  (forall a0 rest err,
     args e = a0 :: rest -> GetSeriesArg a0 = inr err ->
     Do e = Ret (inr err)) /\
  (forall a0 rest arg,
     args e = a0 :: rest -> GetSeriesArg a0 = inl arg ->
     let mode := (GetStringArg doGetStringArg e 1).1 in
     exists rs,
       Do e = Ret (inl rs) /\
       (rest = [] -> mode = "") /\
       (mode = "" \/ mode = "both" \/ mode = "all" ->
        map (Name _ _) rs
        = flat_map (fun a => [component_name a "abs";
                              component_name a "phase"]) arg) /\
       (mode = "abs" ->
        map (Name _ _) rs = map (fun a => component_name a "abs") arg) /\
       (mode = "phase" ->
        map (Name _ _) rs = map (fun a => component_name a "phase") arg) /\
       (mode <> "" -> mode <> "both" -> mode <> "all" -> mode <> "abs" ->
        mode <> "phase" -> rs = []) /\
       Forall (fun r =>
                 length (IsAbsent _ _ r) = length (Values _ _ r) /\
                 Forall (fun b => b = false) (IsAbsent _ _ r)) rs).
Proof.
  unfold FFT.Do. split; [|split].
  - by intros ->.
  - intros a0 rest err -> ->. done.
  - intros a0 rest arg He Ha. rewrite He, Ha. clear Ha.
    destruct (GetStringArg doGetStringArg e 1) as [m o] eqn:Em.
    cbn [fst]. eexists. split; [done|].
    split; [|split; [|split; [|split; [|split]]]].
    + intros ->. unfold Parser.GetStringArg in Em. rewrite He in Em. cbn in Em.
      by injection Em as <- _.
    + intros Hm. induction arg as [|a arg IH]; [done|]. cbn [flat_map map].
      rewrite map_app, IH. by destruct Hm as [->|[->| ->]].
    + intros ->. induction arg as [|a arg IH]; [done|]. cbn [flat_map map].
      by rewrite map_app, IH.
    + intros ->. induction arg as [|a arg IH]; [done|]. cbn [flat_map map].
      by rewrite map_app, IH.
    + intros H1 H2 H3 H4 H5. induction arg as [|a arg IH]; [done|].
      cbn [flat_map]. rewrite IH, (right_id_L [] (++)). unfold components.
      apply String.eqb_neq in H1, H2, H3, H4, H5.
      by rewrite H1, H2, H3, H4, H5.
    + apply Forall_flat_map, Forall_forall. intros a _. unfold components.
      assert (Hc : forall t f,
        (fun r : MetricData F Other =>
           length (IsAbsent _ _ r) = length (Values _ _ r) /\
           Forall (fun b => b = false) (IsAbsent _ _ r))
          (extractComponent F C Other a (FFTReal (Values _ _ a)) t f)).
      { intros t f. cbn. rewrite repeat_length, length_map. split; [done|].
        apply Forall_forall. intros b Hb%list_elem_of_In.
        by apply repeat_spec in Hb. }
      repeat case_match; repeat constructor; apply Hc.
Qed.

End FFTExtras.

(** * More of the zipper *)

Section ZipperExtras.
Import Go Zipper.

Context (ErrNotFound_Error : string -> string).

Local Abbreviation Error := (Zipper.Error ErrNotFound_Error).
Local Abbreviation errorsFanIn := (Zipper.errorsFanIn ErrNotFound_Error).
Local Abbreviation countErrors := (Zipper.countErrors ErrNotFound_Error).

Lemma countErrors_swap x y errs (counts : gmap string Z) nn :
  countErrors (x :: y :: errs) counts nn = countErrors (y :: x :: errs) counts nn.
Proof.
  cbn [Zipper.countErrors]. f_equal.
  - destruct (decide (Error x = Error y)) as [E|E].
    + rewrite E. by rewrite !lookup_insert_eq.
    + rewrite !lookup_insert_ne by done. by apply insert_insert_ne.
  - by destruct (isErrNotFound x), (isErrNotFound y).
Qed.

Lemma countErrors_perm errs1 errs2 :
  errs1 ≡ₚ errs2 ->
  forall counts nn, countErrors errs1 counts nn = countErrors errs2 counts nn.
Proof.
  induction 1 as [|x l1 l2 _ IH|x y l|l1 l2 l3 _ IH1 _ IH2]; intros counts nn.
  - done.
  - cbn [Zipper.countErrors]. apply IH.
  - apply countErrors_swap.
  - by rewrite IH1.
Qed.

(** X20: the reconciled error does not depend on the order of the errors of
    the backends. *)
Theorem errorsFanIn_order (errs1 errs2 : list error) (n : Z) :
  errs1 ≡ₚ errs2 -> errorsFanIn errs1 n = errorsFanIn errs2 n.
Proof.
  intros H. unfold Zipper.errorsFanIn.
  rewrite (Permutation_length H), (countErrors_perm _ _ H). done.
Qed.

End ZipperExtras.

(** ** The choice of the backends *)

Section BackendExtras.
Import Go Zipper.

Lemma getTopLevelDomain_free a b :
  Parser.free_of "." a = true ->
  getTopLevelDomain (a +:+ "." +:+ b) = a /\ getTopLevelDomain a = a.
Proof.
  induction a as [|c a IH]; intros Ha.
  - by rewrite !str_app_nil_l.
  - apply free_of_cons in Ha as [Hc Ha]. rewrite str_app_cons.
    cbn [getTopLevelDomain]. rewrite Hc.
    destruct (IH Ha) as [-> ->]. done.
Qed.

Lemma getTopLevelDomain_split target :
  Parser.free_of "." (getTopLevelDomain target) = true /\
  (target = getTopLevelDomain target \/
   exists rest, target = getTopLevelDomain target +:+ "." +:+ rest).
Proof.
  induction target as [|c t [IH1 IH2]]; [by split; [|left]|].
  cbn [getTopLevelDomain]. destruct (Ascii.eqb c ".") eqn:E.
  - apply Ascii.eqb_eq in E as ->. split; [done|]. right. exists t.
    by rewrite !str_app_nil_l.
  - split.
    + unfold Parser.free_of in *. cbn [Parser.all_bytes]. rewrite IH1, andb_true_r.
      apply negb_true_iff, Z.eqb_neq. intros Hb. apply Ascii.eqb_neq in E.
      apply E. unfold byte in Hb. apply N2Z.inj in Hb.
      by rewrite <- (ascii_N_embedding c), <- (ascii_N_embedding "."), Hb.
    + destruct IH2 as [IH2|[rest IH2]].
      * left. by rewrite <- IH2.
      * right. exists rest. rewrite str_app_cons. by rewrite <- IH2.
Qed.

(** X21: the top-level domain of a target is its text before the first dot,
    the whole target when it holds no dot. *)
Theorem getTopLevelDomain_spec :
  (forall a b, Parser.free_of "." a = true ->
               getTopLevelDomain (a +:+ "." +:+ b) = a /\
               getTopLevelDomain a = a) /\
  (forall target,
     Parser.free_of "." (getTopLevelDomain target) = true /\
     (target = getTopLevelDomain target \/
      exists rest, target = getTopLevelDomain target +:+ "." +:+ rest)).
Proof. split; [exact getTopLevelDomain_free | exact getTopLevelDomain_split]. Qed.

Section Backends.
Context (Backend : Type) (GetServerAddress : Backend -> string).

Local Abbreviation addBackends := (Zipper.addBackends Backend GetServerAddress).
Local Abbreviation addTargets := (Zipper.addTargets Backend GetServerAddress).
Local Abbreviation filterByTopLevelDomain :=
  (Zipper.filterByTopLevelDomain Backend GetServerAddress).
Local Abbreviation filterBackendByTopLevelDomain :=
  (Zipper.filterBackendByTopLevelDomain Backend GetServerAddress).
Local Abbreviation addr := GetServerAddress.

Lemma addBackends_inv l : forall (already : gmap string bool) all already' all',
  (forall s, default false (already !! s) = true <-> s ∈ map addr all) ->
  NoDup (map addr all) ->
  addBackends l already all = Ret (already', all') ->
  (forall s, default false (already' !! s) = true <-> s ∈ map addr all') /\
  NoDup (map addr all') /\
  (forall b, b ∈ all' -> b ∈ all \/ Some b ∈ l) /\
  (forall b, b ∈ all -> b ∈ all') /\
  (forall b, Some b ∈ l -> addr b ∈ map addr all').
Proof.
  induction l as [|[a|] l IH]; intros already all already' all' Hal Hnd H;
    cbn [Zipper.addBackends] in H; [| |done].
  - injection H as <- <-. split; [done|]. split; [done|].
    split; [by left|]. split; [done|]. by intros b ?%elem_of_nil.
  - destruct (default false (already !! addr a)) eqn:Hin; cbn [negb] in H.
    + destruct (IH _ _ _ _ Hal Hnd H) as (H1 & H2 & H3 & H4 & H5).
      split; [done|]. split; [done|]. split; [|split; [done|]].
      * intros b Hb. destruct (H3 b Hb) as [?|?]; [by left|].
        right. by apply list_elem_of_further.
      * intros b [[= ->]|Hb]%elem_of_cons; [|by apply H5].
        apply Hal in Hin. apply list_elem_of_fmap in Hin as (b0 & -> & Hb0).
        apply list_elem_of_fmap. exists b0. split; [done|]. by apply H4.
    + apply IH in H as (H1 & H2 & H3 & H4 & H5).
      * split; [done|]. split; [done|]. split; [|split].
        -- intros b Hb. destruct (H3 b Hb) as [[?|Hba]%elem_of_app|?].
           ++ by left.
           ++ apply list_elem_of_singleton in Hba as ->. right. by left.
           ++ right. by apply list_elem_of_further.
        -- intros b Hb. apply H4, elem_of_app. by left.
        -- intros b [[= ->]|Hb]%elem_of_cons; [|by apply H5].
           apply list_elem_of_fmap. exists a. split; [done|].
           apply H4, elem_of_app. right. by apply list_elem_of_singleton.
      * intros s. rewrite map_app, elem_of_app. cbn [map].
        rewrite list_elem_of_singleton, <- Hal.
        destruct (decide (s = addr a)) as [->|Hne].
        -- rewrite lookup_insert_eq. cbn. tauto.
        -- rewrite lookup_insert_ne by done. tauto.
      * rewrite map_app. apply NoDup_app. split; [done|]. split.
        -- intros s Hs [= ->]%list_elem_of_singleton.
           apply Hal in Hs. congruence.
        -- apply NoDup_singleton.
Qed.

Lemma addTargets_inv (m : gmap string (list (option Backend))) tlds :
  forall (already : gmap string bool) all already' all',
  (forall s, default false (already !! s) = true <-> s ∈ map addr all) ->
  NoDup (map addr all) ->
  addTargets m tlds already all = Ret (already', all') ->
  (forall s, default false (already' !! s) = true <-> s ∈ map addr all') /\
  NoDup (map addr all') /\
  (forall b, b ∈ all' ->
     b ∈ all \/ exists t, t ∈ tlds /\ Some b ∈ default [] (m !! t)) /\
  (forall b, b ∈ all -> b ∈ all') /\
  (forall t b, t ∈ tlds -> Some b ∈ default [] (m !! t) ->
     addr b ∈ map addr all').
Proof.
  induction tlds as [|t tlds IH]; intros already all already' all' Hal Hnd H;
    cbn [Zipper.addTargets] in H.
  - injection H as <- <-. split; [done|]. split; [done|].
    split; [by left|]. split; [done|]. by intros t b ?%elem_of_nil.
  - destruct (addBackends (default [] (m !! t)) already all)
      as [[al1 all1]| |] eqn:E1; cbn [mbind outcome_bind] in H; [|done..].
    destruct (addBackends_inv _ _ _ _ _ Hal Hnd E1) as (A1 & A2 & A3 & A4 & A5).
    destruct (IH _ _ _ _ A1 A2 H) as (H1 & H2 & H3 & H4 & H5).
    split; [done|]. split; [done|]. split; [|split].
    + intros b Hb. destruct (H3 b Hb) as [Hb1|(t' & Ht' & Hb')].
      * destruct (A3 b Hb1) as [?|?]; [by left|]. right. exists t.
        split; [by left | done].
      * right. exists t'. split; [by apply list_elem_of_further | done].
    + intros b Hb. by apply H4, A4.
    + intros t' b [->|Ht']%elem_of_cons Hb; [|by eapply H5].
      apply A5 in Hb. apply list_elem_of_fmap in Hb as (b0 & -> & Hb0).
      apply list_elem_of_fmap. exists b0. split; [done|]. by apply H4.
Qed.

(** What [filterByTopLevelDomain] returns, by the value in the cache. *)
Lemma filterByTopLevelDomain_cases (backends : list Backend)
        (targetTLDs : list string) :
  (forall m bs,
     filterByTopLevelDomain (Tlds Backend (Some m)) backends targetTLDs = Ret bs ->
     NoDup (map addr bs) /\
     (forall b, b ∈ bs ->
        exists t, t ∈ targetTLDs /\ Some b ∈ default [] (m !! t)) /\
     (forall t b, t ∈ targetTLDs -> Some b ∈ default [] (m !! t) ->
        addr b ∈ map addr bs)) /\
  filterByTopLevelDomain (Tlds Backend None) backends targetTLDs = Ret backends /\
  filterByTopLevelDomain (NoTlds Backend) backends targetTLDs = Ret [].
Proof.
  split; [|split].
  - intros m bs H. unfold Zipper.filterByTopLevelDomain in H.
    destruct (addTargets m targetTLDs ∅ []) as [[al all]| |] eqn:E;
      cbn [mbind outcome_bind] in H; [|done..].
    injection H as <-.
    destruct (addTargets_inv m targetTLDs ∅ [] al all) as (_ & H2 & H3 & _ & H5);
      [intros s; cbn; rewrite lookup_empty, elem_of_nil; cbn; split; done
      |apply NoDup_nil_2|done|].
    split; [done|]. split; [|done].
    intros b Hb. by destruct (H3 b Hb) as [?%elem_of_nil|?].
  - done.
  - unfold Zipper.filterByTopLevelDomain.
    assert (forall l (al : gmap string bool) all,
              addTargets ∅ l al all = Ret (al, all)) as ->; [|done].
    induction l as [|t l IH]; intros al all; [done|].
    cbn [Zipper.addTargets]. rewrite lookup_empty. cbn. apply IH.
Qed.

(** X22: the backends that [filterByTopLevelDomain] takes from the cache
    have pairwise different server addresses; each is cached for the
    top-level domain of a target; and the address of every backend cached
    for such a domain is the address of one that is returned. With the
    nil map in the cache the backends given are returned as they are, and
    with no map in the cache none is. *)
Theorem filterByTopLevelDomain_spec (backends : list Backend)
        (targetTLDs : list string) :
  (forall m bs,
     filterByTopLevelDomain (Tlds Backend (Some m)) backends targetTLDs = Ret bs ->
     NoDup (map addr bs) /\
     (forall b, b ∈ bs ->
        exists t, t ∈ targetTLDs /\ Some b ∈ default [] (m !! t)) /\
     (forall t b, t ∈ targetTLDs -> Some b ∈ default [] (m !! t) ->
        addr b ∈ map addr bs)) /\
  filterByTopLevelDomain (Tlds Backend None) backends targetTLDs = Ret backends /\
  filterByTopLevelDomain (NoTlds Backend) backends targetTLDs = Ret [].
Proof. exact (filterByTopLevelDomain_cases backends targetTLDs). Qed.

(** X23: [filterBackendByTopLevelDomain] returns all the backends of the
    application unless the cache names backends for the top-level domain
    of a target; so it returns no empty list unless the application has no
    backend. *)
Theorem filterBackendByTopLevelDomain_fallback (cache : tldCache Backend)
        (backends : list Backend) (targets : list string)
        (bs : list Backend) :
  filterBackendByTopLevelDomain cache backends targets = Ret bs ->
  (backends <> [] -> bs <> []) /\
  (bs = backends \/
   exists m, cache = Tlds Backend (Some m) /\
     forall b, b ∈ bs ->
       exists target, target ∈ targets /\
         Some b ∈ default [] (m !! getTopLevelDomain target)).
Proof.
  unfold Zipper.filterBackendByTopLevelDomain. intros H.
  destruct (filterByTopLevelDomain cache backends (map getTopLevelDomain targets))
    as [bs0| |] eqn:E; cbn [mbind outcome_bind] in H; [|done..].
  destruct (0 <? length bs0)%nat eqn:El; injection H as <-.
  - apply Nat.ltb_lt in El. split; [intros _ ->; cbn in El; lia|].
    destruct cache as [|[m|]].
    + destruct (filterByTopLevelDomain_cases backends (map getTopLevelDomain targets))
        as (_ & _ & E'). rewrite E' in E. injection E as <-. cbn in El. lia.
    + right. exists m. split; [done|].
      destruct (filterByTopLevelDomain_cases backends (map getTopLevelDomain targets))
        as (Hs & _). destruct (Hs m bs0 E) as (_ & H2 & _).
      intros b Hb. destruct (H2 b Hb) as (t & Ht & Hbt).
      apply list_elem_of_fmap in Ht as (target & -> & Ht). eauto.
    + left. cbn in E. by injection E.
  - split; [done | by left].
Qed.

End Backends.

End BackendExtras.

(** ** The handlers *)

Section HandlerExtras.
Import Go Zipper.

Context (ErrNotFound_Error : string -> string).

Local Abbreviation Error := (Zipper.Error ErrNotFound_Error).
Local Abbreviation errorsFanIn := (Zipper.errorsFanIn ErrNotFound_Error).

Section Info.
Context (Infos : Type) (InfoEncoder_v2 InfoEncoder_json : Infos -> string + error).

Local Abbreviation infoHandler :=
  (Zipper.infoHandler ErrNotFound_Error Infos InfoEncoder_v2 InfoEncoder_json).

(** X24: the info handler answers 200 exactly when the form parses, the
    target is not empty, the reconciler reports no error, the format is
    protobuf, protobuf3, json or empty (which is JSON here, not pickle) and
    the encoder succeeds; it answers 400 to a form that does not parse or
    an empty target, 404 to a reconciled NotFound and 500 to every other
    reconciled error. *)
Theorem infoHandler_status (formError : bool) (target format : string)
        (infos : Infos) (errs : list error) (n : Z) :
  let resp := infoHandler formError target format infos errs n in
  (code resp = StatusOK <->
   formError = false /\ target <> "" /\ errorsFanIn errs n = None /\
   (((format = "protobuf" \/ format = "protobuf3") /\
     exists blob, InfoEncoder_v2 infos = inl blob /\
                  resp = write_blob contentTypeProtobuf blob) \/
    ((format = "" \/ format = "json") /\
     exists blob, InfoEncoder_json infos = inl blob /\
                  resp = write_blob contentTypeJSON blob))) /\
  (formError = true \/ target = "" -> code resp = StatusBadRequest) /\
  (forall err,
     formError = false -> target <> "" -> errorsFanIn errs n = Some err ->
     resp = if As_ErrNotFound err
            then http_Error "info: not found" StatusNotFound
            else http_Error "info: error processing request"
                            StatusInternalServerError).
Proof.
  intros resp. subst resp. unfold Zipper.infoHandler.
  split; [|split].
  - destruct formError; [split; [done|]; by intros (? & _)|].
    destruct (String.eqb_spec target "") as [->|Ht];
      [split; [done|]; by intros (_ & ? & _)|].
    destruct (errorsFanIn errs n) as [err|].
    { split; [by destruct (As_ErrNotFound err)|]. by intros (_ & _ & ? & _). }
    unfold formatTypeProtobuf, formatTypeProtobuf3, formatTypeEmpty,
      formatTypeJSON.
    destruct (String.eqb_spec format "protobuf") as [->|H1]; cbn [orb].
    { destruct (InfoEncoder_v2 infos) as [blob|e].
      - split; [|done]. intros _. do 3 (split; [done|]). left.
        split; [by left|]. eauto.
      - split; [done|]. intros (_ & _ & _ & [(_ & blob & ? & _)|([?|?] & _)]);
          done. }
    destruct (String.eqb_spec format "protobuf3") as [->|H2]; cbn [orb].
    { destruct (InfoEncoder_v2 infos) as [blob|e].
      - split; [|done]. intros _. do 3 (split; [done|]). left.
        split; [by right|]. eauto.
      - split; [done|]. intros (_ & _ & _ & [(_ & blob & ? & _)|([?|?] & _)]);
          done. }
    destruct (String.eqb_spec format "") as [->|H3]; cbn [orb].
    { destruct (InfoEncoder_json infos) as [blob|e].
      - split; [|done]. intros _. do 3 (split; [done|]). right.
        split; [by left|]. eauto.
      - split; [done|]. intros (_ & _ & _ & [([?|?] & _)|(_ & blob & ? & _)]);
          done. }
    destruct (String.eqb_spec format "json") as [->|H4]; cbn [orb].
    { destruct (InfoEncoder_json infos) as [blob|e].
      - split; [|done]. intros _. do 3 (split; [done|]). right.
        split; [by right|]. eauto.
      - split; [done|]. intros (_ & _ & _ & [([?|?] & _)|(_ & blob & ? & _)]);
          done. }
    split; [done|]. intros (_ & _ & _ & [([?|?] & _)|([?|?] & _)]); done.
  - intros [-> | ->]; [done|]. by destruct formError.
  - intros err -> Ht Herr. rewrite Herr.
    by destruct (String.eqb_spec target "").
Qed.

End Info.

Lemma wrap32_congr a b :
  (a - b) mod 2 ^ 32 = 0 -> Parser.wrap32 a = Parser.wrap32 b.
Proof.
  intros H. unfold Parser.wrap32. f_equal.
  apply Z.mod_divide in H; [|done]. destruct H as [k Hk].
  replace (a + 2 ^ 31) with (b + 2 ^ 31 + k * 2 ^ 32) by lia.
  apply Z_mod_plus_full.
Qed.

(** X25: the checks of the render handler before it asks any backend,
    each answered with 400 and in this order: a form that does not parse,
    whatever the parameters; then a from that is no decimal integer of 64
    bits, whatever until and the target; then such an until, whatever the
    target; then an empty target. Otherwise the request holds the target
    and from and until cut to 32 bits, so that values that differ by a
    multiple of 2^32 make the same request. *)
Theorem renderRequest_spec (target from until : string) :
  renderRequest true target from until
  = inl (http_Error "failed to parse arguments" StatusBadRequest) /\
  (forall e,
     ParseInt from = inr e ->
     renderRequest false target from until
     = inl (http_Error "from is not a integer" StatusBadRequest)) /\
  (forall f e,
     ParseInt from = inl f -> ParseInt until = inr e ->
     renderRequest false target from until
     = inl (http_Error "until is not a integer" StatusBadRequest)) /\
  (forall f u,
     ParseInt from = inl f -> ParseInt until = inl u ->
     renderRequest false target from until
     = if String.eqb target ""
       then inl (http_Error "empty target" StatusBadRequest)
       else inr (target, Parser.wrap32 f, Parser.wrap32 u)) /\
  (forall formError from' f f',
     ParseInt from = inl f -> ParseInt from' = inl f' ->
     (f - f') mod 2 ^ 32 = 0 ->
     renderRequest formError target from until
     = renderRequest formError target from' until).
Proof.
  unfold renderRequest. split; [done|]. split; [|split; [|split]].
  - by intros e ->.
  - by intros f e -> ->.
  - by intros f u -> ->.
  - intros formError from' f f' -> -> Hm. by rewrite (wrap32_congr f f' Hm).
Qed.

Section Handlers.
Context (Matches : Type) (sortByPath : Matches -> Matches)
        (FindEncoder_v2 FindEncoder_json : Matches -> string + error)
        (FindEncoderV0_9 FindEncoderV1_0 : Matches -> string + error)
        (MetricData : Type)
        (RenderEncoder_v2 RenderEncoder_json RenderEncoder_pickle
           : MetricData -> string + error)
        (GraphiteWeb09Compatibility : bool).

Local Abbreviation findHandler :=
  (Zipper.findHandler ErrNotFound_Error Matches sortByPath FindEncoder_v2
     FindEncoder_json FindEncoderV0_9 FindEncoderV1_0
     GraphiteWeb09Compatibility).
Local Abbreviation renderHandler :=
  (Zipper.renderHandler ErrNotFound_Error MetricData RenderEncoder_v2
     RenderEncoder_json RenderEncoder_pickle).

(** X26: the render handler answers 200 exactly when the reconciler reports
    no error, the format is protobuf, protobuf3, json, pickle or empty
    (which is pickle) and the encoder of the format succeeds; the find
    handler does so under the same condition on its encoders, but also
    when the reconciled error is a NotFound. *)
Theorem handlers_success (format : string) (matches : Matches)
        (series : MetricData) (errs : list error) (n : Z) :
  (code (renderHandler format series errs n) = StatusOK <->
   errorsFanIn errs n = None /\
   (((format = "protobuf" \/ format = "protobuf3") /\
     exists blob, RenderEncoder_v2 series = inl blob) \/
    (format = "json" /\ exists blob, RenderEncoder_json series = inl blob) \/
    ((format = "" \/ format = "pickle") /\
     exists blob, RenderEncoder_pickle series = inl blob))) /\
  (code (findHandler format matches errs n) = StatusOK <->
   (errorsFanIn errs n = None \/
    exists s, errorsFanIn errs n = Some (ErrNotFound s)) /\
   (((format = "protobuf" \/ format = "protobuf3") /\
     exists blob, FindEncoder_v2 (sortByPath matches) = inl blob) \/
    (format = "json" /\
     exists blob, FindEncoder_json (sortByPath matches) = inl blob) \/
    ((format = "" \/ format = "pickle") /\
     exists blob,
       (if GraphiteWeb09Compatibility
        then FindEncoderV0_9 (sortByPath matches)
        else FindEncoderV1_0 (sortByPath matches)) = inl blob))).
Proof.
  assert (Hfmt : forall (X : Type) (e1 e2 e3 : string + error),
    code (let '(contentType, encoded) :=
            if String.eqb format formatTypeProtobuf
               || String.eqb format formatTypeProtobuf3
            then (contentTypeProtobuf, e1)
            else if String.eqb format formatTypeJSON
            then (contentTypeJSON, e2)
            else if String.eqb format formatTypeEmpty
                    || String.eqb format formatTypePickle
            then (contentTypePickle, e3)
            else ("", inr (errorString ("Unknown format " +:+ format))) in
          match encoded with
          | inr _ => http_Error "error marshaling data" StatusInternalServerError
          | inl blob => write_blob contentType blob
          end) = StatusOK <->
    ((format = "protobuf" \/ format = "protobuf3") /\
     exists blob, e1 = inl blob) \/
    (format = "json" /\ exists blob, e2 = inl blob) \/
    ((format = "" \/ format = "pickle") /\ exists blob, e3 = inl blob)).
  { intros _ e1 e2 e3.
    unfold formatTypeProtobuf, formatTypeProtobuf3, formatTypeEmpty,
      formatTypeJSON, formatTypePickle.
    destruct (String.eqb_spec format "protobuf") as [->|H1]; cbn [orb].
    { destruct e1; cbn; split; try done; [eauto 6|].
      intros [[_ [? ?]]|[[? _]|[[?|?] _]]]; done. }
    destruct (String.eqb_spec format "protobuf3") as [->|H2]; cbn [orb].
    { destruct e1; cbn; split; try done; [eauto 6|].
      intros [[_ [? ?]]|[[? _]|[[?|?] _]]]; done. }
    destruct (String.eqb_spec format "json") as [->|H3].
    { destruct e2; cbn; split; try done; [eauto 6|].
      intros [[[?|?] _]|[[_ [? ?]]|[[?|?] _]]]; done. }
    destruct (String.eqb_spec format "") as [->|H4]; cbn [orb].
    { destruct e3; cbn; split; try done; [eauto 6|].
      intros [[[?|?] _]|[[? _]|[_ [? ?]]]]; done. }
    destruct (String.eqb_spec format "pickle") as [->|H5].
    { destruct e3; cbn; split; try done; [eauto 6|].
      intros [[[?|?] _]|[[? _]|[_ [? ?]]]]; done. }
    cbn. split; [done|]. intros [[[?|?] _]|[[? _]|[[?|?] _]]]; done. }
  split.
  - unfold Zipper.renderHandler, Zipper.renderEncode.
    destruct (errorsFanIn errs n) as [err|].
    + split; [by destruct (As_ErrNotFound err)|]. by intros [? _].
    + rewrite (Hfmt unit). tauto.
  - unfold Zipper.findHandler, Zipper.findEncode.
    destruct (errorsFanIn errs n) as [err|] eqn:Herr.
    + destruct (errorsFanIn_kind _ _ _ _ Herr) as [[s ->]|[s ->]];
        cbn [As_ErrNotFound].
      * cbv zeta. rewrite (Hfmt unit). split; [|tauto].
        intros H. split; [|done]. right. eauto.
      * split; [done|]. intros [[?|[s' ?]] _]; done.
    + cbv zeta. rewrite (Hfmt unit). split; [|tauto]. intros H.
      split; [by left | done].
Qed.

End Handlers.

End HandlerExtras.

Lemma C10_witness :
  Parser.ParseExpr (fun _ => false) (fun _ => "0") [] "   "
  = Ret (None, " ", Some Parser.ErrMissingArgument).
Proof.
  apply (proj2 (C10_empty_and_blank_input (fun _ => false) (fun _ => "0") [])
               "  " " "%char).
  - intros r _. reflexivity.
  - intros i c H. destruct i as [|[|[|i]]]; simpl in H; inversion H; reflexivity.
Defined.



(** C7 as stated fails: after [+1] a letter follows, and the input is no
    name, since [+] is no name character; the parser returns no node. *)
Lemma C7_counterexample :
  ~ (exists (Letter : Go.RangeTable) (FormatFloat : Go.float64 -> string)
            (node : Parser.expr) (rest : string) (err : option Parser.ParseError),
       Parser.ParseExpr Letter FormatFloat [] "+1foo" = Ret (Some node, rest, err)).
Proof.
  intros (Letter & FormatFloat & node & rest & err & H).
  vm_compute in H. discriminate H.
Qed.

(** [-1foo] is lexed as a name from the sign on. *)
Lemma C7_witness :
  Parser.isConstStart (Go.byte "-") = true /\
  exists node rest' err,
    Parser.parseExprWithoutPipe (fun _ => false) (fun _ => "0") [] "-1foo"
    = Ret (Some node, rest', err) /\
    Parser.target node = "-1foo" /\
    (Parser.etype node = Parser.EtName \/ Parser.etype node = Parser.EtFunc).
Proof.
  split; [reflexivity|].
  pose proof (proj1 (C7_const_or_name (fun _ => false) (fun _ => "0") [])
                "-1foo" "-"%char "1foo" eq_refl eq_refl) as H.
  vm_compute in H. destruct H as [_ H]. exact H.
Defined.



(** ** Instances of the further properties *)

Lemma ParseExpr_leading_blanks_witness :
  Parser.ParseExpr (fun _ => false) (fun _ => "0") [] "  a(b)"
  = Parser.ParseExpr (fun _ => false) (fun _ => "0") [] "a(b)".
Proof.
  apply (ParseExpr_leading_blanks (fun _ => false) (fun _ => "0") [] "  " "a(b)").
  - intros i c H. destruct i as [|[|i]]; simpl in H; inversion H; reflexivity.
  - discriminate.
Defined.

Lemma parseString_spec_witness :
  Parser.parseString "'a b' rest" = Ret ("a b", " rest", None).
Proof.
  apply (proj1 parseString_spec "'"%char "a b" " rest"); reflexivity.
Defined.

Lemma parseConst_spec_witness :
  Parser.parseConst "1e3,x"
  = match Go.ParseFloat "1e3" with
    | inl v => (v, ",x", None)
    | inr err => (Go.F_zero false, "", Some (Parser.ErrParseFloat "1e3" err))
    end.
Proof.
  apply (proj1 parseConst_spec "1e3" ",x"); reflexivity.
Defined.

Lemma pipe_to_name_witness :
  Parser.ParseExpr (fun _ => false) (fun _ => "0") [] "a | b"
  = Ret (Some (Parser.Name "a"), "", Some Parser.ErrPipeToNotAFunction).
Proof.
  apply (pipe_to_name (fun _ => false) (fun _ => "0") []
           ltac:(intros r _; reflexivity) "a" "b" ""); reflexivity.
Defined.

Lemma bool_atom_witness :
  Parser.ParseExpr (fun _ => false) (fun _ => "0") [] "True"
  = Ret (Some (Parser.BoolAtom "True"), "", None).
Proof.
  apply (bool_atom (fun _ => false) (fun _ => "0") []
           ltac:(intros r _; reflexivity) "True" "");
    [left|]; reflexivity.
Defined.

Lemma parseName_spec_witness :
  "a.b{c,d}" +:+ ",x" = "a.b{c,d},x".
Proof.
  apply (parseName_spec [] "a.b{c,d},x" "a.b{c,d}" ",x" None eq_refl).
Defined.

Lemma call_with_named_arguments_witness :
  exists node,
    Parser.ParseExpr (fun _ => false) (fun _ => "0") [] "f(a,k=1,b,k='s')"
    = Ret (Some node, "", None) /\
    Parser.args node = [Parser.Name "a"; Parser.Name "b"] /\
    Parser.namedArgs node !! "k" = Some (Parser.Str "s") /\
    Parser.argString node = "a,k=1,b,k='s'".
Proof.
  eexists. split.
  - apply (call_with_named_arguments (fun _ => false) (fun _ => "0") []
             ltac:(intros r _; reflexivity) "f"
             [Parser.Pos (Parser.TName "a");
              Parser.Named "k" (Parser.TNum "1");
              Parser.Pos (Parser.TName "b");
              Parser.Named "k" (Parser.TStr "s")] ""); reflexivity.
  - split; [reflexivity|]. split; [|reflexivity]. vm_compute. reflexivity.
Defined.

Lemma unterminated_argument_list_witness :
  Parser.ParseExpr (fun _ => false) (fun _ => "0") [] "f(a,k=1"
  = Ret (Some (Parser.Func "f" [] ∅ ""), "", Some Parser.ErrMissingComma).
Proof.
  apply (unterminated_argument_list (fun _ => false) (fun _ => "0") []
           ltac:(intros r _; reflexivity) "f"
           [Parser.Pos (Parser.TName "a"); Parser.Named "k" (Parser.TNum "1")]);
    [reflexivity | reflexivity | discriminate].
Defined.

Lemma trailing_comma_rejected_witness :
  Parser.ParseExpr (fun _ => false) (fun _ => "0") [] "f(a,)"
  = Ret (Some (Parser.Func "f" [] ∅ ""), ")", Some Parser.ErrMissingArgument).
Proof.
  apply (trailing_comma_rejected (fun _ => false) (fun _ => "0") []
           ltac:(intros r _; reflexivity) "f"
           [Parser.Pos (Parser.TName "a")] "");
    [reflexivity | reflexivity | discriminate].
Defined.

Lemma named_call_rejected_witness :
  Parser.ParseExpr (fun _ => false) (fun _ => "0") [] "f(a,k=g(x))"
  = Ret (Some (Parser.Func "f" [] ∅ ""), ")", Some Parser.ErrBadType).
Proof.
  apply (named_call_rejected (fun _ => false) (fun _ => "0") []
           ltac:(intros r _; reflexivity) "f" "k" "g" [Parser.TName "x"]
           [Parser.Pos (Parser.TName "a")] ""); reflexivity.
Defined.

Lemma pipe_chain_is_nested_call_witness :
  Parser.ParseExpr (fun _ => false) (fun _ => "0") [] "a | f(b) | g(1,'s')"
  = Parser.ParseExpr (fun _ => false) (fun _ => "0") [] "g(f(a,b),1,'s')".
Proof.
  destruct (pipe_chain_is_nested_call (fun _ => false) (fun _ => "0") []
              ltac:(intros r _; reflexivity) (Parser.TName "a")
              [("f", [Parser.TName "b"]);
               ("g", [Parser.TNum "1"; Parser.TStr "s"])]
              eq_refl eq_refl) as [H1 H2].
  - repeat constructor.
  - exact (eq_trans H1 (eq_sym H2)).
Defined.

Lemma Metrics_names_witness :
  "metric" ∈ Parser.names
    (Parser.Func "timeShift" [Parser.Name "metric"; Parser.Str "1h"] ∅
       "metric,'1h'").
Proof.
  apply (Metrics_names (fun _ _ => inl (-3600)) (fun _ => inr Parser.ErrBadType)
           (Parser.Func "timeShift" [Parser.Name "metric"; Parser.Str "1h"] ∅
              "metric,'1h'")
           [{| Parser.Metric := "metric"; Parser.From := -3600;
               Parser.Until := -3600 |}]
           eq_refl
           {| Parser.Metric := "metric"; Parser.From := -3600;
              Parser.Until := -3600 |}).
  apply list_elem_of_here.
Defined.

Lemma Metrics_panics_witness :
  Parser.Metrics (fun _ _ => inl 60) (fun _ => inr Parser.ErrBadType)
    (Parser.Func "sum"
       [Parser.Func "movingAverage" [Parser.Name "a"] ∅ "a"] ∅
       "movingAverage(a)")
  = Panic.
Proof.
  exact (Metrics_panics (fun _ _ => inl 60) (fun _ => inr Parser.ErrBadType)
           (Parser.Func "sum"
              [Parser.Func "movingAverage" [Parser.Name "a"] ∅ "a"] ∅
              "movingAverage(a)")).
Defined.

Lemma Metrics_interval_error_witness :
  Parser.Metrics (fun _ _ => inl 60) (fun _ => inr Parser.ErrBadType)
    (Parser.Func "timeShift" [Parser.Name "a"] ∅ "a")
  = Ret [].
Proof.
  apply (proj1 (Metrics_interval_error (fun _ _ => inl 60)
                  (fun _ => inr Parser.ErrBadType)
                  (Parser.Func "timeShift" [Parser.Name "a"] ∅ "a")
                  Parser.ErrMissingArgument eq_refl (or_introl eq_refl)
                  eq_refl)).
Defined.

Lemma Metrics_timeStack_witness :
  exists rs,
    Parser.Metrics (fun _ _ => inl (-86400))
      (fun a => match Parser.val a with
                | Go.F_zero _ => inl 0
                | _ => inl 3
                end)
      (Parser.Func "timeStack"
         [Parser.Name "a"; Parser.Str "1d"; Parser.Const (Go.F_zero false);
          Parser.Const (Go.F_finite false 6755399441055744 (-51))] ∅
         "a,'1d',0,3")
    = Ret rs /\ length rs = 3%nat.
Proof.
  destruct (Metrics_timeStack (fun _ _ => inl (-86400))
              (fun a => match Parser.val a with
                        | Go.F_zero _ => inl 0
                        | _ => inl 3
                        end)
              (Parser.Func "timeStack"
                 [Parser.Name "a"; Parser.Str "1d";
                  Parser.Const (Go.F_zero false);
                  Parser.Const (Go.F_finite false 6755399441055744 (-51))] ∅
                 "a,'1d',0,3")
              (-86400) 0 3
              [{| Parser.Metric := "a"; Parser.From := 0; Parser.Until := 0 |}]
              eq_refl eq_refl eq_refl eq_refl eq_refl eq_refl)
    as (rs & H1 & _ & H3).
  exists rs. split; [exact H1 | exact H3].
Defined.

Lemma Metrics_lookback_witness :
  Parser.Metrics (fun _ _ => inl 60) (fun _ => inr Parser.ErrBadType)
    (Parser.Func "holtWintersForecast" [Parser.Name "a"] ∅ "a")
  = Ret [{| Parser.Metric := "a"; Parser.From := -604800; Parser.Until := 0 |}].
Proof.
  apply (proj1 (Metrics_lookback (fun _ _ => inl 60)
                  (fun _ => inr Parser.ErrBadType)
                  (Parser.Func "holtWintersForecast" [Parser.Name "a"] ∅ "a")
                  eq_refl) eq_refl).
Defined.

Lemma GetIntArgs_spec_witness :
  Parser.GetIntArgs (fun a => inl (Z.of_nat (String.length (Parser.target a))))
    (Parser.Func "f" [Parser.Name "x"; Parser.Name "ab"; Parser.Name "abc"] ∅
       "x,ab,abc") 1
  = Ret (inl [2; 3]) /\
  Parser.GetIntArgs (fun a => inl (Z.of_nat (String.length (Parser.target a))))
    (Parser.Func "f" [Parser.Name "x"; Parser.Name "ab"; Parser.Name "abc"] ∅
       "x,ab,abc") (-1)
  = Panic.
Proof.
  split.
  - apply (proj1 (proj2 (proj2 (GetIntArgs_spec
             (fun a => inl (Z.of_nat (String.length (Parser.target a))))
             (Parser.Func "f" [Parser.Name "x"; Parser.Name "ab";
                               Parser.Name "abc"] ∅ "x,ab,abc") 1)))).
    + simpl. lia.
    + repeat constructor.
  - apply (proj1 (GetIntArgs_spec
             (fun a => inl (Z.of_nat (String.length (Parser.target a))))
             (Parser.Func "f" [Parser.Name "x"; Parser.Name "ab";
                               Parser.Name "abc"] ∅ "x,ab,abc") (-1))).
    lia.
Defined.

Lemma fft_Do_modes_witness :
  FFT.Do Z Z unit unit
    (fun _ => inl [{| FFT.Name := "m"; FFT.Values := [1; 2];
                      FFT.IsAbsent := [false; true]; FFT.other := tt |}])
    (fun l => l) Z.abs Z.sgn (fun a => (Parser.valStr a, None))
    (Parser.Func "fft" [Parser.Name "m"; Parser.Str "spectrum"] ∅
       "m,'spectrum'")
  = Ret (inl []).
Proof.
  destruct (proj2 (proj2 (fft_Do_modes Z Z unit unit
    (fun _ => inl [{| FFT.Name := "m"; FFT.Values := [1; 2];
                      FFT.IsAbsent := [false; true]; FFT.other := tt |}])
    (fun l => l) Z.abs Z.sgn (fun a => (Parser.valStr a, None))
    (Parser.Func "fft" [Parser.Name "m"; Parser.Str "spectrum"] ∅
       "m,'spectrum'")))
    (Parser.Name "m") [Parser.Str "spectrum"] _ eq_refl eq_refl)
    as (rs & H & _ & _ & _ & _ & Hnone & _).
  rewrite H. rewrite Hnone; [reflexivity|discriminate..].
Defined.

Lemma errorsFanIn_order_witness :
  Zipper.errorsFanIn id [Zipper.ErrNotFound "a"; Zipper.errorString "timeout"] 2
  = Zipper.errorsFanIn id [Zipper.errorString "timeout"; Zipper.ErrNotFound "a"] 2.
Proof.
  apply (errorsFanIn_order id). apply perm_swap.
Defined.

Lemma getTopLevelDomain_spec_witness :
  Zipper.getTopLevelDomain "carbon.agents.host" = "carbon".
Proof.
  apply (proj1 (proj1 getTopLevelDomain_spec "carbon" "agents.host" eq_refl)).
Defined.

Lemma filterByTopLevelDomain_spec_witness :
  NoDup (map id ["h1"; "h2"]).
Proof.
  assert (H : Zipper.filterByTopLevelDomain string id
                (Zipper.Tlds string
                   (Some (<["a" := [Some "h1"; Some "h2"]]>
                            (<["b" := [Some "h2"]]> ∅))))
                ["h0"] ["a"; "b"] = Ret ["h1"; "h2"])
    by (vm_compute; reflexivity).
  exact (proj1 (proj1 (filterByTopLevelDomain_spec string id ["h0"] ["a"; "b"])
                  _ _ H)).
Defined.

Lemma filterBackendByTopLevelDomain_fallback_witness :
  ["h0"; "h1"] <> ([] : list string).
Proof.
  assert (H : Zipper.filterBackendByTopLevelDomain string id
                (Zipper.Tlds string (Some (<["x" := [Some "h9"]]> ∅)))
                ["h0"; "h1"] ["a.b"] = Ret ["h0"; "h1"])
    by (vm_compute; reflexivity).
  apply (proj1 (filterBackendByTopLevelDomain_fallback string id _ _ _ _ H)).
  discriminate.
Defined.

Lemma infoHandler_status_witness :
  Zipper.infoHandler id unit (fun _ => inl "pb") (fun _ => inl "{}")
    false "metric" "" tt [] 1
  = Zipper.write_blob Zipper.contentTypeJSON "{}".
Proof.
  destruct (proj1 (proj1 (infoHandler_status id unit (fun _ => inl "pb")
                            (fun _ => inl "{}") false "metric" "" tt [] 1))
              eq_refl) as (_ & _ & _ & [([H|H] & _)|(_ & blob & Hb & H)]);
    [discriminate H | discriminate H |].
  injection Hb as <-. exact H.
Defined.

Lemma renderRequest_spec_witness :
  Zipper.renderRequest false "" "x" "y"
  = inl (Zipper.http_Error "from is not a integer" Zipper.StatusBadRequest) /\
  Zipper.renderRequest false "" "1" "y"
  = inl (Zipper.http_Error "until is not a integer" Zipper.StatusBadRequest) /\
  Zipper.renderRequest false "" "1" "2"
  = inl (Zipper.http_Error "empty target" Zipper.StatusBadRequest) /\
  Zipper.renderRequest false "metric" "4294967296" "-60"
  = Zipper.renderRequest false "metric" "0" "-60".
Proof.
  split; [|split; [|split]].
  - destruct (Go.ParseInt "x") as [f|e] eqn:E; [vm_compute in E; discriminate E|].
    exact (proj1 (proj2 (renderRequest_spec "" "x" "y")) e E).
  - destruct (Go.ParseInt "y") as [f|e] eqn:E; [vm_compute in E; discriminate E|].
    exact (proj1 (proj2 (proj2 (renderRequest_spec "" "1" "y"))) 1 e eq_refl E).
  - exact (proj1 (proj2 (proj2 (proj2 (renderRequest_spec "" "1" "2"))))
             1 2 eq_refl eq_refl).
  - apply (proj2 (proj2 (proj2 (proj2
             (renderRequest_spec "metric" "4294967296" "-60"))))
             false "0" 4294967296 0); reflexivity.
Defined.

Lemma handlers_success_witness :
  Zipper.code
    (Zipper.renderHandler id unit (fun _ => inl "pb") (fun _ => inl "[]")
       (fun _ => inl "pk") "" tt [] 2)
  = Zipper.StatusOK.
Proof.
  apply (proj1 (handlers_success id unit id (fun _ => inl "v2")
                  (fun _ => inl "[]") (fun _ => inl "p0") (fun _ => inl "p1")
                  unit (fun _ => inl "pb") (fun _ => inl "[]")
                  (fun _ => inl "pk") false "" tt tt [] 2)).
  split; [reflexivity|]. right. right. split; [by left | by eexists].
Defined.

Lemma Metrics_plain_witness :
  Parser.Metrics (fun _ _ => inl 60) (fun _ => inr Parser.ErrBadType)
    (Parser.Func "sum"
       [Parser.Name "a"; Parser.Func "scale" [Parser.Name "b"; Parser.Str "x"] ∅ "b,'x'";
        Parser.Name "a"] ∅ "a,scale(b,'x'),a")
  = Ret [{| Parser.Metric := "a"; Parser.From := 0; Parser.Until := 0 |};
         {| Parser.Metric := "b"; Parser.From := 0; Parser.Until := 0 |};
         {| Parser.Metric := "a"; Parser.From := 0; Parser.Until := 0 |}].
Proof.
  apply (Metrics_plain (fun _ _ => inl 60) (fun _ => inr Parser.ErrBadType)
           (Parser.Func "sum"
              [Parser.Name "a";
               Parser.Func "scale" [Parser.Name "b"; Parser.Str "x"] ∅ "b,'x'";
               Parser.Name "a"] ∅ "a,scale(b,'x'),a") eq_refl).
Defined.
